(** * queue.c: a circular doubly-linked queue of strings

    A shallow embedding of [queue.c] (the queue of lab0-c) together with the
    properties of its operations.  The C heap is modelled as a finite map from
    block addresses to cells; every C function becomes a function in a small
    state-and-fault monad over that heap, loops become fuel-indexed
    fixpoints. *)

From Stdlib Require Import ZArith Lia List Sorted Permutation String Ascii.
From stdpp Require Import base option list gmap sorting.

#[local] Set Warnings "-clear-no-such-hyp".
Local Open Scope Z_scope.

(** ** The heap *)

(** [struct list_head { struct list_head *next, *prev; }]. *)
Record list_head := LH { next : Z; prev : Z }.

(** The three kinds of heap blocks the program allocates: a bare
    [struct list_head] (the sentinel of a queue), an [element_t]
    ([char *value; struct list_head list;]) and a [char] buffer. *)
Inductive cell :=
| CHead (lh : list_head)
| CElem (value : Z) (list : list_head)
| CChars (bs : list Z).

(** The heap: the live blocks, the allocator's break (the address of the next
    block handed out) and the allocator's oracle.  Each [malloc] consumes one
    oracle entry: [Some j] serves the request with a block whose words all
    read as the indeterminate value [j], [None] (or an exhausted oracle)
    makes the request fail. *)
Record heap := Heap { cells : gmap Z cell; brk : Z; oracle : list (option Z) }.

Definition set_cells (h : heap) (m : gmap Z cell) : heap :=
  {| cells := m; brk := brk h; oracle := oracle h |}.

Definition NULL : Z := 0.

(** [offsetof(element_t, list)] on an LP64 target, and the two conversions
    built on it: [list_entry(p, element_t, list)] and [&e->list]. *)
Definition list_offset : Z := 8.
Definition list_entry (p : Z) : Z := p - list_offset.
Definition list_of (e : Z) : Z := e + list_offset.

(** The [struct list_head] a pointer [p] designates: the block at [p] when it
    is a bare list head, else the [list] member of the element that starts
    [list_offset] bytes before [p].  Nothing is mapped at [NULL]. *)
Definition node_at (m : gmap Z cell) (p : Z) : option list_head :=
  if decide (p = 0) then None else
  match m !! p with
  | Some (CHead lh) => Some lh
  | _ => match m !! list_entry p with
         | Some (CElem _ lh) => Some lh
         | _ => None
         end
  end.

Definition put_node (m : gmap Z cell) (p : Z) (lh : list_head) : gmap Z cell :=
  match m !! p with
  | Some (CHead _) => <[p := CHead lh]> m
  | _ => match m !! list_entry p with
         | Some (CElem v _) => <[list_entry p := CElem v lh]> m
         | _ => m
         end
  end.

Definition elem_at (m : gmap Z cell) (e : Z) : option Z :=
  if decide (e = 0) then None else
  match m !! e with Some (CElem v _) => Some v | _ => None end.

Definition put_elem (m : gmap Z cell) (e v : Z) : gmap Z cell :=
  match m !! e with Some (CElem _ lh) => <[e := CElem v lh]> m | _ => m end.

Definition chars_at (m : gmap Z cell) (b : Z) : option (list Z) :=
  if decide (b = 0) then None else
  match m !! b with Some (CChars bs) => Some bs | _ => None end.

(** The live block with the nearest address at or below [p], looking down
    at most [k] bytes. *)
Fixpoint block_below (m : gmap Z cell) (p : Z) (k : nat) : option (Z * cell) :=
  match m !! p with
  | Some c => Some (p, c)
  | None =>
      match k with
      | O => None
      | S k' => block_below m (p - 1) k'
      end
  end.

(** A [char *p] into a buffer: the address of the buffer's block, the offset
    of [p] in it and the bytes of the block. [p] may point to the first byte
    of the buffer, into it, or one past its end; it is no pointer to chars
    when it is [NULL], when the nearest block below it is no buffer, or when
    it lies beyond that buffer. *)
Definition buffer_at (m : gmap Z cell) (p : Z) : option (Z * nat * list Z) :=
  if decide (p = 0) then None else
  match block_below m p (Z.to_nat p) with
  | Some (b, CChars bs) =>
      if p - b <=? Z.of_nat (length bs)
      then Some (b, Z.to_nat (p - b), bs)
      else None
  | _ => None
  end.

(** ** The monad: state, faults and fuel *)

Inductive result (A : Type) :=
| Ok (a : A) (h : heap)
| Fault      (* an access outside a live object: undefined behaviour, a crash *)
| Timeout.   (* a loop ran out of fuel *)
Arguments Ok {A} a h.
Arguments Fault {A}.
Arguments Timeout {A}.

Definition M (A : Type) : Type := heap → result A.

Definition ret {A} (a : A) : M A := λ h, Ok a h.
Definition bind {A B} (m : M A) (f : A → M B) : M B :=
  λ h, match m h with
       | Ok a h' => f a h'
       | Fault => Fault
       | Timeout => Timeout
       end.
Definition timeout {A} : M A := λ _, Timeout.

Notation "x <- m ;; k" := (bind m (λ x, k))
  (at level 100, m at next level, right associativity).
Notation "m ;; k" := (bind m (λ _, k))
  (at level 100, right associativity).

(** ** Memory accesses *)

Definition load_next (p : Z) : M Z := λ h,
  match node_at (cells h) p with
  | Some lh => Ok (next lh) h
  | None => Fault
  end.

Definition load_prev (p : Z) : M Z := λ h,
  match node_at (cells h) p with
  | Some lh => Ok (prev lh) h
  | None => Fault
  end.

Definition upd_next (p v : Z) (h : heap) : heap :=
  match node_at (cells h) p with
  | Some lh => set_cells h (put_node (cells h) p (LH v (prev lh)))
  | None => h
  end.

Definition upd_prev (p v : Z) (h : heap) : heap :=
  match node_at (cells h) p with
  | Some lh => set_cells h (put_node (cells h) p (LH (next lh) v))
  | None => h
  end.

Definition store_next (p v : Z) : M unit := λ h,
  match node_at (cells h) p with
  | Some _ => Ok tt (upd_next p v h)
  | None => Fault
  end.

Definition store_prev (p v : Z) : M unit := λ h,
  match node_at (cells h) p with
  | Some _ => Ok tt (upd_prev p v h)
  | None => Fault
  end.

(** [e->value] for an [element_t *e]. *)
Definition load_value (e : Z) : M Z := λ h,
  match elem_at (cells h) e with
  | Some v => Ok v h
  | None => Fault
  end.

Definition store_value (e v : Z) : M unit := λ h,
  match elem_at (cells h) e with
  | Some _ => Ok tt (set_cells h (put_elem (cells h) e v))
  | None => Fault
  end.

(** [b[i] = c] for a [char *b] and an index [i] of type [size_t]: a fault
    unless [b + i] lies inside the buffer [b] points into. *)
Definition store_char (b i c : Z) : M unit := λ h,
  match buffer_at (cells h) b with
  | Some (a, off, bs) =>
      if (0 <=? i) && (Z.of_nat off + i <? Z.of_nat (length bs))
      then Ok tt (set_cells h
                    (<[a := CChars (<[(off + Z.to_nat i)%nat := c]> bs)]> (cells h)))
      else Fault
  | None => Fault
  end.

(** ** Arithmetic of [size_t] and [int] *)

Definition size_max : Z := 2 ^ 64.
Definition size_add (a b : Z) : Z := (a + b) mod size_max.
Definition size_sub (a b : Z) : Z := (a - b) mod size_max.
Definition int_wrap (z : Z) : Z := (z + 2 ^ 31) mod 2 ^ 32 - 2 ^ 31.

(** ** The C library *)

(** The allocator hands out blocks at increasing addresses, sixteen bytes
    apart at least, and never reuses one. *)
Definition block_span (size : Z) : Z := 16 * (1 + size / 16).

Definition malloc (size : Z) (fresh : Z → cell) : M Z := λ h,
  match oracle h with
  | Some junk :: o =>
      Ok (brk h) {| cells := <[brk h := fresh junk]> (cells h);
                    brk := brk h + block_span size;
                    oracle := o |}
  | None :: o => Ok NULL {| cells := cells h; brk := brk h; oracle := o |}
  | [] => Ok NULL h
  end.

(** [malloc(sizeof(struct list_head))], [malloc(sizeof(element_t))] and
    [malloc(n)] for a buffer of [n] chars. *)
Definition malloc_list_head : M Z := malloc 16 (λ j, CHead (LH j j)).
Definition malloc_element : M Z := malloc 24 (λ j, CElem j (LH j j)).
Definition malloc_chars (n : Z) : M Z :=
  malloc n (λ j, CChars (replicate (Z.to_nat n) j)).

(** [free(p)]: nothing for [NULL], a fault for anything but the address of a
    live block. *)
Definition free (p : Z) : M unit := λ h,
  if p =? 0 then Ok tt h
  else match cells h !! p with
       | Some _ => Ok tt (set_cells h (delete p (cells h)))
       | None => Fault
       end.

(** The number of bytes before the first [NUL] of a buffer; none when the
    buffer holds no [NUL]. *)
Fixpoint strlen_bytes (bs : list Z) : option Z :=
  match bs with
  | [] => None
  | b :: bs' => if b =? 0 then Some 0 else Z.succ <$> strlen_bytes bs'
  end.

(** [strlen(s)]: a fault when [s] is no pointer to chars or when no [NUL]
    follows [s] in its buffer. *)
Definition strlen (s : Z) : M Z := λ h,
  match buffer_at (cells h) s with
  | Some (_, off, bs) =>
      match strlen_bytes (drop off bs) with Some n => Ok n h | None => Fault end
  | None => Fault
  end.

(** The [n] bytes [strncpy] writes: the source up to its [NUL], then [NUL]s. *)
Fixpoint strncpy_bytes (n : nat) (src : list Z) : option (list Z) :=
  match n with
  | O => Some []
  | S n' =>
      match src with
      | [] => None
      | c :: src' =>
          if c =? 0 then Some (replicate n 0)
          else cons c <$> strncpy_bytes n' src'
      end
  end.

(** The number of bytes [strncpy] reads from its source: at most [n], and
    none after the [NUL]. *)
Fixpoint read_span (n : nat) (src : list Z) : nat :=
  match n, src with
  | S n', c :: src' => if c =? 0 then 1%nat else S (read_span n' src')
  | _, _ => O
  end.

(** Whether the [n] bytes written at offset [od] of block [bd] and the [rd]
    bytes read at offset [os] of block [bs] have a byte in common. *)
Definition overlaps (bd : Z) (od n : nat) (bs : Z) (os rd : nat) : bool :=
  (bd =? bs) && (od <? os + rd)%nat && (os <? od + n)%nat.

(** [strncpy(dst, src, n)]: exactly [n] bytes are written at [dst], the
    source up to its [NUL] and then [NUL]s. A fault when a pointer is no
    pointer to chars, when fewer than [n] bytes are left in the buffer of
    [dst], when the source ends before [n] bytes and before a [NUL], or when
    bytes written and bytes read overlap (C11 7.24.2.4: undefined if copying
    takes place between objects that overlap). With [n = 0] nothing is read
    or written, whatever the two pointers into buffers are. *)
Definition strncpy (dst src n : Z) : M Z := λ h,
  match buffer_at (cells h) dst, buffer_at (cells h) src with
  | Some (bd, od, d), Some (bs, os, s) =>
      let k := Z.to_nat n in
      if (Z.of_nat od + n <=? Z.of_nat (length d))
         && negb (overlaps bd od k bs os (read_span k (drop os s))) then
        match strncpy_bytes k (drop os s) with
        | Some w =>
            Ok dst (set_cells h
                      (<[bd := CChars (take od d ++ w ++ drop (od + k) d)]>
                         (cells h)))
        | None => Fault
        end
      else Fault
  | _, _ => Fault
  end.

(** [strcmp] on two buffers: the difference of the first pair of bytes that
    differ, zero when both strings end together. *)
Fixpoint strcmp_bytes (a b : list Z) : option Z :=
  match a, b with
  | x :: a', y :: b' =>
      if x =? y then (if x =? 0 then Some 0 else strcmp_bytes a' b')
      else Some (x - y)
  | _, _ => None
  end.

Definition strcmp (s1 s2 : Z) : M Z := λ h,
  match buffer_at (cells h) s1, buffer_at (cells h) s2 with
  | Some (_, o1, a), Some (_, o2, b) =>
      match strcmp_bytes (drop o1 a) (drop o2 b) with
      | Some c => Ok c h
      | None => Fault
      end
  | _, _ => Fault
  end.

(** ** The list primitives of [list.h] *)

(** Modelled from the spec: [INIT_LIST_HEAD] of the absent [list.h]; it makes
    a node's next and prev both point to the node itself. *)
Definition INIT_LIST_HEAD (head : Z) : M unit :=
  store_next head head ;;
  store_prev head head.

(** Modelled from the spec: [list_add] of the absent [list.h]; it links
    [node] immediately after the sentinel [head]. *)
Definition list_add (node head : Z) : M unit :=
  nxt <- load_next head ;;
  store_prev nxt node ;;
  store_next node nxt ;;
  store_prev node head ;;
  store_next head node.

(** Modelled from the spec: [list_add_tail] of the absent [list.h]; it links
    [node] immediately before the sentinel [head]. *)
Definition list_add_tail (node head : Z) : M unit :=
  prv <- load_prev head ;;
  store_next prv node ;;
  store_next node head ;;
  store_prev node prv ;;
  store_prev head node.

(** Modelled from the spec: [list_del] of the absent [list.h]; it unlinks
    [node] from its neighbours. *)
Definition list_del (node : Z) : M unit :=
  nxt <- load_next node ;;
  prv <- load_prev node ;;
  store_prev nxt prv ;;
  store_next prv nxt.

(** Modelled from the spec: [list_del_init] of the absent [list.h]; it
    unlinks [node] and restores its self-referential isolation. *)
Definition list_del_init (node : Z) : M unit :=
  list_del node ;;
  INIT_LIST_HEAD node.

(** Modelled from the spec: [list_empty] of the absent [list.h]; a queue is
    empty iff the sentinel's forward pointer refers to the sentinel. *)
Definition list_empty (head : Z) : M bool :=
  nxt <- load_next head ;;
  ret (nxt =? head).

(** Modelled from the spec: [list_is_singular] of the absent [list.h]; the
    queue holds exactly one element: it is not empty and the sentinel's two
    pointers agree. *)
Definition list_is_singular (head : Z) : M bool :=
  e <- list_empty head ;;
  if e then ret false
  else
    prv <- load_prev head ;;
    nxt <- load_next head ;;
    ret (prv =? nxt).

(** ** The functions of [queue.c] *)

Definition q_new : M Z :=
  q <- malloc_list_head ;;
  if q =? 0 then ret NULL
  else
    INIT_LIST_HEAD q ;;
    ret q.

Definition q_release_element (e : Z) : M unit :=
  v <- load_value e ;;
  free v ;;
  free e.

(** The loop of [q_free]: [list_for_each_entry_safe (to_free, next_to_free,
    l, list)]. *)
Fixpoint q_free_loop (fuel : nat) (l to_free next_to_free : Z) : M unit :=
  match fuel with
  | O => timeout
  | S fuel' =>
      if list_of to_free =? l then ret tt
      else
        q_release_element to_free ;;
        nxt <- load_next (list_of next_to_free) ;;
        q_free_loop fuel' l next_to_free (list_entry nxt)
  end.

Definition q_free (fuel : nat) (l : Z) : M unit :=
  if l =? 0 then ret tt
  else
    first <- load_next l ;;
    second <- load_next (list_of (list_entry first)) ;;
    q_free_loop fuel l (list_entry first) (list_entry second) ;;
    free l.

Definition q_insert_head (head s : Z) : M bool :=
  if head =? 0 then ret false
  else
    new_node <- malloc_element ;;
    if new_node =? 0 then ret false
    else
      n <- strlen s ;;
      buf <- malloc_chars (size_add n 1) ;;
      store_value new_node buf ;;
      v <- load_value new_node ;;
      if v =? 0 then
        free new_node ;;
        ret false
      else
        n1 <- strlen s ;;
        v1 <- load_value new_node ;;
        strncpy v1 s n1 ;;
        n2 <- strlen s ;;
        v2 <- load_value new_node ;;
        store_char v2 n2 0 ;;
        list_add (list_of new_node) head ;;
        ret true.

Definition q_insert_tail (head s : Z) : M bool :=
  if head =? 0 then ret false
  else
    new_tail <- malloc_element ;;
    if new_tail =? 0 then ret false
    else
      n <- strlen s ;;
      buf <- malloc_chars (size_add n 1) ;;
      store_value new_tail buf ;;
      n1 <- strlen s ;;
      v1 <- load_value new_tail ;;
      strncpy v1 s n1 ;;
      n2 <- strlen s ;;
      v2 <- load_value new_tail ;;
      store_char v2 n2 0 ;;
      list_add_tail (list_of new_tail) head ;;
      ret true.

(** The tail shared by [q_remove_head] and [q_remove_tail]: copy the removed
    string to [sp] when [sp] is not [NULL]. *)
Definition copy_out (e sp bufsize : Z) : M unit :=
  if sp =? 0 then ret tt
  else
    v <- load_value e ;;
    strncpy sp v (size_sub bufsize 1) ;;
    store_char sp (size_sub bufsize 1) 0.

Definition q_remove_head (head sp bufsize : Z) : M Z :=
  if head =? 0 then ret NULL
  else
    e <- list_empty head ;;
    if e then ret NULL
    else
      first <- load_next head ;;
      let head_element := list_entry first in
      list_del_init (list_of head_element) ;;
      copy_out head_element sp bufsize ;;
      ret head_element.

Definition q_remove_tail (head sp bufsize : Z) : M Z :=
  if head =? 0 then ret NULL
  else
    e <- list_empty head ;;
    if e then ret NULL
    else
      last <- load_prev head ;;
      let tail_element := list_entry last in
      list_del_init (list_of tail_element) ;;
      copy_out tail_element sp bufsize ;;
      ret tail_element.

(** The loop of [q_size]: [list_for_each (running, head) num++]. *)
Fixpoint q_size_loop (fuel : nat) (head running num : Z) : M Z :=
  match fuel with
  | O => timeout
  | S fuel' =>
      if running =? head then ret num
      else
        nxt <- load_next running ;;
        q_size_loop fuel' head nxt (int_wrap (num + 1))
  end.

Definition q_size (fuel : nat) (head : Z) : M Z :=
  if head =? 0 then ret 0
  else
    e <- list_empty head ;;
    if e then ret 0
    else
      first <- load_next head ;;
      q_size_loop fuel head first 0.

(** The two-pointer walk of [q_delete_mid]. *)
Fixpoint q_delete_mid_loop (fuel : nat) (head first second : Z) : M Z :=
  match fuel with
  | O => timeout
  | S fuel' =>
      if second =? head then ret first
      else
        sn <- load_next second ;;
        if sn =? head then ret first
        else
          first' <- load_next first ;;
          sn' <- load_next second ;;
          second' <- load_next sn' ;;
          q_delete_mid_loop fuel' head first' second'
  end.

Definition q_delete_mid (fuel : nat) (head : Z) : M bool :=
  if head =? 0 then ret false
  else
    e <- list_empty head ;;
    if e then ret false
    else
      first <- load_next head ;;
      second <- load_next head ;;
      mid <- q_delete_mid_loop fuel head first second ;;
      list_del mid ;;
      q_release_element (list_entry mid) ;;
      ret true.

(** The loop of [q_delete_dup]; [first] never moves. *)
Fixpoint q_delete_dup_loop (fuel : nat) (head first second : Z) : M unit :=
  match fuel with
  | O => timeout
  | S fuel' =>
      sn <- load_next second ;;
      if sn =? head then ret tt
      else
        (if negb (list_entry first =? list_entry second)
         then store_next first second
         else ret tt) ;;
        second' <- load_next second ;;
        q_delete_dup_loop fuel' head first second'
  end.

Definition q_delete_dup (fuel : nat) (head : Z) : M bool :=
  if head =? 0 then ret false
  else
    q_delete_dup_loop fuel head head head ;;
    ret true.

Fixpoint q_swap_loop (fuel : nat) (head first : Z) : M unit :=
  match fuel with
  | O => timeout
  | S fuel' =>
      if first =? head then ret tt
      else
        fn <- load_next first ;;
        if fn =? head then ret tt
        else
          second <- load_next first ;;
          sn <- load_next second ;;
          store_next first sn ;;
          fn1 <- load_next first ;;
          store_prev fn1 first ;;
          fp <- load_prev first ;;
          store_prev second fp ;;
          sp <- load_prev second ;;
          store_next sp second ;;
          store_next second first ;;
          store_prev first second ;;
          first' <- load_next first ;;
          q_swap_loop fuel' head first'
  end.

Definition q_swap (fuel : nat) (head : Z) : M unit :=
  first <- load_next head ;;
  q_swap_loop fuel head first.

(** The assignments [running->next = running->prev; running->prev = safe]
    that [q_reverse] makes in its loop and once more after it. *)
Definition flip_node (running safe : Z) : M unit :=
  p <- load_prev running ;;
  store_next running p ;;
  store_prev running safe.

(** The loop of [q_reverse]: [list_for_each_safe (running, safe, head)];
    it yields the final [running] and [safe]. *)
Fixpoint q_reverse_loop (fuel : nat) (head running safe : Z) : M (Z * Z) :=
  match fuel with
  | O => timeout
  | S fuel' =>
      if running =? head then ret (running, safe)
      else
        flip_node running safe ;;
        safe' <- load_next safe ;;
        q_reverse_loop fuel' head safe safe'
  end.

Definition q_reverse (fuel : nat) (head : Z) : M unit :=
  hn <- load_next head ;;
  if hn =? 0 then ret tt
  else
    running <- load_next head ;;
    safe <- load_next running ;;
    rs <- q_reverse_loop fuel head running safe ;;
    flip_node (fst rs) (snd rs).

(** [struct list_head **ptr] in [merge]: the address of the local variable
    [new_head], or the address of the [next] field of a node. *)
Inductive slot :=
| NewHead
| NextOf (p : Z).

(** [*ptr = v]; the result is the value of [new_head] afterwards. *)
Definition store_slot (new_head : Z) (ptr : slot) (v : Z) : M Z :=
  match ptr with
  | NewHead => ret v
  | NextOf p => store_next p v ;; ret new_head
  end.

(** [*ptr]. *)
Definition load_slot (new_head : Z) (ptr : slot) : M Z :=
  match ptr with
  | NewHead => ret new_head
  | NextOf p => load_next p
  end.

Fixpoint merge_loop (fuel : nat) (new_head : Z) (ptr : slot) (first second : Z)
  : M Z :=
  match fuel with
  | O => timeout
  | S fuel' =>
      if negb (first =? 0) && negb (second =? 0) then
        v1 <- load_value (list_entry first) ;;
        v2 <- load_value (list_entry second) ;;
        c <- strcmp v1 v2 ;;
        if c <? 0 then
          nh <- store_slot new_head ptr first ;;
          first' <- load_next first ;;
          cur <- load_slot nh ptr ;;
          merge_loop fuel' nh (NextOf cur) first' second
        else
          nh <- store_slot new_head ptr second ;;
          second' <- load_next second ;;
          cur <- load_slot nh ptr ;;
          merge_loop fuel' nh (NextOf cur) first second'
      else
        store_slot new_head ptr (Z.lor first second)
  end.

Definition merge (fuel : nat) (first second : Z) : M Z :=
  merge_loop fuel NULL NewHead first second.

(** The loop of [merge_sort] that finds the middle; it yields [first]. *)
Fixpoint find_middle (fuel : nat) (first second : Z) : M Z :=
  match fuel with
  | O => timeout
  | S fuel' =>
      if second =? 0 then ret first
      else
        sn <- load_next second ;;
        if sn =? 0 then ret first
        else
          first' <- load_next first ;;
          sn' <- load_next second ;;
          second' <- load_next sn' ;;
          find_middle fuel' first' second'
  end.

(** [merge_sort]; the two recursive calls are the arguments of one call of
    [merge], here evaluated left to right (they work on disjoint chains). *)
Fixpoint merge_sort (fuel : nat) (head : Z) : M Z :=
  match fuel with
  | O => timeout
  | S fuel' =>
      if head =? 0 then ret head
      else
        hn <- load_next head ;;
        if hn =? 0 then ret head
        else
          second <- load_next head ;;
          first <- find_middle fuel' head second ;;
          middle <- load_next first ;;
          store_next first NULL ;;
          a <- merge_sort fuel' head ;;
          b <- merge_sort fuel' middle ;;
          merge fuel' a b
  end.

(** The loop of [q_sort] that restores the backward pointers; it yields the
    last node. *)
Fixpoint reconnect (fuel : nat) (first second : Z) : M Z :=
  match fuel with
  | O => timeout
  | S fuel' =>
      if second =? 0 then ret first
      else
        store_prev second first ;;
        first' <- load_next first ;;
        second' <- load_next second ;;
        reconnect fuel' first' second'
  end.

Definition q_sort (fuel : nat) (head : Z) : M unit :=
  if head =? 0 then ret tt
  else
    e <- list_empty head ;;
    if e then ret tt
    else
      s <- list_is_singular head ;;
      if s then ret tt
      else
        tail <- load_prev head ;;
        store_next tail NULL ;;
        hn <- load_next head ;;
        sorted <- merge_sort fuel hn ;;
        store_next head sorted ;;
        second <- load_next head ;;
        last <- reconnect fuel head second ;;
        store_next last head ;;
        store_prev head last.

(** ** Views of the heap *)

Definition nxt (h : heap) (p : Z) : option Z := next <$> node_at (cells h) p.
Definition prv (h : heap) (p : Z) : option Z := prev <$> node_at (cells h) p.
Definition is_node (h : heap) (p : Z) : Prop := is_Some (node_at (cells h) p).

(** A cell with its link fields erased: what remains is the kind of the block
    and its payload. *)
Definition unlink (c : cell) : cell :=
  match c with
  | CHead _ => CHead (LH 0 0)
  | CElem v _ => CElem v (LH 0 0)
  | CChars bs => CChars bs
  end.

(** [h'] differs from [h] in next and prev fields only: the same blocks are
    live, with the same payloads, and the allocator has not been used. *)
Definition relinked (h h' : heap) : Prop :=
  brk h' = brk h ∧ oracle h' = oracle h ∧
  ∀ a, unlink <$> (cells h' !! a) = unlink <$> (cells h !! a).

(** The bytes of a buffer before its first [NUL]. *)
Fixpoint cstr (bs : list Z) : list Z :=
  match bs with
  | [] => []
  | b :: bs' => if b =? 0 then [] else b :: cstr bs'
  end.

(** The string held by the element that owns node [x] (empty when [x] is not
    the node of a well-formed element). *)
Definition value_of (h : heap) (x : Z) : list Z :=
  match elem_at (cells h) (list_entry x) with
  | Some v => match chars_at (cells h) v with
              | Some bs => cstr bs
              | None => []
              end
  | None => []
  end.

(** Node [x] belongs to an element whose value points to a terminated
    string. *)
Definition has_string (h : heap) (x : Z) : Prop :=
  ∃ v bs n, elem_at (cells h) (list_entry x) = Some v ∧
            chars_at (cells h) v = Some bs ∧ strlen_bytes bs = Some n ∧
            Forall (λ c, 0 ≤ c < 256) bs.

(** ** Representation predicates *)

(** Following the field [f] from [p] visits exactly the nodes [l] and then
    arrives at [q]. *)
Fixpoint path (f : Z → option Z) (p : Z) (l : list Z) (q : Z) : Prop :=
  match l with
  | [] => p = q
  | x :: l' => p = x ∧ ∃ n, f x = Some n ∧ path f n l' q
  end.

(** The queue invariant: the chain of forward pointers starting and ending at
    the sentinel visits the nodes [l], each once, and the chain of backward
    pointers is its exact reverse. *)
Definition is_queue (h : heap) (head : Z) (l : list Z) : Prop :=
  NoDup (head :: l) ∧
  path (nxt h) head (head :: l) head ∧
  path (prv h) head (head :: reverse l) head.

(** Lexical order on strings (byte lists). *)
Fixpoint lex_le (a b : list Z) : Prop :=
  match a, b with
  | [], _ => True
  | _ :: _, [] => False
  | x :: a', y :: b' => x < y ∨ (x = y ∧ lex_le a' b')
  end.

Definition lex_lt (a b : list Z) : Prop := lex_le a b ∧ a ≠ b.

(** The order of two nodes: the lexical order of their elements' strings. *)
Definition val_le (h : heap) (x y : Z) : Prop :=
  lex_le (value_of h x) (value_of h y).
Definition val_lt (h : heap) (x y : Z) : Prop :=
  lex_lt (value_of h x) (value_of h y).

Fixpoint lex_le_dec (a b : list Z) : Decision (lex_le a b) :=
  match a, b with
  | [], _ => left I
  | _ :: _, [] => right (λ H, H)
  | x :: a', y :: b' =>
      @or_dec _ (Z.lt_dec x y) _ (@and_dec _ (Z.eq_dec x y) _ (lex_le_dec a' b'))
  end.
#[global] Existing Instance lex_le_dec.

#[global] Instance lex_lt_dec a b : Decision (lex_lt a b).
Proof. unfold lex_lt. apply _. Defined.

#[global] Instance val_lt_dec h x y : Decision (val_lt h x y).
Proof. unfold val_lt. apply _. Defined.

(** ** Observing a queue, as the test driver does *)

(** A C string literal: the bytes of [s] and the terminator. *)
Fixpoint c_bytes (s : string) : list Z :=
  match s with
  | EmptyString => [0]
  | String a s' => Z.of_nat (nat_of_ascii a) :: c_bytes s'
  end.

Fixpoint walk (f : Z → option Z) (fuel : nat) (stop p : Z) : option (list Z) :=
  match fuel with
  | O => None
  | S fuel' =>
      if p =? stop then Some []
      else match f p with
           | Some n => cons p <$> walk f fuel' stop n
           | None => None
           end
  end.

(** The nodes met going forward from the sentinel round to it. *)
Definition forward (fuel : nat) (h : heap) (head : Z) : option (list Z) :=
  match nxt h head with Some n => walk (nxt h) fuel head n | None => None end.

(** The strings met going forward. *)
Definition contents (fuel : nat) (h : heap) (head : Z) : option (list (list Z)) :=
  map (value_of h) <$> forward fuel h head.

(** A heap whose only live blocks are string literals, and a driver that
    builds a queue of them with [q_new] and [q_insert_tail]. *)
Fixpoint literals (a : Z) (ss : list string) : gmap Z cell :=
  match ss with
  | [] => ∅
  | s :: ss' => <[a := CChars (c_bytes s)]> (literals (a + 256) ss')
  end.

Definition literal_heap (ss : list string) (o : list (option Z)) : heap :=
  {| cells := literals 256 ss;
     brk := 256 * (1 + Z.of_nat (length ss));
     oracle := o |}.

Fixpoint insert_all (head a : Z) (n : nat) : M unit :=
  match n with
  | O => ret tt
  | S n' => q_insert_tail head a ;; insert_all head (a + 256) n'
  end.

Definition build (ss : list string) : result Z :=
  (head <- q_new ;; insert_all head 256 (length ss) ;; ret head)
    (literal_heap ss (replicate (1 + 2 * length ss) (Some 85))).

Definition strings (ss : list string) : option (list (list Z)) :=
  Some (map (λ s, cstr (c_bytes s)) ss).

(** The allocator's invariant: every live block lies below the break, and no
    buffer is larger than the address space. *)
Definition block_ok (top a : Z) (c : cell) : Prop :=
  0 < a < top ∧
  match c with
  | CChars bs => Z.of_nat (length bs) < size_max
  | _ => True
  end.

Definition heap_ok (h : heap) : Prop :=
  0 < brk h ∧ map_Forall (block_ok (brk h)) (cells h).

#[global] Instance block_ok_dec top a c : Decision (block_ok top a c).
Proof. unfold block_ok. destruct c; apply _. Defined.

#[global] Instance heap_ok_dec h : Decision (heap_ok h).
Proof. unfold heap_ok. apply _. Defined.

(** A heap with a given allocation oracle. *)
Definition with_oracle (h : heap) (o : list (option Z)) : heap :=
  {| cells := cells h; brk := brk h; oracle := o |}.

(** ** Specification functions *)

(** What [q_swap] is to do to the order: exchange the members of each
    adjacent pair and leave an unpaired last element in place. *)
Fixpoint swap_pairs (l : list Z) : list Z :=
  match l with
  | a :: b :: t => b :: a :: swap_pairs t
  | _ => l
  end.

(** ** Checking the representation predicates on a concrete heap *)

Fixpoint path_b (f : Z → option Z) (p : Z) (l : list Z) (q : Z) : bool :=
  match l with
  | [] => p =? q
  | x :: l' => (p =? x) &&
               match f x with Some n => path_b f n l' q | None => false end
  end.

Definition is_queue_b (h : heap) (head : Z) (l : list Z) : bool :=
  bool_decide (NoDup (head :: l)) &&
  path_b (nxt h) head (head :: l) head &&
  path_b (prv h) head (head :: reverse l) head.

Definition has_string_b (h : heap) (x : Z) : bool :=
  match elem_at (cells h) (list_entry x) with
  | Some v =>
      match chars_at (cells h) v with
      | Some bs =>
          match strlen_bytes bs with
          | Some _ => forallb (λ c, (0 <=? c) && (c <? 256)) bs
          | None => false
          end
      | None => false
      end
  | None => false
  end.

(** The heap and the sentinel the driver [build] ends with. *)
Definition built_heap (ss : list string) : heap :=
  match build ss with
  | Ok _ h => h
  | _ => literal_heap [] []
  end.
Definition built_head (ss : list string) : Z :=
  match build ss with
  | Ok head _ => head
  | _ => NULL
  end.

(** The nodes of the queue the driver built, in forward order. *)
Definition built_nodes (ss : list string) : list Z :=
  default [] (forward 64 (built_heap ss) (built_head ss)).

(** The forward order of the nodes after a run. *)
Definition order_after {A} (head : Z) (r : result A) : option (list Z) :=
  match r with
  | Ok _ h => forward 64 h head
  | _ => None
  end.

(** The queue ["a"; "a"] cut into two chains of one node each, as
    [merge_sort] cuts it before it calls [merge]. *)
Definition two_chains : heap :=
  upd_next 808 0 (upd_next 856 0 (built_heap ["a"; "a"]%string)).

(** The queue ["c"; "a"; "b"] with the forward pointer of its last node
    cut, as [q_sort] cuts it before it calls [merge_sort] on the first
    node. *)
Definition cut_chain : heap :=
  upd_next 1160 0 (built_heap ["c"; "a"; "b"]%string).

(** The blocks a queue owns: the sentinel is a block of its own, and each
    node of [l] lies in an element whose string is the buffer at the same
    position of [vs]; no two elements share a buffer. *)
Definition owns (h : heap) (head : Z) (l vs : list Z) : Prop :=
  (∃ lh, cells h !! head = Some (CHead lh)) ∧
  Forall2 (λ x v, elem_at (cells h) (list_entry x) = Some v ∧
                  is_Some (chars_at (cells h) v)) l vs ∧
  NoDup vs.

(** * Properties *)

(** ** The heap accessors *)

Section Accessors.

Implicit Types (m : gmap Z cell) (h : heap) (p q e b v : Z) (lh : list_head).

Lemma node_at_null m : node_at m 0 = None.
Proof. reflexivity. Qed.

Lemma node_at_put_eq m p lh :
  is_Some (node_at m p) → node_at (put_node m p lh) p = Some lh.
Proof.
  unfold node_at, put_node, list_entry. intros [lh0 H].
  case_decide; [done|].
  destruct (m !! p) as [[]|] eqn:Ep;
    try (destruct (m !! (p - list_offset)) as [[]|] eqn:Ee; try done);
    simplify_map_eq; try done;
    unfold list_offset in *;
    rewrite ?lookup_insert_ne by lia; rewrite ?Ep; by simplify_map_eq.
Qed.

Lemma node_at_put_ne m p q lh :
  p ≠ q → node_at (put_node m p lh) q = node_at m q.
Proof.
  unfold node_at, put_node, list_entry, list_offset. intros Hne.
  case_decide; [done|].
  destruct (m !! p) as [[]|] eqn:Ep;
    try (destruct (m !! (p - 8)) as [[]|] eqn:Ee; try done);
    rewrite ?(lookup_insert_ne _ _ q) by lia;
    try (destruct (decide (q - 8 = p)) as [->|];
         [rewrite ?lookup_insert_eq, ?Ep; by destruct (m !! q) as [[]|]
         |by rewrite ?lookup_insert_ne by lia]);
    try (destruct (decide (q = p - 8)) as [->|];
         [rewrite ?lookup_insert_eq, ?Ee; by rewrite ?lookup_insert_ne by lia
         |by rewrite ?lookup_insert_ne by lia]).
Qed.

Lemma unlink_put_node m p lh a :
  unlink <$> (put_node m p lh !! a) = unlink <$> (m !! a).
Proof.
  unfold put_node.
  destruct (m !! p) as [[]|] eqn:Ep;
    try (destruct (m !! list_entry p) as [[]|] eqn:Ee; try done);
    match goal with
    | |- context [<[?k := _]> _ !! ?a'] =>
        destruct (decide (k = a')) as [<-|];
        [rewrite lookup_insert_eq; by rewrite ?Ep, ?Ee
        |by rewrite lookup_insert_ne]
    end.
Qed.

Lemma relinked_refl h : relinked h h.
Proof. by repeat split. Qed.

Lemma relinked_trans h1 h2 h3 :
  relinked h1 h2 → relinked h2 h3 → relinked h1 h3.
Proof.
  intros (?&?&H1) (?&?&H2). split; [congruence|]. split; [congruence|].
  intros a. by rewrite H2, H1.
Qed.

Lemma relinked_upd_next h p v : relinked h (upd_next p v h).
Proof.
  unfold upd_next. destruct (node_at (cells h) p); [|apply relinked_refl].
  repeat split; try done. intros a. apply unlink_put_node.
Qed.

Lemma relinked_upd_prev h p v : relinked h (upd_prev p v h).
Proof.
  unfold upd_prev. destruct (node_at (cells h) p); [|apply relinked_refl].
  repeat split; try done. intros a. apply unlink_put_node.
Qed.

Lemma relinked_elem_at h h' e :
  relinked h h' → elem_at (cells h') e = elem_at (cells h) e.
Proof.
  intros (_&_&H). unfold elem_at. case_decide; [done|].
  specialize (H e).
  destruct (cells h' !! e) as [[]|], (cells h !! e) as [[]|];
    simpl in H; congruence.
Qed.

Lemma relinked_chars_at h h' b :
  relinked h h' → chars_at (cells h') b = chars_at (cells h) b.
Proof.
  intros (_&_&H). unfold chars_at. case_decide; [done|].
  specialize (H b).
  destruct (cells h' !! b) as [[]|], (cells h !! b) as [[]|];
    simpl in H; congruence.
Qed.

Lemma relinked_value_of h h' x :
  relinked h h' → value_of h' x = value_of h x.
Proof.
  intros H. unfold value_of. rewrite (relinked_elem_at _ _ _ H).
  destruct (elem_at (cells h) (list_entry x)); [|done].
  by rewrite (relinked_chars_at _ _ _ H).
Qed.

Lemma relinked_has_string h h' x :
  relinked h h' → has_string h x → has_string h' x.
Proof.
  intros H (v&bs&n&?&?&?&?). exists v, bs, n.
  by rewrite (relinked_elem_at _ _ _ H), (relinked_chars_at _ _ _ H).
Qed.

Lemma relinked_dom h h' : relinked h h' → dom (cells h') = dom (cells h).
Proof.
  intros (_&_&H). apply set_eq. intros a. rewrite !elem_of_dom.
  specialize (H a).
  destruct (cells h' !! a), (cells h !! a); simpl in H;
    rewrite ?is_Some_alt; done.
Qed.

Lemma relinked_is_node h h' p : relinked h h' → is_node h p → is_node h' p.
Proof.
  intros (_&_&H). unfold is_node, node_at. case_decide; [done|].
  pose proof (H p) as Hp. pose proof (H (list_entry p)) as He.
  destruct (cells h' !! p) as [[]|], (cells h !! p) as [[]|];
    simpl in Hp; try congruence; try (intros _; by eexists);
    destruct (cells h' !! list_entry p) as [[]|],
             (cells h !! list_entry p) as [[]|];
    simpl in He; try congruence; try done; intros _; by eexists.
Qed.

Lemma is_node_nxt h p : is_node h p ↔ is_Some (nxt h p).
Proof. unfold is_node, nxt. by rewrite fmap_is_Some. Qed.

Lemma is_node_prv h p : is_node h p ↔ is_Some (prv h p).
Proof. unfold is_node, prv. by rewrite fmap_is_Some. Qed.

Lemma nxt_is_node h p v : nxt h p = Some v → is_node h p.
Proof. intros H. apply is_node_nxt. by eexists. Qed.

Lemma prv_is_node h p v : prv h p = Some v → is_node h p.
Proof. intros H. apply is_node_prv. by eexists. Qed.

Lemma nxt_upd_next_eq h p v : is_node h p → nxt (upd_next p v h) p = Some v.
Proof.
  intros [lh H]. unfold nxt, upd_next. rewrite H. simpl.
  rewrite node_at_put_eq by (by eexists). done.
Qed.

Lemma nxt_upd_next_ne h p q v : p ≠ q → nxt (upd_next p v h) q = nxt h q.
Proof.
  intros Hne. unfold nxt, upd_next.
  destruct (node_at (cells h) p); [|done]. simpl.
  by rewrite node_at_put_ne.
Qed.

Lemma prv_upd_next h p q v : prv (upd_next p v h) q = prv h q.
Proof.
  unfold prv, upd_next. destruct (node_at (cells h) p) eqn:E; [|done]. simpl.
  destruct (decide (p = q)) as [<-|].
  - rewrite node_at_put_eq by (by eexists). by rewrite E.
  - by rewrite node_at_put_ne.
Qed.

Lemma prv_upd_prev_eq h p v : is_node h p → prv (upd_prev p v h) p = Some v.
Proof.
  intros [lh H]. unfold prv, upd_prev. rewrite H. simpl.
  rewrite node_at_put_eq by (by eexists). done.
Qed.

Lemma prv_upd_prev_ne h p q v : p ≠ q → prv (upd_prev p v h) q = prv h q.
Proof.
  intros Hne. unfold prv, upd_prev.
  destruct (node_at (cells h) p); [|done]. simpl.
  by rewrite node_at_put_ne.
Qed.

Lemma nxt_upd_prev h p q v : nxt (upd_prev p v h) q = nxt h q.
Proof.
  unfold nxt, upd_prev. destruct (node_at (cells h) p) eqn:E; [|done]. simpl.
  destruct (decide (p = q)) as [<-|].
  - rewrite node_at_put_eq by (by eexists). by rewrite E.
  - by rewrite node_at_put_ne.
Qed.

Lemma is_node_upd_next h p q v : is_node (upd_next p v h) q ↔ is_node h q.
Proof. rewrite !is_node_prv. by rewrite prv_upd_next. Qed.

Lemma is_node_upd_prev h p q v : is_node (upd_prev p v h) q ↔ is_node h q.
Proof. rewrite !is_node_nxt. by rewrite nxt_upd_prev. Qed.

(** The monadic accessors in terms of the views. *)

Lemma load_next_ok h p v : nxt h p = Some v → load_next p h = Ok v h.
Proof.
  unfold nxt, load_next. destruct (node_at (cells h) p); naive_solver.
Qed.

Lemma load_prev_ok h p v : prv h p = Some v → load_prev p h = Ok v h.
Proof.
  unfold prv, load_prev. destruct (node_at (cells h) p); naive_solver.
Qed.

Lemma store_next_ok h p v :
  is_node h p → store_next p v h = Ok tt (upd_next p v h).
Proof. intros [lh H]. unfold store_next. by rewrite H. Qed.

Lemma store_prev_ok h p v :
  is_node h p → store_prev p v h = Ok tt (upd_prev p v h).
Proof. intros [lh H]. unfold store_prev. by rewrite H. Qed.

Lemma load_value_ok h e v :
  elem_at (cells h) e = Some v → load_value e h = Ok v h.
Proof. intros H. unfold load_value. by rewrite H. Qed.

End Accessors.

(** ** Running monadic code *)

Lemma bind_ok {A B} (m : M A) (k : A → M B) h a h1 :
  m h = Ok a h1 → bind m k h = k a h1.
Proof. intros H. unfold bind. by rewrite H. Qed.

Lemma bind_assoc {A B C} (m : M A) (f : A → M B) (g : B → M C) h :
  bind (bind m f) g h = bind m (λ a, bind (f a) g) h.
Proof. unfold bind. by destruct (m h). Qed.

Lemma bind_ret {A B} (a : A) (k : A → M B) h : bind (ret a) k h = k a h.
Proof. reflexivity. Qed.

Lemma is_node_not_null h p : is_node h p → p ≠ 0.
Proof. intros [lh H] ->. by rewrite node_at_null in H. Qed.

Lemma eqb_ne (a b : Z) : a ≠ b → (a =? b) = false.
Proof. apply Z.eqb_neq. Qed.

Create HintDb heap.
#[local] Hint Resolve load_next_ok load_prev_ok store_next_ok store_prev_ok
  load_value_ok nxt_is_node prv_is_node : heap.
#[local] Hint Resolve <- is_node_upd_next is_node_upd_prev : heap.

(** One step of a monadic computation whose head operation succeeds. *)
Ltac mstep :=
  rewrite ?bind_assoc;
  erewrite bind_ok; [|solve [eauto 6 with heap]]; cbv beta.

(** ** Paths *)

Section Paths.

Implicit Types (f g : Z → option Z) (l : list Z) (p q x : Z).

Lemma path_ext f g p l q :
  (∀ x, x ∈ l → f x = g x) → path f p l q → path g p l q.
Proof.
  revert p. induction l as [|x l IH]; intros p Hfg; [done|].
  intros [-> (n & Hn & Hp)]. split; [done|]. exists n. split.
  - rewrite <- Hfg; [done|]. by left.
  - apply IH; [|done]. intros y Hy. apply Hfg. by right.
Qed.

Lemma path_app f p l1 l2 q :
  path f p (l1 ++ l2) q ↔ ∃ r, path f p l1 r ∧ path f r l2 q.
Proof.
  revert p. induction l1 as [|x l1 IH]; intros p; simpl.
  - split; [intros H; by exists p|by intros (r & -> & H)].
  - split.
    + intros [-> (n & Hn & Hp)]. apply IH in Hp as (r & H1 & H2).
      exists r. eauto.
    + intros (r & [-> (n & Hn & H1)] & H2). split; [done|].
      exists n. split; [done|]. apply IH. eauto.
Qed.

Lemma path_snoc f p l x q :
  path f p (l ++ [x]) q ↔ path f p l x ∧ f x = Some q.
Proof.
  rewrite path_app. simpl. split.
  - intros (r & H1 & -> & n & Hn & ->). done.
  - intros [H1 H2]. exists x. eauto.
Qed.

Lemma path_defined f p l q x : path f p l q → x ∈ l → is_Some (f x).
Proof.
  revert p. induction l as [|y l IH]; intros p; simpl.
  - intros _ H. by apply elem_of_nil in H.
  - intros [-> (n & Hn & H1)] [->|Hx]%elem_of_cons; eauto.
Qed.

(** The first node of a path followed by its end: where [p] points. *)
Lemma path_head f p l q : path f p l q → p = hd q l.
Proof. destruct l as [|y l]; simpl; [done|by intros [-> _]]. Qed.

End Paths.

Lemma is_queue_nodes h head l x :
  is_queue h head l → x ∈ head :: l → is_node h x.
Proof.
  intros (_ & Hf & _) Hx. apply is_node_nxt. eapply path_defined; eauto.
Qed.

Lemma is_queue_next h head l :
  is_queue h head l → nxt h head = Some (hd head l).
Proof.
  intros (_ & [_ (n & Hn & Hp)] & _). by rewrite Hn, (path_head _ _ _ _ Hp).
Qed.

Lemma is_queue_prev h head l :
  is_queue h head l → prv h head = Some (hd head (reverse l)).
Proof.
  intros (_ & _ & [_ (n & Hn & Hp)]). by rewrite Hn, (path_head _ _ _ _ Hp).
Qed.

(** ** [q_reverse] *)

Lemma q_reverse_loop_spec rest : ∀ h head running safe first fuel,
  nxt h head = Some first →
  path (nxt h) running rest head →
  nxt h running = Some safe →
  NoDup rest → head ∉ rest →
  (length rest < fuel)%nat →
  ∃ h', q_reverse_loop fuel head running safe h = Ok (head, first) h' ∧
        relinked h h' ∧
        (∀ x, x ∈ rest → nxt h' x = prv h x ∧ prv h' x = nxt h x) ∧
        (∀ y, y ∉ rest → nxt h' y = nxt h y ∧ prv h' y = prv h y).
Proof.
  induction rest as [|x rest IH];
    intros h head running safe first fuel Hhead Hpath Hsafe Hnd Hnin Hfuel;
    (destruct fuel as [|fuel]; [simpl in Hfuel; lia|]); simpl in Hpath.
  - subst running. simpl. rewrite Z.eqb_refl.
    assert (safe = first) as -> by congruence.
    exists h. split; [done|]. split; [apply relinked_refl|].
    split; [intros x Hx; by apply elem_of_nil in Hx|done].
  - destruct Hpath as [-> (n & Hn & Hpath)].
    assert (safe = n) as -> by congruence.
    apply NoDup_cons in Hnd as [Hx Hnd].
    apply not_elem_of_cons in Hnin as [Hne Hnin].
    assert (is_node h x) as Hnode by eauto with heap.
    destruct (proj1 (is_node_prv h x) Hnode) as [p Hp].
    assert (n ≠ x) as Hnx.
    { intros ->. pose proof (path_head _ _ _ _ Hpath) as E.
      destruct rest; simpl in E; [done|]. subst. apply Hx. by left. }
    set (h1 := upd_next x p h). set (h2 := upd_prev x n h1).
    assert (∀ y, y ≠ x → nxt h2 y = nxt h y) as Hnxt.
    { intros y Hy. unfold h2, h1.
      by rewrite nxt_upd_prev, nxt_upd_next_ne. }
    assert (is_Some (nxt h n)) as [n' Hn'].
    { pose proof (path_head _ _ _ _ Hpath) as E. destruct rest; simpl in E.
      - subst n. by eexists.
      - subst n. eapply path_defined; [apply Hpath|by left]. }
    destruct (IH h2 head n n' first fuel) as (h' & Hrun & Hrel & Hin & Hout).
    { rewrite Hnxt; [done|done]. }
    { eapply path_ext; [|apply Hpath]. intros y Hy. symmetry. apply Hnxt.
      intros ->. done. }
    { by rewrite Hnxt. }
    { done. } { done. } { simpl in Hfuel. lia. }
    exists h'. split; [|split; [|split]].
    + simpl. rewrite eqb_ne by done. unfold flip_node.
      do 3 mstep. fold h1 h2. erewrite bind_ok; [exact Hrun|].
      apply load_next_ok. by rewrite Hnxt.
    + eapply relinked_trans; [|apply Hrel].
      eapply relinked_trans; [apply relinked_upd_next|apply relinked_upd_prev].
    + intros y [->|Hy]%elem_of_cons.
      * destruct (Hout x Hx) as [-> ->]. unfold h2, h1.
        rewrite nxt_upd_prev, nxt_upd_next_eq by done.
        rewrite prv_upd_prev_eq by eauto with heap. done.
      * destruct (Hin y Hy) as [-> ->]. unfold h2, h1.
        assert (x ≠ y) by (intros ->; done).
        rewrite prv_upd_prev_ne, prv_upd_next by done.
        rewrite nxt_upd_prev, nxt_upd_next_ne by done. done.
    + intros y [Hy1 Hy2]%not_elem_of_cons.
      destruct (Hout y Hy2) as [-> ->]. unfold h2, h1.
      rewrite prv_upd_prev_ne, prv_upd_next by done.
      rewrite nxt_upd_prev, nxt_upd_next_ne by done. done.
Qed.

Lemma q_reverse_spec h head l fuel :
  is_queue h head l → (length l < fuel)%nat →
  ∃ h', q_reverse fuel head h = Ok tt h' ∧
        relinked h h' ∧
        (∀ x, x ∈ head :: l → nxt h' x = prv h x ∧ prv h' x = nxt h x) ∧
        (∀ y, y ∉ head :: l → nxt h' y = nxt h y ∧ prv h' y = prv h y).
Proof.
  intros Hq Hfuel.
  pose proof (is_queue_next _ _ _ Hq) as Hfirst.
  pose proof (is_queue_prev _ _ _ Hq) as Hlast.
  set (first := hd head l) in *. set (last := hd head (reverse l)) in *.
  assert (first ∈ head :: l) as Hin.
  { unfold first. destruct l; simpl; [by left|right; by left]. }
  pose proof (is_queue_nodes _ _ _ _ Hq Hin) as Hnode.
  destruct (proj1 (is_node_nxt _ _) Hnode) as [safe Hsafe].
  destruct Hq as (Hnd & [_ (n & Hn & Hpath)] & _).
  assert (n = first) as -> by congruence.
  apply NoDup_cons in Hnd as [Hhead Hnd].
  destruct (q_reverse_loop_spec l h head first safe first fuel)
    as (h1 & Hrun & Hrel & Hins & Hout); try done.
  destruct (Hout head Hhead) as [Hn1 Hp1].
  assert (is_node h1 head) as Hnode1.
  { apply is_node_nxt. rewrite Hn1. by eexists. }
  set (h2 := upd_next head last h1). set (h3 := upd_prev head first h2).
  exists h3. split; [|split; [|split]].
  - unfold q_reverse. mstep.
    rewrite eqb_ne by (by apply is_node_not_null in Hnode).
    do 2 mstep. erewrite bind_ok; [|exact Hrun]. simpl. unfold flip_node.
    erewrite bind_ok; [|apply load_prev_ok; by rewrite Hp1].
    mstep. by apply store_prev_ok, is_node_upd_next.
  - eapply relinked_trans; [apply Hrel|].
    eapply relinked_trans; [apply relinked_upd_next|apply relinked_upd_prev].
  - intros x [->|Hx]%elem_of_cons; unfold h3, h2.
    + rewrite nxt_upd_prev, nxt_upd_next_eq by done.
      rewrite prv_upd_prev_eq by (by apply is_node_upd_next). done.
    + assert (head ≠ x) by (intros ->; done).
      rewrite nxt_upd_prev, nxt_upd_next_ne by done.
      rewrite prv_upd_prev_ne, prv_upd_next by done. by apply Hins.
  - intros y [Hy1 Hy2]%not_elem_of_cons. unfold h3, h2.
    rewrite nxt_upd_prev, nxt_upd_next_ne by done.
    rewrite prv_upd_prev_ne, prv_upd_next by done. by apply Hout.
Qed.

Lemma reversed_is_queue h h' head l :
  is_queue h head l →
  (∀ x, x ∈ head :: l → nxt h' x = prv h x ∧ prv h' x = nxt h x) →
  is_queue h' head (reverse l).
Proof.
  intros (Hnd & Hf & Hb) Hsw. split; [|split].
  - apply NoDup_cons in Hnd as [Hhead Hnd]. apply NoDup_cons. split.
    + by rewrite elem_of_reverse.
    + by rewrite reverse_Permutation.
  - eapply path_ext; [|exact Hb]. intros x Hx. symmetry. apply Hsw.
    rewrite elem_of_cons in Hx. rewrite elem_of_reverse in Hx.
    by apply elem_of_cons.
  - rewrite reverse_involutive. eapply path_ext; [|exact Hf].
    intros x Hx. symmetry. by apply Hsw.
Qed.

(** ** Lexical order and [strcmp] *)

Section Strings.

Implicit Types a b : list Z.

Lemma lex_le_refl a : lex_le a a.
Proof. induction a; simpl; auto. Qed.

Lemma lex_le_trans a b (c : list Z) : lex_le a b → lex_le b c → lex_le a c.
Proof.
  revert b c. induction a as [|x a IH]; intros [|y b] [|z c]; simpl; try done.
  intros [?|[-> ?]] [?|[-> ?]]; try (left; lia); eauto.
Qed.

Lemma lex_le_antisym a b : lex_le a b → lex_le b a → a = b.
Proof.
  revert b. induction a as [|x a IH]; intros [|y b]; simpl; try done.
  intros [?|[-> ?]] [?|[? ?]]; try lia. f_equal. eauto.
Qed.

Lemma lex_le_total a b : lex_le a b ∨ lex_le b a.
Proof.
  revert b. induction a as [|x a IH]; intros [|y b]; simpl; auto.
  destruct (Z.lt_trichotomy x y) as [?|[->|?]]; auto.
  destruct (IH b); auto.
Qed.

Lemma lex_lt_le a b : lex_lt a b → lex_le a b.
Proof. by intros []. Qed.

Lemma not_lex_lt a b : ¬ lex_lt a b → lex_le b a.
Proof.
  intros H. destruct (lex_le_total a b) as [Hab|]; [|done].
  destruct (decide (a = b)) as [->|]; [apply lex_le_refl|].
  destruct H. by split.
Qed.

Lemma lex_lt_cons x a b : lex_lt (x :: a) (x :: b) ↔ lex_lt a b.
Proof.
  unfold lex_lt. simpl. split.
  - intros [[?|[_ ?]] Hne]; [lia|]. split; [done|congruence].
  - intros [? Hne]. split; [auto|congruence].
Qed.

Lemma strlen_bytes_cons x a n :
  strlen_bytes (x :: a) = Some n → x ≠ 0 → is_Some (strlen_bytes a).
Proof.
  simpl. intros H Hx. rewrite eqb_ne in H by done.
  destruct (strlen_bytes a); [by eexists|done].
Qed.

(** [strcmp] decides the lexical order of two terminated strings. *)
Lemma strcmp_bytes_spec a b :
  Forall (λ c, 0 ≤ c < 256) a → Forall (λ c, 0 ≤ c < 256) b →
  is_Some (strlen_bytes a) → is_Some (strlen_bytes b) →
  ∃ c, strcmp_bytes a b = Some c ∧
       (c < 0 ↔ lex_lt (cstr a) (cstr b)) ∧
       (c = 0 ↔ cstr a = cstr b).
Proof.
  revert b. induction a as [|x a IH]; intros [|y b] Ha Hb [n Hn] [m Hm];
    try done.
  apply Forall_cons in Ha as [Hx Ha]. apply Forall_cons in Hb as [Hy Hb].
  simpl. destruct (Z.eqb_spec x y) as [<-|Hxy].
  - destruct (Z.eqb_spec x 0) as [->|Hx0].
    + exists 0. split; [done|]. unfold lex_lt. split; [|done].
      split; [lia|]. by intros [].
    + destruct (IH b) as (c & -> & H1 & H2);
        eauto using strlen_bytes_cons.
      exists c. split; [done|]. rewrite lex_lt_cons. split; [done|].
      rewrite H2. split; [congruence|]. by intros [=].
  - exists (x - y). split; [done|].
    destruct (Z.eqb_spec x 0) as [->|Hx0];
      destruct (Z.eqb_spec y 0) as [->|Hy0]; unfold lex_lt; simpl.
    + done.
    + split; [|split; [lia|done]]. split; [done|lia].
    + split; [|split; [lia|done]]. split; [lia|]. by intros [].
    + split.
      * split; [intros ?; split; [left; lia|congruence]|].
        intros [[?|[? ?]] ?]; [lia|done].
      * split; [lia|]. congruence.
Qed.

End Strings.

(** ** Pointers to the first byte of a buffer *)

Lemma block_below_start (m : gmap Z cell) p c k :
  m !! p = Some c → block_below m p k = Some (p, c).
Proof. intros H. destruct k; simpl; by rewrite H. Qed.

Lemma buffer_at_start (m : gmap Z cell) p bs :
  chars_at m p = Some bs → buffer_at m p = Some (p, 0%nat, bs).
Proof.
  unfold chars_at, buffer_at. case_decide; [done|].
  destruct (m !! p) as [[| |bs']|] eqn:E; try done. intros [= ->].
  rewrite (block_below_start _ _ _ _ E), Z.sub_diag.
  by destruct (Z.leb_spec 0 (Z.of_nat (length bs))); [|lia].
Qed.

Lemma strlen_ok h s bs n :
  chars_at (cells h) s = Some bs → strlen_bytes bs = Some n →
  strlen s h = Ok n h.
Proof.
  intros Hs Hn. unfold strlen. rewrite (buffer_at_start _ _ _ Hs), drop_0.
  by rewrite Hn.
Qed.

Lemma strncpy_ok h dst src n d s w :
  chars_at (cells h) dst = Some d → chars_at (cells h) src = Some s →
  dst ≠ src → 0 ≤ n ≤ Z.of_nat (length d) →
  strncpy_bytes (Z.to_nat n) s = Some w →
  strncpy dst src n h
  = Ok dst (set_cells h (<[dst := CChars (w ++ drop (Z.to_nat n) d)]> (cells h))).
Proof.
  intros Hd Hs Hne Hn Hw. unfold strncpy, overlaps.
  rewrite (buffer_at_start _ _ _ Hd), (buffer_at_start _ _ _ Hs), drop_0.
  cbv zeta. rewrite (proj2 (Z.leb_le _ _)) by lia.
  rewrite (proj2 (Z.eqb_neq dst src)) by done. simpl. by rewrite Hw.
Qed.

Lemma store_char_ok h b i c bs :
  chars_at (cells h) b = Some bs → 0 ≤ i < Z.of_nat (length bs) →
  store_char b i c h
  = Ok tt (set_cells h (<[b := CChars (<[Z.to_nat i := c]> bs)]> (cells h))).
Proof.
  intros Hb Hi. unfold store_char. rewrite (buffer_at_start _ _ _ Hb). simpl.
  rewrite (proj2 (Z.leb_le 0 i)), (proj2 (Z.ltb_lt i _)) by lia. done.
Qed.

Lemma strcmp_spec h x y :
  has_string h x → has_string h y →
  ∃ vx vy c, elem_at (cells h) (list_entry x) = Some vx ∧
             elem_at (cells h) (list_entry y) = Some vy ∧
             strcmp vx vy h = Ok c h ∧
             (c < 0 ↔ val_lt h x y) ∧
             (c = 0 ↔ value_of h x = value_of h y).
Proof.
  intros (vx & bx & nx & Ex & Cx & Lx & Bx) (vy & by' & ny & Ey & Cy & Ly & By).
  destruct (strcmp_bytes_spec bx by') as (c & Hc & H1 & H2); try done.
  exists vx, vy, c. unfold strcmp, val_lt, value_of.
  rewrite (buffer_at_start _ _ _ Cx), (buffer_at_start _ _ _ Cy), !drop_0.
  by rewrite Ex, Ey, Cx, Cy, Hc.
Qed.

(** ** Surgery on paths *)

Ltac heap_node :=
  rewrite ?is_node_upd_next, ?is_node_upd_prev; eauto with heap.

(** Rewriting the views of a heap after a sequence of stores. *)
Ltac heap_rw :=
  repeat first
    [ rewrite nxt_upd_prev
    | rewrite prv_upd_next
    | rewrite nxt_upd_next_eq by heap_node
    | rewrite prv_upd_prev_eq by heap_node
    | rewrite nxt_upd_next_ne by congruence
    | rewrite prv_upd_prev_ne by congruence ].

Ltac mload :=
  rewrite ?bind_assoc;
  erewrite bind_ok;
    [|first [apply load_next_ok | apply load_prev_ok]; heap_rw;
      first [eassumption | reflexivity]];
  cbv beta.

Ltac mstore :=
  rewrite ?bind_assoc;
  erewrite bind_ok;
    [|first [apply store_next_ok | apply store_prev_ok]; heap_node];
  cbv beta.

Lemma snoc_hd (head : Z) (r : list Z) :
  ∃ l1, head :: reverse r = l1 ++ [hd head r].
Proof.
  destruct r as [|x r]; simpl.
  - by exists [].
  - exists (head :: reverse r). by rewrite reverse_cons.
Qed.

Lemma snoc_last (head : Z) (r : list Z) :
  ∃ l1, head :: r = l1 ++ [hd head (reverse r)].
Proof.
  destruct (snoc_hd head (reverse r)) as [l1 E].
  rewrite reverse_involutive in E. by exists l1.
Qed.

Section Surgery.

Variables f f' : Z → option Z.

(** Exchanging two neighbours [A] and [B] that follow [P]. *)
Lemma path_swap l1 P A B l2 s e :
  NoDup (l1 ++ P :: A :: B :: l2) →
  path f s (l1 ++ P :: A :: B :: l2) e →
  f' P = Some B → f' B = Some A → f' A = f B →
  (∀ y, y ≠ P → y ≠ A → y ≠ B → f' y = f y) →
  path f' s (l1 ++ P :: B :: A :: l2) e.
Proof.
  intros Hnd Hp HP HB HA Hout.
  apply NoDup_app in Hnd as (_ & Hl1 & Hnd).
  apply NoDup_cons in Hnd as [HPn Hnd].
  apply NoDup_cons in Hnd as [HAn Hnd].
  apply NoDup_cons in Hnd as [HBn Hnd].
  apply path_app in Hp as (r & H1 & -> & n1 & Hn1 & -> & n2 & Hn2 & -> & n3 & Hn3 & H2).
  apply path_app. exists P. split.
  - eapply path_ext; [|exact H1]. intros y Hy. symmetry.
    specialize (Hl1 y Hy). apply Hout; intros ->; apply Hl1; set_solver.
  - split; [done|]. exists B. split; [done|]. split; [done|].
    exists A. split; [done|]. split; [done|].
    exists n3. split; [congruence|].
    eapply path_ext; [|exact H2]. intros y Hy. symmetry.
    apply Hout; intros ->; set_solver.
Qed.

(** Unlinking the node [X] that follows [P]. *)
Lemma path_del l1 P X l2 s e :
  NoDup (l1 ++ P :: X :: l2) →
  path f s (l1 ++ P :: X :: l2) e →
  f' P = f X →
  (∀ y, y ≠ P → y ≠ X → f' y = f y) →
  path f' s (l1 ++ P :: l2) e.
Proof.
  intros Hnd Hp HP Hout.
  apply NoDup_app in Hnd as (_ & Hl1 & Hnd).
  apply NoDup_cons in Hnd as [HPn Hnd].
  apply NoDup_cons in Hnd as [HXn Hnd].
  apply path_app in Hp as (r & H1 & -> & n1 & Hn1 & -> & n2 & Hn2 & H2).
  apply path_app. exists P. split.
  - eapply path_ext; [|exact H1]. intros y Hy. symmetry.
    specialize (Hl1 y Hy). apply Hout; intros ->; apply Hl1; set_solver.
  - split; [done|]. exists n2. split; [congruence|].
    eapply path_ext; [|exact H2]. intros y Hy. symmetry.
    apply Hout; intros ->; set_solver.
Qed.

(** Linking a new node [X] after [P]. *)
Lemma path_ins l1 P X l2 s e :
  NoDup (l1 ++ P :: X :: l2) →
  path f s (l1 ++ P :: l2) e →
  f' P = Some X → f' X = f P →
  (∀ y, y ≠ P → y ≠ X → f' y = f y) →
  path f' s (l1 ++ P :: X :: l2) e.
Proof.
  intros Hnd Hp HP HX Hout.
  apply NoDup_app in Hnd as (_ & Hl1 & Hnd).
  apply NoDup_cons in Hnd as [HPn Hnd].
  apply NoDup_cons in Hnd as [HXn Hnd].
  apply path_app in Hp as (r & H1 & -> & n1 & Hn1 & H2).
  apply path_app. exists P. split.
  - eapply path_ext; [|exact H1]. intros y Hy. symmetry.
    specialize (Hl1 y Hy). apply Hout; intros ->; apply Hl1; set_solver.
  - split; [done|]. exists X. split; [done|]. split; [done|].
    exists n1. split; [congruence|].
    eapply path_ext; [|exact H2]. intros y Hy. symmetry.
    apply Hout; intros ->; set_solver.
Qed.

End Surgery.

(** ** [q_swap] *)

Lemma NoDup_cons_perm (head : Z) (l l' : list Z) :
  NoDup (head :: l) → l ≡ₚ l' → NoDup (head :: l').
Proof. intros H Hp. by rewrite <- Hp. Qed.

(** One iteration of the loop of [q_swap]: the pair [A], [B] that follows
    the nodes [done] is exchanged. *)
Lemma q_swap_step h head done A B rest fuel :
  is_queue h head (done ++ A :: B :: rest) →
  ∃ h', q_swap_loop (S fuel) head A h = q_swap_loop fuel head (hd head rest) h' ∧
        is_queue h' head (done ++ B :: A :: rest) ∧
        relinked h h'.
Proof.
  intros (Hnd & Hf & Hb).
  destruct (snoc_last head done) as [l1 HP].
  destruct (snoc_hd head rest) as [l1' HN].
  set (P := hd head (reverse done)) in *. set (N := hd head rest) in *.
  assert (head :: done ++ A :: B :: rest = l1 ++ P :: A :: B :: rest) as E1.
  { by rewrite app_comm_cons, HP, <- app_assoc. }
  assert (head :: reverse (done ++ A :: B :: rest)
          = l1' ++ N :: B :: A :: reverse done) as E2.
  { rewrite reverse_app, !reverse_cons, <- !app_assoc, app_comm_cons, HN.
    by rewrite <- app_assoc. }
  assert (head :: done ++ B :: A :: rest = l1 ++ P :: B :: A :: rest) as E3.
  { by rewrite app_comm_cons, HP, <- app_assoc. }
  assert (head :: reverse (done ++ B :: A :: rest)
          = l1' ++ N :: A :: B :: reverse done) as E4.
  { rewrite reverse_app, !reverse_cons, <- !app_assoc, app_comm_cons, HN.
    by rewrite <- app_assoc. }
  assert (NoDup (head :: reverse (done ++ A :: B :: rest))) as Hnd'.
  { eapply NoDup_cons_perm; [exact Hnd|]. by rewrite reverse_Permutation. }
  assert (A ≠ head ∧ B ≠ head) as [HAh HBh].
  { apply NoDup_cons in Hnd as [Hh _].
    split; intros ->; apply Hh; rewrite elem_of_app, !elem_of_cons; auto. }
  pose proof Hnd as Hnd0.
  rewrite E1 in Hf, Hnd. rewrite E2 in Hb, Hnd'.
  pose proof Hf as Hf0. pose proof Hb as Hb0.
  apply path_app in Hf0
    as (? & _ & -> & ? & HnP & -> & ? & HnA & -> & n3 & HnB & Hrest).
  apply path_head in Hrest. fold N in Hrest. subst n3.
  apply path_app in Hb0
    as (? & _ & -> & ? & HpN & -> & ? & HpB & -> & n3 & HpA & Hdone).
  apply path_head in Hdone. fold P in Hdone. subst n3.
  pose proof Hnd as Hd. pose proof Hnd' as Hd'.
  apply NoDup_app in Hd as (_ & _ & Hd).
  apply NoDup_cons in Hd as [HPn Hd]. apply NoDup_cons in Hd as [HAn _].
  apply NoDup_app in Hd' as (_ & _ & Hd').
  apply NoDup_cons in Hd' as [HNn _].
  assert (P ≠ A) by set_solver. assert (P ≠ B) by set_solver.
  assert (A ≠ B) by set_solver. assert (N ≠ A) by set_solver.
  assert (N ≠ B) by set_solver.
  assert (is_node h P) by eauto with heap.
  assert (is_node h A) by eauto with heap.
  assert (is_node h B) by eauto with heap.
  assert (is_node h N) by eauto with heap.
  set (h' := upd_prev A B (upd_next B A (upd_next P B (upd_prev B P
               (upd_prev N A (upd_next A N h)))))).
  exists h'. split; [|split].
  - simpl. rewrite (eqb_ne A head) by done. mload.
    rewrite (eqb_ne B head) by done. mload. mload. mstore. mload. mstore. mload. mstore. mload. mstore.
    mstore. mstore. mload. done.
  - split; [|split].
    + eapply NoDup_cons_perm; [exact Hnd0|].
      apply Permutation_app_head, perm_swap.
    + rewrite E3. eapply path_swap; [exact Hnd|exact Hf|..]; unfold h'.
      * by heap_rw.
      * by heap_rw.
      * heap_rw. congruence.
      * intros y ???. by heap_rw.
    + rewrite E4. eapply path_swap; [exact Hnd'|exact Hb|..]; unfold h'.
      * by heap_rw.
      * by heap_rw.
      * heap_rw. congruence.
      * intros y ???. by heap_rw.
  - unfold h'. repeat (eapply relinked_trans;
      [|first [apply relinked_upd_next | apply relinked_upd_prev]]).
    apply relinked_refl.
Qed.

Lemma pair_ind (P : list Z → Prop) :
  P [] → (∀ a, P [a]) → (∀ a b l, P l → P (a :: b :: l)) → ∀ l, P l.
Proof.
  intros H0 H1 H2 l. cut (P l ∧ ∀ a, P (a :: l)); [by intros []|].
  induction l as [|b l [IH1 IH2]]; [auto|]. split; [apply IH2|].
  intros a. by apply H2.
Qed.

Lemma q_swap_loop_spec rest : ∀ done h head fuel,
  is_queue h head (done ++ rest) → (length rest < fuel)%nat →
  ∃ h', q_swap_loop fuel head (hd head rest) h = Ok tt h' ∧
        is_queue h' head (done ++ swap_pairs rest) ∧
        relinked h h'.
Proof.
  induction rest as [|a|a b rest IH] using pair_ind;
    intros done h head fuel Hq Hfuel;
    (destruct fuel as [|fuel]; [simpl in Hfuel; lia|]).
  - exists h. simpl. rewrite Z.eqb_refl.
    split; [done|]. split; [done|apply relinked_refl].
  - exists h. split; [|split; [done|apply relinked_refl]].
    destruct Hq as (Hnd & Hf & _).
    assert (a ≠ head) as Hne.
    { apply NoDup_cons in Hnd as [Hh _]. intros ->. apply Hh.
      rewrite elem_of_app, list_elem_of_singleton. auto. }
    rewrite app_comm_cons in Hf. apply path_snoc in Hf as [_ Hf].
    simpl. rewrite eqb_ne by done. mload. by rewrite Z.eqb_refl.
  - destruct (q_swap_step h head done a b rest fuel Hq) as (h1 & Hrun & Hq1 & Hrel1).
    destruct (IH (done ++ [b; a]) h1 head fuel) as (h2 & Hrun2 & Hq2 & Hrel2).
    { by rewrite <- app_assoc. }
    { simpl in Hfuel. lia. }
    exists h2. split; [|split].
    + change (hd head (a :: b :: rest)) with a. by rewrite Hrun.
    + rewrite <- app_assoc in Hq2. exact Hq2.
    + by eapply relinked_trans.
Qed.

Lemma q_swap_spec h head l fuel :
  is_queue h head l → (length l < fuel)%nat →
  ∃ h', q_swap fuel head h = Ok tt h' ∧
        is_queue h' head (swap_pairs l) ∧
        relinked h h'.
Proof.
  intros Hq Hfuel.
  destruct (q_swap_loop_spec l [] h head fuel Hq Hfuel) as (h' & Hrun & ?).
  exists h'. split; [|done]. unfold q_swap.
  erewrite bind_ok; [exact Hrun|]. apply load_next_ok.
  by apply is_queue_next.
Qed.

(** ** [merge] *)

Lemma val_lt_relinked h0 h x y : relinked h0 h → val_lt h x y ↔ val_lt h0 x y.
Proof.
  intros H. unfold val_lt. by rewrite !(relinked_value_of _ _ _ H).
Qed.

Lemma store_slot_spec h nh ptr v :
  match ptr with NewHead => True | NextOf p => is_node h p end →
  ∃ h' nh', store_slot nh ptr v h = Ok nh' h' ∧
    relinked h h' ∧
    (∀ y, prv h' y = prv h y) ∧
    (∀ y, ptr ≠ NextOf y → nxt h' y = nxt h y) ∧
    load_slot nh' ptr h' = Ok v h' ∧
    match ptr with
    | NewHead => nh' = v
    | NextOf p => nh' = nh ∧ nxt h' p = Some v
    end.
Proof.
  destruct ptr as [|p]; simpl; intros Hp.
  - exists h, v. unfold ret. split; [done|]. split; [apply relinked_refl|done].
  - exists (upd_next p v h), nh. split; [by mstore|].
    split; [apply relinked_upd_next|]. split; [intros y; by heap_rw|].
    split; [intros y Hy; heap_rw; done|].
    split; [apply load_next_ok; by heap_rw|]. split; [done|by heap_rw].
Qed.

(** The end of [merge]: the remainder [l] of one chain is stored in the
    slot. *)
Lemma merge_finish h nh ptr v l :
  path (nxt h) v l 0 →
  match ptr with
  | NewHead => True
  | NextOf p => is_node h p ∧ p ∉ l
  end →
  ∃ h' nh', store_slot nh ptr v h = Ok nh' h' ∧
    path (nxt h') (hd 0 l) l 0 ∧
    relinked h h' ∧
    (∀ y, prv h' y = prv h y) ∧
    (∀ y, ptr ≠ NextOf y → nxt h' y = nxt h y) ∧
    match ptr with
    | NewHead => nh' = hd 0 l
    | NextOf p => nh' = nh ∧ nxt h' p = Some (hd 0 l)
    end.
Proof.
  intros Hp Hslot. pose proof (path_head _ _ _ _ Hp) as ->.
  destruct (store_slot_spec h nh ptr (hd 0 l))
    as (h' & nh' & Hrun & Hrel' & Hprv & Hnxt & _ & Hres).
  { destruct ptr; [done|]. by destruct Hslot. }
  exists h', nh'. split; [done|]. split; [|done].
  eapply path_ext; [|exact Hp]. intros z Hz. symmetry. apply Hnxt.
  destruct ptr as [|p]; [done|]. intros [= ->]. by destruct Hslot.
Qed.

Lemma merge_loop_spec h0 : ∀ n l1 l2 h nh ptr p1 p2 fuel,
  (length l1 + length l2 ≤ n)%nat → (n < fuel)%nat →
  relinked h0 h →
  path (nxt h) p1 l1 0 → path (nxt h) p2 l2 0 → NoDup (l1 ++ l2) →
  (∀ x, x ∈ l1 ++ l2 → has_string h0 x) →
  match ptr with
  | NewHead => True
  | NextOf p => is_node h p ∧ p ∉ l1 ++ l2
  end →
  ∃ h' nh', merge_loop fuel nh ptr p1 p2 h = Ok nh' h' ∧
    let r := list_merge (val_lt h0) l1 l2 in
    path (nxt h') (hd 0 r) r 0 ∧
    relinked h h' ∧
    (∀ y, prv h' y = prv h y) ∧
    (∀ y, y ∉ l1 ++ l2 → ptr ≠ NextOf y → nxt h' y = nxt h y) ∧
    match ptr with
    | NewHead => nh' = hd 0 r
    | NextOf p => nh' = nh ∧ nxt h' p = Some (hd 0 r)
    end.
Proof.
  induction n as [|n IH];
    intros l1 l2 h nh ptr p1 p2 fuel Hlen Hfuel Hrel H1 H2 Hnd Hstr Hslot;
    (destruct fuel as [|fuel]; [lia|]).
  all: destruct l1 as [|x l1]; [|destruct l2 as [|y l2]];
    try (simpl in Hlen; lia).
  (* one chain is exhausted: the remainder of the other is appended *)
  1,2: simpl in H1; subst p1; rewrite list_merge_nil_l;
       cbn [merge_loop negb andb Z.eqb]; rewrite Z.lor_0_l;
       destruct (merge_finish h nh ptr p2 l2 H2 Hslot)
         as (h' & nh' & Hrun & ? & ? & ? & ? & ?);
       exists h', nh'; repeat (split; [done|]); auto.
  { simpl in H2; subst p2; rewrite list_merge_nil_r.
    assert (negb (p1 =? 0) && negb (0 =? 0) = false) as Hc
      by (by rewrite andb_false_r).
    cbn [merge_loop]. rewrite Hc, Z.lor_0_r. rewrite app_nil_r in Hslot.
    destruct (merge_finish h nh ptr p1 (x :: l1) H1 Hslot)
      as (h' & nh' & Hrun & ? & ? & ? & ? & ?).
    exists h', nh'. repeat (split; [done|]). auto. }
  (* both chains are non-empty *)
  destruct H1 as [-> (n1 & Hn1 & H1)]. destruct H2 as [-> (n2 & Hn2 & H2)].
  assert (has_string h x ∧ has_string h y) as [Hsx Hsy].
  { split; eapply relinked_has_string; try exact Hrel; apply Hstr;
      rewrite elem_of_app, !elem_of_cons; auto. }
  destruct (strcmp_spec h x y Hsx Hsy) as (vx & vy & c & Ex & Ey & Hcmp & Hlt & _).
  rewrite (val_lt_relinked _ _ _ _ Hrel) in Hlt.
  assert (x ≠ 0 ∧ y ≠ 0) as [Hx0 Hy0].
  { split; apply (is_node_not_null h); eauto with heap. }
  assert (match ptr with NewHead => True | NextOf p => is_node h p end) as Hslot'.
  { destruct ptr; naive_solver. }
  assert (ptr ≠ NextOf x ∧ ptr ≠ NextOf y) as [Hpx Hpy].
  { destruct ptr as [|p]; [done|]. destruct Hslot as [_ Hp].
    split; intros [= ->]; apply Hp; rewrite elem_of_app, !elem_of_cons; auto. }
  pose proof Hnd as Hnd0.
  apply NoDup_app in Hnd as (Hnd1 & Hdisj & Hnd2).
  apply NoDup_cons in Hnd1 as [Hx1 Hnd1]. apply NoDup_cons in Hnd2 as [Hy2 Hnd2].
  cbn [merge_loop]. rewrite !eqb_ne by done. cbn [negb andb].
  erewrite bind_ok; [|by apply load_value_ok].
  erewrite bind_ok; [|by apply load_value_ok].
  erewrite bind_ok; [|exact Hcmp]. cbv beta.
  rewrite list_merge_cons.
  destruct (Z.ltb_spec c 0) as [Hc|Hc].
  - (* the first chain gives its head *)
    rewrite decide_True by (by apply Hlt).
    destruct (store_slot_spec h nh ptr x Hslot')
      as (h1 & nh1 & Hrun1 & Hrel1 & Hprv1 & Hnxt1 & Hload1 & Hres1).
    destruct (IH l1 (y :: l2) h1 nh1 (NextOf x) n1 y fuel)
      as (h' & nh' & Hrun & Hpath & Hrel' & Hprv & Hnxt & -> & Hres).
    { simpl in *. lia. } { lia. } { by eapply relinked_trans. }
    { eapply path_ext; [|exact H1]. intros z Hz. symmetry. apply Hnxt1.
      destruct ptr as [|p]; [done|intros [= ->]]. destruct Hslot as [_ Hp].
      apply Hp. rewrite elem_of_app, !elem_of_cons. auto. }
    { split; [done|]. exists n2. rewrite Hnxt1 by done. split; [done|].
      eapply path_ext; [|exact H2]. intros z Hz. symmetry. apply Hnxt1.
      destruct ptr as [|p]; [done|intros [= ->]]. destruct Hslot as [_ Hp].
      apply Hp. rewrite elem_of_app, !elem_of_cons. auto. }
    { apply NoDup_app. split; [done|]. split; [|by apply NoDup_cons].
      intros z Hz. apply Hdisj. by right. }
    { intros z Hz. apply Hstr. rewrite elem_of_app in Hz.
      rewrite elem_of_app, !elem_of_cons in *. naive_solver. }
    { split; [eapply relinked_is_node; [exact Hrel1|eauto with heap]|].
      rewrite elem_of_app. intros [?|?]; [done|]. eapply Hdisj; [by left|done]. }
    exists h', nh1. split; [|split; [|split; [|split; [|split]]]].
    + erewrite bind_ok; [|exact Hrun1].
      erewrite bind_ok; [|apply load_next_ok; rewrite Hnxt1 by done; exact Hn1].
      erewrite bind_ok; [|exact Hload1]. exact Hrun.
    + simpl. split; [done|]. eexists. split; [exact Hres|exact Hpath].
    + by eapply relinked_trans.
    + intros z. by rewrite Hprv, Hprv1.
    + intros z Hz Hpz. rewrite Hnxt, Hnxt1; [done|done| |].
      * intros Hz'. apply Hz. rewrite elem_of_app in *.
        rewrite !elem_of_cons in *. naive_solver.
      * intros [= ->]. apply Hz. rewrite elem_of_app, !elem_of_cons. auto.
    + destruct ptr as [|p]; simpl; [done|]. destruct Hres1 as [-> Hp1].
      split; [done|]. rewrite Hnxt; [done| |].
      * destruct Hslot as [_ Hp]. intros Hz'. apply Hp.
        rewrite elem_of_app in *. rewrite !elem_of_cons in *. naive_solver.
      * intros [= ->]. done.
  - (* the second chain gives its head *)
    rewrite decide_False by (rewrite <- Hlt; lia).
    destruct (store_slot_spec h nh ptr y Hslot')
      as (h1 & nh1 & Hrun1 & Hrel1 & Hprv1 & Hnxt1 & Hload1 & Hres1).
    destruct (IH (x :: l1) l2 h1 nh1 (NextOf y) x n2 fuel)
      as (h' & nh' & Hrun & Hpath & Hrel' & Hprv & Hnxt & -> & Hres).
    { simpl in *. lia. } { lia. } { by eapply relinked_trans. }
    { split; [done|]. exists n1. rewrite Hnxt1 by done. split; [done|].
      eapply path_ext; [|exact H1]. intros z Hz. symmetry. apply Hnxt1.
      destruct ptr as [|p]; [done|intros [= ->]]. destruct Hslot as [_ Hp].
      apply Hp. rewrite elem_of_app, !elem_of_cons. auto. }
    { eapply path_ext; [|exact H2]. intros z Hz. symmetry. apply Hnxt1.
      destruct ptr as [|p]; [done|intros [= ->]]. destruct Hslot as [_ Hp].
      apply Hp. rewrite elem_of_app, !elem_of_cons. auto. }
    { apply NoDup_app. split; [by apply NoDup_cons|]. split; [|done].
      intros z Hz Hz'. eapply Hdisj; [exact Hz|by right]. }
    { intros z Hz. apply Hstr. rewrite elem_of_app in Hz.
      rewrite elem_of_app, !elem_of_cons in *. naive_solver. }
    { split; [eapply relinked_is_node; [exact Hrel1|eauto with heap]|].
      rewrite elem_of_app. intros [Hz|?]; [|done].
      eapply Hdisj; [exact Hz|by left]. }
    exists h', nh1. split; [|split; [|split; [|split; [|split]]]].
    + erewrite bind_ok; [|exact Hrun1].
      erewrite bind_ok; [|apply load_next_ok; rewrite Hnxt1 by done; exact Hn2].
      erewrite bind_ok; [|exact Hload1]. exact Hrun.
    + simpl. split; [done|]. eexists. split; [exact Hres|exact Hpath].
    + by eapply relinked_trans.
    + intros z. by rewrite Hprv, Hprv1.
    + intros z Hz Hpz. rewrite Hnxt, Hnxt1; [done|done| |].
      * intros Hz'. apply Hz. rewrite elem_of_app in *.
        rewrite !elem_of_cons in *. naive_solver.
      * intros [= ->]. apply Hz. rewrite elem_of_app, !elem_of_cons. auto.
    + destruct ptr as [|p]; simpl; [done|]. destruct Hres1 as [-> Hp1].
      split; [done|]. rewrite Hnxt; [done| |].
      * destruct Hslot as [_ Hp]. intros Hz'. apply Hp.
        rewrite elem_of_app in *. rewrite !elem_of_cons in *. naive_solver.
      * intros [= ->]. done.
Qed.

Lemma merge_spec h0 h l1 l2 p1 p2 fuel :
  relinked h0 h →
  path (nxt h) p1 l1 0 → path (nxt h) p2 l2 0 → NoDup (l1 ++ l2) →
  (∀ x, x ∈ l1 ++ l2 → has_string h0 x) →
  (length l1 + length l2 < fuel)%nat →
  ∃ h', let r := list_merge (val_lt h0) l1 l2 in
    merge fuel p1 p2 h = Ok (hd 0 r) h' ∧
    path (nxt h') (hd 0 r) r 0 ∧
    relinked h h' ∧
    (∀ y, prv h' y = prv h y) ∧
    (∀ y, y ∉ l1 ++ l2 → nxt h' y = nxt h y).
Proof.
  intros Hrel0 H1 H2 Hnd Hstr Hfuel.
  destruct (merge_loop_spec h0 (length l1 + length l2) l1 l2 h NULL NewHead
              p1 p2 fuel) as (h' & nh' & Hrun & Hp & Hrel & Hprv & Hnxt & ->);
    try done.
  exists h'. unfold merge. repeat (split; [done|]). intros y Hy. by apply Hnxt.
Qed.

(** Merging two sorted chains gives a sorted chain. *)
Lemma HdRel_list_merge_any (R R' : relation Z) `{∀ x y, Decision (R x y)}
    x l1 l2 :
  HdRel R' x l1 → HdRel R' x l2 → HdRel R' x (list_merge R l1 l2).
Proof.
  destruct 1 as [|x1 l1 IH1], 1 as [|x2 l2 IH2];
    rewrite ?list_merge_cons; simpl; repeat case_decide; auto.
Qed.

Lemma Sorted_list_merge_val h l1 l2 :
  Sorted (val_le h) l1 → Sorted (val_le h) l2 →
  Sorted (val_le h) (list_merge (val_lt h) l1 l2).
Proof.
  intros Hl1. revert l2. induction Hl1 as [|x1 l1 ? IH1 ?];
    induction 1 as [|x2 l2 ? IH2 ?]; rewrite ?list_merge_cons; simpl;
    try case_decide; try (by constructor).
  - constructor; [by apply IH1; constructor|].
    apply HdRel_list_merge_any; [done|]. constructor. by apply lex_lt_le.
  - constructor; [apply IH2|].
    apply HdRel_list_merge_any; [|done]. constructor. by apply not_lex_lt.
Qed.

(** ** [merge_sort] *)

(** The walk that finds the middle stops at a node [m] with a non-empty
    remainder [lb]. *)
Lemma find_middle_spec h l : ∀ fuel la m lb ls second,
  l = la ++ m :: lb → lb ≠ [] → ls `suffix_of` lb →
  path (nxt h) m (m :: lb) 0 → path (nxt h) second ls 0 →
  (length ls < fuel)%nat →
  ∃ la' m' lb', l = la' ++ m' :: lb' ∧ lb' ≠ [] ∧
                find_middle fuel m second h = Ok m' h.
Proof.
  induction fuel as [|fuel IH]; intros la m lb ls second El Hlb Hsuf Hm Hs Hfuel;
    [lia|].
  destruct ls as [|z [|z2 ls]].
  - simpl in Hs. subst second. exists la, m, lb. by repeat split.
  - destruct Hs as [-> (n & Hn & ->)]. exists la, m, lb. repeat split; try done.
    simpl. rewrite eqb_ne by (apply (is_node_not_null h); eauto with heap).
    mload. done.
  - destruct Hs as [-> (n & Hn & -> & n2 & Hn2 & Hs)].
    destruct lb as [|b lb]; [done|].
    destruct Hm as [_ (? & Hnm & -> & nb & Hnb & Hb)].
    assert (lb ≠ [] ∧ ls `suffix_of` lb) as [Hlb' Hsuf'].
    { destruct Hsuf as [[|b' k] Hk]; simpl in Hk; injection Hk as -> ->.
      - split; [done|]. by exists [z2].
      - split; [by destruct k|]. exists (k ++ [z; z2]). by rewrite <- app_assoc. }
    destruct (IH (la ++ [m]) b lb ls n2) as (la' & m' & lb' & ? & ? & Hrun);
      try done.
    { by rewrite <- app_assoc. }
    { split; [done|]. eauto. }
    { simpl in Hfuel. lia. }
    exists la', m', lb'. repeat split; try done.
    simpl. rewrite eqb_ne by (apply (is_node_not_null h); eauto with heap).
    mload. rewrite eqb_ne by (apply (is_node_not_null h); eauto with heap).
    mload. mload. mload. done.
Qed.

Lemma merge_sort_spec h0 : ∀ n l h p fuel,
  (length l ≤ n)%nat → (length l + 2 ≤ fuel)%nat →
  relinked h0 h →
  NoDup l → path (nxt h) p l 0 →
  (∀ x, x ∈ l → has_string h0 x) →
  ∃ h' r, merge_sort fuel p h = Ok (hd 0 r) h' ∧
    path (nxt h') (hd 0 r) r 0 ∧
    r ≡ₚ l ∧
    Sorted (val_le h0) r ∧
    relinked h h' ∧
    (∀ y, prv h' y = prv h y) ∧
    (∀ y, y ∉ l → nxt h' y = nxt h y).
Proof.
  induction n as [|n IH]; intros l h p fuel Hlen Hfuel Hrel Hnd Hp Hstr;
    (destruct fuel as [|fuel]; [lia|]);
    (destruct l as [|x [|y l]]; [| |try (simpl in Hlen; lia)]).
  1,3: simpl in Hp; subst p; exists h, []; simpl;
       (split; [done|]); (split; [done|]); (split; [done|]);
       (split; [constructor|]); (split; [apply relinked_refl|done]).
  1,2: destruct Hp as [-> (? & Hn & ->)]; exists h, [x]; simpl;
       rewrite eqb_ne by (apply (is_node_not_null h); eauto with heap);
       mload; rewrite Z.eqb_refl;
       (split; [done|]); (split; [split; [done|eauto]|]); (split; [done|]);
       (split; [repeat constructor|]); (split; [apply relinked_refl|done]).
  pose proof Hp as Hp0.
  destruct Hp as [-> (? & Hnx & -> & ny & Hny & Hl)].
  assert (x ≠ 0 ∧ y ≠ 0) as [Hx0 Hy0].
  { split; apply (is_node_not_null h); eauto with heap. }
  destruct (find_middle_spec h (x :: y :: l) fuel [] x (y :: l) (y :: l) y)
    as (la & m & lb & El & Hlb & Hfind);
    [done|done|reflexivity|done|split; [done|eauto]|simpl in *; lia|].
  rewrite El in Hp0, Hnd, Hlen, Hfuel, Hstr |- *.
  apply path_app in Hp0 as (? & Hla & -> & mid & Hmid & Hlb').
  pose proof (path_head _ _ _ _ Hlb') as Emid.
  apply NoDup_app in Hnd as (Hnd1 & Hdisj & Hnd2).
  apply NoDup_cons in Hnd2 as [Hm2 Hnd2].
  assert (m ∉ la) as Hm1. { intros Hin. apply (Hdisj m Hin). by left. }
  assert (is_node h m) as Hnm by eauto with heap.
  set (h1 := upd_next m 0 h).
  assert (relinked h h1) as Hrel1 by apply relinked_upd_next.
  rewrite length_app in Hlen, Hfuel. simpl in Hlen, Hfuel.
  assert (length lb ≠ 0%nat) as Hlb0 by (by destruct lb).
  (* the first half *)
  destruct (IH (la ++ [m]) h1 x fuel)
    as (h2 & r1 & Hrun1 & Hp1 & Hperm1 & Hs1 & Hrel2 & Hprv2 & Hnxt2).
  { rewrite length_app. simpl. lia. }
  { rewrite length_app. simpl. lia. }
  { by eapply relinked_trans. }
  { apply NoDup_app. split; [done|]. split; [|apply NoDup_singleton].
    intros z Hz ->%list_elem_of_singleton. done. }
  { apply path_snoc. split.
    - eapply path_ext; [|exact Hla]. intros z Hz. unfold h1.
      rewrite nxt_upd_next_ne; [done|]. intros ->. done.
    - unfold h1. by heap_rw. }
  { intros z Hz. apply Hstr. rewrite elem_of_app in *.
    rewrite list_elem_of_singleton in Hz. rewrite elem_of_cons. naive_solver. }
  (* the second half *)
  destruct (IH lb h2 mid fuel)
    as (h3 & r2 & Hrun2 & Hp2 & Hperm2 & Hs2 & Hrel3 & Hprv3 & Hnxt3).
  { lia. } { lia. }
  { eapply relinked_trans; [|exact Hrel2]. by eapply relinked_trans. }
  { done. }
  { eapply path_ext; [|exact Hlb']. intros z Hz.
    rewrite Hnxt2.
    - unfold h1. rewrite nxt_upd_next_ne; [done|]. intros ->. done.
    - rewrite elem_of_app, list_elem_of_singleton. intros [Hz'| ->]; [|done].
      apply (Hdisj z Hz'). by right. }
  { intros z Hz. apply Hstr. rewrite elem_of_app, elem_of_cons. auto. }
  (* the merge *)
  assert (r1 ++ r2 ≡ₚ la ++ m :: lb) as Hperm.
  { rewrite Hperm1, Hperm2, <- app_assoc. done. }
  destruct (merge_spec h0 h3 r1 r2 (hd 0 r1) (hd 0 r2) fuel)
    as (h4 & Hrun3 & Hp3 & Hrel4 & Hprv4 & Hnxt4).
  { eapply relinked_trans; [|exact Hrel3].
    eapply relinked_trans; [|exact Hrel2]. by eapply relinked_trans. }
  { eapply path_ext; [|exact Hp1]. intros z Hz. rewrite Hnxt3; [done|].
    rewrite Hperm1, elem_of_app, list_elem_of_singleton in Hz.
    intros Hz'. destruct Hz as [Hz| ->]; [|done]. apply (Hdisj z Hz). by right. }
  { done. }
  { rewrite Hperm. apply NoDup_app. split; [done|]. split; [done|].
    by apply NoDup_cons. }
  { intros z Hz. apply Hstr. by rewrite <- Hperm. }
  { apply Permutation_length in Hperm. rewrite !length_app in Hperm.
    simpl in Hperm. lia. }
  exists h4, (list_merge (val_lt h0) r1 r2).
  split; [|split; [done|split; [|split; [|split; [|split]]]]].
  - cbn [merge_sort]. rewrite eqb_ne by done. mload.
    rewrite eqb_ne by done. mload.
    erewrite bind_ok; [|exact Hfind]. mload. mstore. fold h1.
    erewrite bind_ok; [|exact Hrun1].
    erewrite bind_ok; [|exact Hrun2]. exact Hrun3.
  - by rewrite merge_Permutation.
  - by apply Sorted_list_merge_val.
  - eapply relinked_trans; [|exact Hrel4].
    eapply relinked_trans; [|exact Hrel3].
    by eapply relinked_trans; [|exact Hrel2].
  - intros z. rewrite Hprv4, Hprv3, Hprv2. unfold h1. by heap_rw.
  - intros z Hz. rewrite elem_of_app, elem_of_cons in Hz.
    rewrite Hnxt4, Hnxt3, Hnxt2.
    + unfold h1. rewrite nxt_upd_next_ne; [done|]. intros ->. naive_solver.
    + rewrite elem_of_app, list_elem_of_singleton. naive_solver.
    + naive_solver.
    + rewrite Hperm, elem_of_app, elem_of_cons. naive_solver.
Qed.

(** ** [q_sort] *)

Lemma hd_snoc (a y : Z) (l : list Z) : hd a (l ++ [y]) = hd y l.
Proof. by destruct l. Qed.

(** The pass that restores the backward pointers along a forward chain. *)
Lemma reconnect_spec r : ∀ h first second fuel,
  path (nxt h) first (first :: r) 0 → nxt h first = Some second →
  NoDup (first :: r) → (length r < fuel)%nat →
  ∃ h', reconnect fuel first second h = Ok (hd first (reverse r)) h' ∧
        relinked h h' ∧
        (∀ y, nxt h' y = nxt h y) ∧
        (∀ y, y ∉ r → prv h' y = prv h y) ∧
        path (prv h') (hd first (reverse r)) (reverse r) first.
Proof.
  induction r as [|y r IH]; intros h first second fuel Hp Hsec Hnd Hfuel;
    (destruct fuel as [|fuel]; [simpl in Hfuel; lia|]);
    destruct Hp as [_ (n & Hn & Hp)];
    assert (second = n) as -> by congruence.
  - simpl in Hp. subst n. exists h. simpl.
    split; [done|]. split; [apply relinked_refl|done].
  - destruct Hp as [-> (n' & Hn' & Hp)].
    apply NoDup_cons in Hnd as [Hfirst Hnd].
    pose proof Hnd as Hnd'. apply NoDup_cons in Hnd' as [Hy _].
    assert (is_node h y) as Hnode by eauto with heap.
    set (h1 := upd_prev y first h).
    destruct (IH h1 y n' fuel) as (h' & Hrun & Hrel & Hnxt & Hprv & Hpath).
    { split; [done|]. exists n'. unfold h1. heap_rw. split; [done|].
      eapply path_ext; [|exact Hp]. intros z _. by heap_rw. }
    { unfold h1. by heap_rw. }
    { done. } { simpl in Hfuel. lia. }
    exists h'. rewrite reverse_cons, hd_snoc.
    split; [|split; [|split; [|split]]].
    + simpl. rewrite eqb_ne by (by apply (is_node_not_null h)).
      mstore. fold h1. erewrite bind_ok; [|apply load_next_ok; unfold h1; by heap_rw].
      erewrite bind_ok; [|apply load_next_ok; unfold h1; by heap_rw]. done.
    + eapply relinked_trans; [apply relinked_upd_prev|exact Hrel].
    + intros z. rewrite Hnxt. unfold h1. by heap_rw.
    + intros z [Hz1 Hz2]%not_elem_of_cons. rewrite Hprv by done.
      unfold h1. by heap_rw.
    + apply path_snoc. split; [done|]. rewrite Hprv by done.
      unfold h1. by heap_rw.
Qed.

Lemma q_sort_null fuel h : q_sort fuel 0 h = Ok tt h.
Proof. reflexivity. Qed.

Lemma q_sort_small h head l fuel :
  is_queue h head l → (length l ≤ 1)%nat → q_sort fuel head h = Ok tt h.
Proof.
  intros Hq Hlen.
  pose proof (is_queue_next _ _ _ Hq) as Hn.
  pose proof (is_queue_prev _ _ _ Hq) as Hp.
  assert (head ≠ 0) as Hh.
  { apply (is_node_not_null h). eapply is_queue_nodes; [exact Hq|by left]. }
  unfold q_sort, list_is_singular, list_empty. rewrite eqb_ne by done.
  destruct l as [|x [|y l]]; [| |simpl in Hlen; lia]; simpl in Hn, Hp.
  - mload. rewrite bind_ret. by rewrite Z.eqb_refl.
  - assert (x ≠ head) as Hx.
    { destruct Hq as (Hnd & _). apply NoDup_cons in Hnd as [Hnd _].
      intros ->. apply Hnd. by left. }
    mload. rewrite bind_ret, (eqb_ne x head) by done.
    mload. rewrite bind_ret, (eqb_ne x head) by done.
    mload. mload. rewrite bind_ret. by rewrite Z.eqb_refl.
Qed.

Lemma q_sort_spec h head l fuel :
  is_queue h head l → (∀ x, x ∈ l → has_string h x) →
  (length l + 2 ≤ fuel)%nat →
  ∃ h' r, q_sort fuel head h = Ok tt h' ∧
          is_queue h' head r ∧
          r ≡ₚ l ∧
          Sorted (val_le h) r ∧
          relinked h h'.
Proof.
  intros Hq Hstr Hfuel.
  destruct (decide (length l ≤ 1)%nat) as [Hsmall|Hbig].
  { exists h, l. split; [by eapply q_sort_small|]. split; [done|].
    split; [done|]. split; [|apply relinked_refl].
    destruct l as [|x [|y l]]; [| |simpl in Hsmall; lia]; repeat constructor. }
  pose proof (is_queue_next _ _ _ Hq) as Hn.
  pose proof (is_queue_prev _ _ _ Hq) as Hp.
  assert (is_node h head) as Hnh.
  { eapply is_queue_nodes; [exact Hq|by left]. }
  pose proof (is_node_not_null _ _ Hnh) as Hh.
  destruct Hq as (Hnd & Hf & Hb).
  destruct (snoc_last head l) as [l1 El].
  set (last := hd head (reverse l)) in *.
  destruct l as [|x l']; [simpl in Hbig; lia|]. simpl in Hn.
  destruct l1 as [|? k]; [destruct l'; simpl in Hbig; [lia|done]|].
  injection El as <- El. set (l := x :: l') in *.
  pose proof Hnd as Hnd0. apply NoDup_cons in Hnd as [Hhl Hnd].
  assert (last ∈ l) as Hlast.
  { rewrite El, elem_of_app, list_elem_of_singleton. auto. }
  assert (last ≠ head) as Hlh by (by intros E; rewrite E in Hlast).
  assert (x ≠ head) as Hxh.
  { intros ->. apply Hhl. by left. }
  assert (last ≠ x) as Hlx.
  { intros E. rewrite El in Hnd. destruct k as [|? k].
    - unfold l in El. injection El as _ ->. simpl in Hbig. lia.
    - injection El as <- _. apply NoDup_cons in Hnd as [Hnd _].
      apply Hnd. rewrite elem_of_app, list_elem_of_singleton. auto. }
  destruct Hf as [_ (? & Hn' & Hf)]. assert (x0 = x) as -> by congruence.
  pose proof Hf as Hf'. rewrite El in Hf'. apply path_snoc in Hf' as [Hk Hnl].
  assert (last ∉ k) as Hlk.
  { rewrite El in Hnd. apply NoDup_app in Hnd as (_ & Hd & _).
    intros Hin. apply (Hd _ Hin). by left. }
  assert (is_node h last) as Hnode by eauto with heap.
  set (h1 := upd_next last 0 h).
  destruct (merge_sort_spec h (length l) l h1 x fuel)
    as (h2 & r & Hrun2 & Hp2 & Hperm & Hsorted & Hrel2 & Hprv2 & Hnxt2).
  { done. } { done. } { apply relinked_upd_next. } { done. }
  { rewrite El. apply path_snoc. split.
    - eapply path_ext; [|exact Hk]. intros z Hz. unfold h1.
      rewrite nxt_upd_next_ne; [done|]. by intros ->.
    - unfold h1. by heap_rw. }
  { done. }
  assert (relinked h h2) as Hrel02.
  { eapply relinked_trans; [apply relinked_upd_next|exact Hrel2]. }
  assert (is_node h2 head) as Hnh2 by (by eapply relinked_is_node).
  assert (head ∉ r) as Hhr by (by rewrite Hperm).
  assert (NoDup (head :: r)) as Hndr.
  { apply NoDup_cons. split; [done|]. by rewrite Hperm. }
  set (h3 := upd_next head (hd 0 r) h2).
  destruct (reconnect_spec r h3 head (hd 0 r) fuel)
    as (h4 & Hrun4 & Hrel4 & Hnxt4 & Hprv4 & Hback).
  { split; [done|]. exists (hd 0 r). unfold h3. heap_rw. split; [done|].
    eapply path_ext; [|exact Hp2]. intros z Hz.
    rewrite nxt_upd_next_ne; [done|]. by intros ->. }
  { unfold h3. by heap_rw. } { done. }
  { apply Permutation_length in Hperm. lia. }
  set (last' := hd head (reverse r)) in *.
  destruct (snoc_last head r) as [k' Ek']. fold last' in Ek'.
  assert (path (nxt h4) head (k' ++ [last']) 0) as Hfwd.
  { rewrite <- Ek'. split; [done|]. exists (hd 0 r). rewrite Hnxt4.
    unfold h3. heap_rw. split; [done|].
    eapply path_ext; [|exact Hp2]. intros z Hz. rewrite Hnxt4. unfold h3.
    rewrite nxt_upd_next_ne; [done|]. by intros ->. }
  apply path_snoc in Hfwd as [Hfwd Hend].
  assert (last' ∉ k') as Hlk'.
  { rewrite Ek' in Hndr. apply NoDup_app in Hndr as (_ & Hd & _).
    intros Hin. apply (Hd _ Hin). by left. }
  assert (is_node h4 last') as Hnl4 by eauto with heap.
  assert (is_node h4 head) as Hnh4.
  { eapply relinked_is_node; [exact Hrel4|]. unfold h3. heap_node. }
  set (h5 := upd_next last' head h4). set (h6 := upd_prev head last' h5).
  exists h6, r. split; [|split; [|split; [done|split; [done|]]]].
  - unfold q_sort, list_is_singular, list_empty. rewrite eqb_ne by done.
    mload. rewrite bind_ret, (eqb_ne x head) by done.
    mload. rewrite bind_ret, (eqb_ne x head) by done.
    mload. mload. rewrite bind_ret. fold last. rewrite (eqb_ne last x) by done.
    mload. fold last. mstore. fold h1.
    erewrite bind_ok; [|apply load_next_ok; unfold h1; heap_rw; exact Hn].
    erewrite bind_ok; [|exact Hrun2]. mstore. fold h3.
    erewrite bind_ok; [|apply load_next_ok; unfold h3; by heap_rw].
    erewrite bind_ok; [|exact Hrun4]. fold last'. mstore. fold h5.
    apply store_prev_ok. unfold h5. heap_node.
  - split; [done|]. split.
    + rewrite Ek'. apply path_snoc. split.
      * eapply path_ext; [|exact Hfwd]. intros z Hz. unfold h6, h5.
        by heap_rw.
      * unfold h6, h5. by heap_rw.
    + split; [done|]. exists last'. unfold h6. heap_rw. split; [done|].
      eapply path_ext; [|exact Hback]. intros z Hz.
      rewrite elem_of_reverse in Hz.
      rewrite prv_upd_prev_ne by (by intros ->). unfold h5. by heap_rw.
  - eapply relinked_trans; [exact Hrel02|].
    eapply relinked_trans; [apply relinked_upd_next|]. fold h3.
    eapply relinked_trans; [exact Hrel4|].
    eapply relinked_trans; [apply relinked_upd_next|apply relinked_upd_prev].
Qed.

(** ** Consequences of the queue invariant *)

Lemma path_succ f p l1 a l2 q :
  path f p (l1 ++ a :: l2) q → f a = Some (hd q l2).
Proof.
  intros (r & _ & -> & n & Hn & Hp)%path_app.
  by rewrite Hn, (path_head _ _ _ _ Hp).
Qed.

(** In a queue every node's backward pointer designates its forward
    predecessor. *)
Lemma is_queue_back h head l a b :
  is_queue h head l → a ∈ head :: l → nxt h a = Some b → prv h b = Some a.
Proof.
  intros (Hnd & Hf & Hb) Ha Hab.
  apply list_elem_of_split in Ha as (l1 & l2 & El).
  rewrite El in Hf. pose proof (path_succ _ _ _ _ _ _ Hf) as Hs.
  assert (b = hd head l2) as -> by congruence. clear Hs Hab.
  destruct l1 as [|? l1]; injection El as <- El; subst l.
  - destruct l2 as [|b l2]; simpl.
    + by destruct Hb as [_ (? & -> & <-)].
    + rewrite reverse_cons, app_comm_cons in Hb.
      by apply path_snoc in Hb as [_ ?].
  - destruct l2 as [|b l2]; simpl.
    + rewrite reverse_snoc in Hb. destruct Hb as [_ (? & -> & Hb)].
      by rewrite (path_head _ _ _ _ Hb).
    + rewrite reverse_app, !reverse_cons, <- !app_assoc in Hb.
      by apply (path_succ _ _ (head :: reverse l2) b (a :: reverse l1)) in Hb.
Qed.

Lemma Sorted_adjacent {A} (R : relation A) (l : list A) i a b :
  Sorted R l → l !! i = Some a → l !! S i = Some b → R a b.
Proof.
  intros Hs. revert i. induction Hs as [|x l Hs IH Hhd]; intros i; [done|].
  destruct i as [|i]; simpl.
  - intros [= ->] Hb. destruct Hhd as [|y l' Hxy]; [done|].
    simpl in Hb. by injection Hb as <-.
  - apply IH.
Qed.

#[local] Instance lex_le_transitive : Transitive lex_le.
Proof. intros a b c. apply lex_le_trans. Qed.

#[local] Instance lex_le_antisymm : AntiSymm (=) lex_le.
Proof. intros a b. apply lex_le_antisym. Qed.

Lemma Sorted_val_le_fmap h h' r :
  relinked h h' → Sorted (val_le h) r → Sorted lex_le (value_of h' <$> r).
Proof.
  intros Hrel. apply Sorted_fmap. intros x y.
  unfold val_le. by rewrite !(relinked_value_of _ _ _ Hrel).
Qed.

Lemma has_string_b_sound h l :
  forallb (has_string_b h) l = true → ∀ x, x ∈ l → has_string h x.
Proof.
  rewrite forallb_forall. intros H x Hx%list_elem_of_In. specialize (H x Hx).
  unfold has_string_b, has_string in *.
  destruct (elem_at (cells h) (list_entry x)) as [v|] eqn:Ev; [|done].
  destruct (chars_at (cells h) v) as [bs|] eqn:Eb; [|done].
  destruct (strlen_bytes bs) as [n|] eqn:En; [|done].
  exists v, bs, n. do 3 (split; [done|]).
  apply Forall_forall. intros c Hc%list_elem_of_In.
  rewrite forallb_forall in H. specialize (H c Hc). lia.
Qed.

(** ** [list_del] and [q_delete_mid] *)

(** Unlinking the node [x] of a queue. *)
Lemma list_del_spec h head la x lb :
  is_queue h head (la ++ x :: lb) →
  ∃ h', list_del x h = Ok tt h' ∧
        is_queue h' head (la ++ lb) ∧
        relinked h h' ∧
        (∀ y, y ∉ head :: la ++ lb → nxt h' y = nxt h y ∧ prv h' y = prv h y).
Proof.
  intros (Hnd & Hf & Hb).
  destruct (snoc_last head la) as [l1 HP].
  destruct (snoc_hd head lb) as [l1' HN].
  set (P := hd head (reverse la)) in *. set (N := hd head lb) in *.
  assert (head :: la ++ x :: lb = l1 ++ P :: x :: lb) as E1.
  { by rewrite app_comm_cons, HP, <- app_assoc. }
  assert (head :: reverse (la ++ x :: lb) = l1' ++ N :: x :: reverse la) as E2.
  { rewrite reverse_app, reverse_cons, <- !app_assoc, app_comm_cons, HN.
    by rewrite <- app_assoc. }
  assert (head :: la ++ lb = l1 ++ P :: lb) as E3.
  { by rewrite app_comm_cons, HP, <- app_assoc. }
  assert (head :: reverse (la ++ lb) = l1' ++ N :: reverse la) as E4.
  { rewrite reverse_app, app_comm_cons, HN. by rewrite <- app_assoc. }
  assert (NoDup (head :: reverse (la ++ x :: lb))) as Hnd'.
  { eapply NoDup_cons_perm; [exact Hnd|]. by rewrite reverse_Permutation. }
  assert (NoDup (head :: la ++ lb)) as Hnd3.
  { rewrite app_comm_cons in Hnd. apply NoDup_app in Hnd as (H1 & H2 & H3).
    apply NoDup_cons in H3 as [_ H3]. rewrite app_comm_cons.
    apply NoDup_app. split; [done|]. split; [|done].
    intros z Hz Hz'. apply (H2 z Hz). by right. }
  rewrite E1 in Hf, Hnd. rewrite E2 in Hb, Hnd'.
  pose proof (path_succ _ _ _ _ _ _ Hf) as HnP. simpl in HnP.
  pose proof (path_succ _ _ l1' N _ _ Hb) as HpN. simpl in HpN.
  pose proof (path_succ _ _ (l1 ++ [P]) x _ _
                ltac:(rewrite <- app_assoc; exact Hf)) as HnX. fold N in HnX.
  pose proof (path_succ _ _ (l1' ++ [N]) x _ _
                ltac:(rewrite <- app_assoc; exact Hb)) as HpX. fold P in HpX.
  pose proof Hnd as Hd. apply NoDup_app in Hd as (_ & _ & Hd).
  apply NoDup_cons in Hd as [HPn _].
  pose proof Hnd' as Hd'. apply NoDup_app in Hd' as (_ & _ & Hd').
  apply NoDup_cons in Hd' as [HNn _].
  assert (P ≠ x) by (intros ->; apply HPn; by left).
  assert (N ≠ x) by (intros ->; apply HNn; by left).
  assert (is_node h P) by eauto with heap.
  assert (is_node h N) by eauto with heap.
  assert (is_node h x) by eauto with heap.
  set (h' := upd_next P N (upd_prev N P h)).
  exists h'. split; [|split; [|split]].
  - unfold list_del. mload. mload. mstore. apply store_next_ok. heap_node.
  - split; [done|]. split.
    + rewrite E3. eapply path_del; [exact Hnd|exact Hf|..]; unfold h'.
      * heap_rw. congruence.
      * intros y ??. by heap_rw.
    + rewrite E4. eapply path_del; [exact Hnd'|exact Hb|..]; unfold h'.
      * heap_rw. congruence.
      * intros y ??. by heap_rw.
  - unfold h'. eapply relinked_trans;
      [apply relinked_upd_prev|apply relinked_upd_next].
  - intros y Hy. rewrite E3 in Hy.
    assert (y ≠ P).
    { intros ->. apply Hy. rewrite elem_of_app, elem_of_cons. auto. }
    assert (y ≠ N).
    { intros ->. apply Hy. rewrite <- E3.
      assert (N ∈ head :: reverse (la ++ lb)) as HN'.
      { rewrite E4, elem_of_app, elem_of_cons. auto. }
      rewrite elem_of_cons, elem_of_reverse in HN'. by apply elem_of_cons. }
    unfold h'. by heap_rw.
Qed.

Lemma node_at_delete_chars (m : gmap Z cell) (v : Z) bs (p : Z) :
  m !! v = Some (CChars bs) → node_at (delete v m) p = node_at m p.
Proof.
  intros Hv. unfold node_at, list_entry. case_decide; [done|].
  rewrite !lookup_delete. repeat case_decide; subst; rewrite ?Hv; try done.
  all: try (unfold list_offset in *; lia).
  all: by destruct (m !! p) as [[]|].
Qed.

Lemma node_at_delete_elem (m : gmap Z cell) (e : Z) val lh (p : Z) :
  m !! e = Some (CElem val lh) → p ≠ list_of e →
  node_at (delete e m) p = node_at m p.
Proof.
  intros He Hp. unfold node_at, list_entry, list_of in *. case_decide; [done|].
  rewrite !lookup_delete. repeat case_decide; subst; rewrite ?He; try done.
  all: unfold list_offset in *; lia.
Qed.

(** Releasing the element of node [x]: its string and the element itself
    leave the heap, and no other node is touched. *)
Lemma q_release_element_spec h x v bs :
  elem_at (cells h) (list_entry x) = Some v →
  chars_at (cells h) v = Some bs →
  ∃ h', q_release_element (list_entry x) h = Ok tt h' ∧
        cells h' = delete (list_entry x) (delete v (cells h)) ∧
        brk h' = brk h ∧ oracle h' = oracle h ∧
        (∀ y, y ≠ x → nxt h' y = nxt h y ∧ prv h' y = prv h y).
Proof.
  intros He Hv. unfold elem_at in He. unfold chars_at in Hv.
  destruct (decide (list_entry x = 0)) as [|He0]; [done|].
  destruct (decide (v = 0)) as [|Hv0]; [done|].
  destruct (cells h !! list_entry x) as [[|v' lh|]|] eqn:Ee; try done.
  injection He as ->.
  destruct (cells h !! v) as [[| |bs']|] eqn:Ev; try done.
  assert (list_entry x ≠ v) as Hne by congruence.
  exists (set_cells h (delete (list_entry x) (delete v (cells h)))).
  split; [|split; [reflexivity|split; [reflexivity|split; [reflexivity|]]]].
  - unfold q_release_element. erewrite bind_ok.
    2:{ apply load_value_ok. unfold elem_at. rewrite decide_False by done.
        by rewrite Ee. }
    unfold bind, free. rewrite !eqb_ne by done. rewrite Ev. simpl.
    rewrite lookup_delete_ne by done. by rewrite Ee.
  - intros y Hy. unfold nxt, prv. simpl.
    rewrite (node_at_delete_elem _ _ v lh).
    + by rewrite (node_at_delete_chars _ _ bs').
    + by rewrite lookup_delete_ne.
    + unfold list_of, list_entry. lia.
Qed.

Lemma path_at f p l q i :
  path f p l q → (i < length l)%nat →
  f (hd q (drop i l)) = Some (hd q (drop (S i) l)).
Proof.
  revert p i. induction l as [|x l IH]; intros p i; simpl; [lia|].
  intros [-> (n & Hn & Hp)] Hi. destruct i as [|i]; simpl.
  - by rewrite Hn, (path_head _ _ _ _ Hp).
  - eapply IH; [exact Hp|lia].
Qed.

Lemma hd_drop_lookup (q : Z) (l : list Z) i a :
  l !! i = Some a → hd q (drop i l) = a.
Proof. intros H. by rewrite (drop_S _ _ _ H). Qed.

Section DeleteMid.

Variables (h : heap) (head : Z) (l : list Z).
Hypothesis Hnd : NoDup (head :: l).
Hypothesis Hpath : path (nxt h) (hd head l) l head.

Let node_at_index (i : nat) : Z := hd head (drop i l).

Lemma node_at_index_next i :
  (i < length l)%nat → nxt h (node_at_index i) = Some (node_at_index (S i)).
Proof. intros Hi. by apply (path_at _ _ _ _ _ Hpath). Qed.

Lemma node_at_index_head i :
  node_at_index i = head ↔ (length l ≤ i)%nat.
Proof.
  unfold node_at_index. split.
  - intros E. destruct (decide (length l ≤ i)%nat) as [|Hi]; [done|].
    destruct (lookup_lt_is_Some_2 l i ltac:(lia)) as [a Ha].
    rewrite (hd_drop_lookup _ _ _ _ Ha) in E. subst a.
    apply NoDup_cons in Hnd as [Hh _]. destruct Hh.
    by eapply list_elem_of_lookup_2.
  - intros Hi. by rewrite drop_ge.
Qed.

(** The two-pointer walk stops with the slow pointer at index [n/2]. *)
Lemma q_delete_mid_loop_spec fuel : ∀ k,
  (2 * k ≤ length l)%nat → (length l - 2 * k < fuel)%nat →
  q_delete_mid_loop fuel head (node_at_index k) (node_at_index (2 * k)) h
  = Ok (node_at_index (length l / 2)) h.
Proof.
  induction fuel as [|fuel IH]; intros k Hk Hfuel; [lia|].
  cbn [q_delete_mid_loop].
  destruct (decide (length l ≤ 2 * k)%nat) as [Hend|Hmore].
  { rewrite (proj2 (node_at_index_head (2 * k)) Hend), Z.eqb_refl.
    replace (length l / 2)%nat with k; [done|].
    apply Nat.div_unique_exact; lia. }
  rewrite eqb_ne by (rewrite node_at_index_head; lia).
  erewrite bind_ok; [|apply load_next_ok, node_at_index_next; lia].
  destruct (decide (length l ≤ S (2 * k))%nat) as [Hend|Hmore'].
  { rewrite (proj2 (node_at_index_head (S (2 * k))) Hend), Z.eqb_refl.
    replace (length l / 2)%nat with k; [done|].
    apply (Nat.div_unique _ _ _ 1); lia. }
  rewrite eqb_ne by (rewrite node_at_index_head; lia).
  erewrite bind_ok; [|apply load_next_ok, node_at_index_next; lia].
  erewrite bind_ok; [|apply load_next_ok, node_at_index_next; lia].
  erewrite bind_ok; [|apply load_next_ok, node_at_index_next; lia].
  replace (S (S (2 * k))) with (2 * S k)%nat by lia.
  apply IH; lia.
Qed.

End DeleteMid.

Lemma is_queue_ext h h' head l :
  is_queue h head l →
  (∀ y, y ∈ head :: l → nxt h' y = nxt h y ∧ prv h' y = prv h y) →
  is_queue h' head l.
Proof.
  intros (Hnd & Hf & Hb) Hsame. split; [done|]. split.
  - eapply path_ext; [|exact Hf]. intros y Hy. symmetry. by apply Hsame.
  - eapply path_ext; [|exact Hb]. intros y Hy. symmetry. apply Hsame.
    rewrite elem_of_cons, elem_of_reverse in Hy. by apply elem_of_cons.
Qed.

Lemma q_delete_mid_spec h head l fuel :
  is_queue h head l → l ≠ [] → (∀ x, x ∈ l → has_string h x) →
  (length l < fuel)%nat →
  ∃ h' mid v,
    l !! (length l / 2)%nat = Some mid ∧
    elem_at (cells h) (list_entry mid) = Some v ∧
    q_delete_mid fuel head h = Ok true h' ∧
    is_queue h' head (delete (length l / 2)%nat l) ∧
    cells h' !! list_entry mid = None ∧
    cells h' !! v = None ∧
    brk h' = brk h ∧ oracle h' = oracle h ∧
    (∀ a, a ≠ list_entry mid → a ≠ v →
          unlink <$> cells h' !! a = unlink <$> cells h !! a).
Proof.
  intros Hq Hl Hstr Hfuel.
  set (k := (length l / 2)%nat).
  assert (k < length l)%nat as Hk.
  { unfold k. destruct l; [done|]. apply Nat.div_lt; simpl; lia. }
  destruct (lookup_lt_is_Some_2 l k Hk) as [mid Hmid].
  pose proof (is_queue_next _ _ _ Hq) as Hn.
  assert (is_node h head) as Hnh.
  { eapply is_queue_nodes; [exact Hq|by left]. }
  pose proof (is_node_not_null _ _ Hnh) as Hh.
  pose proof Hq as (Hnd & [_ (? & Hn' & Hf)] & _).
  assert (x = hd head l) as -> by congruence.
  assert (hd head l ≠ head) as Hne.
  { destruct l as [|a l']; [done|]. simpl. intros ->.
    apply NoDup_cons in Hnd as [Hnd _]. apply Hnd. by left. }
  pose proof (q_delete_mid_loop_spec h head l Hnd Hf fuel 0%nat
                ltac:(lia) ltac:(lia)) as Hloop.
  cbv beta in Hloop. fold k in Hloop.
  rewrite (hd_drop_lookup _ _ _ _ Hmid) in Hloop.
  simpl in Hloop. rewrite ?drop_0 in Hloop.
  pose proof (take_drop_middle _ _ _ Hmid) as El.
  set (la := take k l) in *. set (lb := drop (S k) l) in *.
  rewrite <- El in Hq.
  destruct (list_del_spec h head la mid lb Hq)
    as (h1 & Hdel & Hq1 & Hrel1 & _).
  destruct (Hstr mid) as (v & bs & n & Hev & Hcv & _).
  { by eapply list_elem_of_lookup_2. }
  destruct (q_release_element_spec h1 mid v bs)
    as (h2 & Hfree & Hcells & Hbrk & Horacle & Hviews).
  { by rewrite (relinked_elem_at _ _ _ Hrel1). }
  { by rewrite (relinked_chars_at _ _ _ Hrel1). }
  assert (list_entry mid ≠ v) as Hev'.
  { unfold elem_at, chars_at in Hev, Hcv. repeat case_decide; try done.
    intros E. rewrite E in Hev. by destruct (cells h !! v) as [[]|]. }
  exists h2, mid, v. split; [done|]. split; [done|]. split; [|split].
  - unfold q_delete_mid, list_empty. rewrite eqb_ne by done.
    mload. rewrite bind_ret, eqb_ne by done. mload. mload.
    erewrite bind_ok; [|exact Hloop].
    erewrite bind_ok; [|exact Hdel].
    erewrite bind_ok; [|exact Hfree]. done.
  - rewrite delete_take_drop. fold la lb.
    eapply is_queue_ext; [exact Hq1|]. intros y Hy. apply Hviews.
    intros ->. destruct Hq as (Hnd' & _).
    rewrite app_comm_cons in Hnd'. apply NoDup_app in Hnd' as (_ & Hd & Hd').
    apply NoDup_cons in Hd' as [Hd' _].
    rewrite app_comm_cons, elem_of_app in Hy. destruct Hy as [Hy|Hy]; [|done].
    apply (Hd _ Hy). by left.
  - rewrite Hcells, Hbrk, Horacle.
    destruct Hrel1 as (? & ? & Hun).
    split; [by rewrite lookup_delete_eq|].
    split; [by rewrite lookup_delete_ne, lookup_delete_eq|].
    split; [done|]. split; [done|].
    intros a Ha1 Ha2. by rewrite !lookup_delete_ne.
Qed.

(** ** Allocation and the views of the heap *)

Section Inserts.

Implicit Types (m : gmap Z cell) (p e b v : Z) (bs : list Z) (lh : list_head).

Lemma node_at_insert_chars m b bs p :
  (m !! b = None ∨ ∃ bs', m !! b = Some (CChars bs')) →
  node_at (<[b := CChars bs]> m) p = node_at m p.
Proof.
  intros Hb. unfold node_at, list_entry. case_decide; [done|].
  rewrite !lookup_insert.
  destruct Hb as [Hb|[bs' Hb]]; repeat case_decide; subst;
    rewrite ?Hb; try done; try (unfold list_offset in *; lia);
    by destruct (m !! p) as [[]|].
Qed.

Lemma elem_at_insert_chars m b bs e :
  (m !! b = None ∨ ∃ bs', m !! b = Some (CChars bs')) →
  elem_at (<[b := CChars bs]> m) e = elem_at m e.
Proof.
  intros Hb. unfold elem_at. case_decide; [done|]. rewrite lookup_insert.
  destruct Hb as [Hb|[bs' Hb]]; case_decide; subst; by rewrite ?Hb.
Qed.

Lemma chars_at_insert_eq m b c : b ≠ 0 →
  chars_at (<[b := CChars c]> m) b = Some c.
Proof.
  intros Hb. unfold chars_at. rewrite decide_False by done.
  by rewrite lookup_insert_eq.
Qed.

Lemma chars_at_insert_ne m b b' (c : cell) : b ≠ b' →
  chars_at (<[b := c]> m) b' = chars_at m b'.
Proof.
  intros Hb. unfold chars_at. case_decide; [done|].
  by rewrite lookup_insert_ne.
Qed.

Lemma elem_at_insert_eq m e v lh : e ≠ 0 →
  elem_at (<[e := CElem v lh]> m) e = Some v.
Proof.
  intros He. unfold elem_at. rewrite decide_False by done.
  by rewrite lookup_insert_eq.
Qed.

Lemma elem_at_insert_ne m e e' (c : cell) : e ≠ e' →
  elem_at (<[e := c]> m) e' = elem_at m e'.
Proof.
  intros He. unfold elem_at. case_decide; [done|].
  by rewrite lookup_insert_ne.
Qed.

(** A new element leaves the nodes that exist untouched. *)
Lemma node_at_insert_elem_fresh m e v lh p :
  m !! e = None → is_Some (node_at m p) →
  node_at (<[e := CElem v lh]> m) p = node_at m p.
Proof.
  intros He. unfold node_at, list_entry. case_decide; [done|].
  rewrite !lookup_insert. repeat case_decide; subst; rewrite ?He;
    try done; try (by intros [? ?]).
  all: try (unfold list_offset in *; lia).
  destruct (m !! p) as [[]|]; try done; by intros [? ?].
Qed.

Lemma node_at_insert_elem_new m e v lh :
  list_of e ≠ 0 → m !! list_of e = None →
  node_at (<[e := CElem v lh]> m) (list_of e) = Some lh.
Proof.
  intros H0 Hn. unfold node_at, list_entry, list_of in *.
  rewrite decide_False by done.
  rewrite lookup_insert_ne by (unfold list_offset; lia). rewrite Hn.
  replace (e + list_offset - list_offset) with e by lia.
  by rewrite lookup_insert_eq.
Qed.

(** Changing the value field of an element leaves every node untouched. *)
Lemma node_at_insert_elem_same m e v v' lh p :
  m !! e = Some (CElem v' lh) →
  node_at (<[e := CElem v lh]> m) p = node_at m p.
Proof.
  intros He. unfold node_at, list_entry. case_decide; [done|].
  rewrite !lookup_insert. repeat case_decide; subst; rewrite ?He; try done.
  unfold list_offset in *. lia.
Qed.

Lemma chars_at_insert_elem m e v lh b :
  (m !! e = None ∨ ∃ v' lh', m !! e = Some (CElem v' lh')) →
  chars_at (<[e := CElem v lh]> m) b = chars_at m b.
Proof.
  intros He. unfold chars_at. case_decide; [done|]. rewrite lookup_insert.
  destruct He as [He|(v' & lh' & He)]; case_decide; subst; by rewrite ?He.
Qed.

End Inserts.

(** The bytes of a terminated string, and what [strncpy] copies of it. *)
Lemma strlen_bytes_cstr bs n :
  strlen_bytes bs = Some n →
  n = Z.of_nat (length (cstr bs)) ∧
  (length (cstr bs) < length bs)%nat ∧
  strncpy_bytes (length (cstr bs)) bs = Some (cstr bs).
Proof.
  revert n. induction bs as [|b bs IH]; intros n; simpl; [done|].
  destruct (Z.eqb_spec b 0) as [->|Hb].
  - intros [= <-]. simpl. split; [done|]. split; [lia|done].
  - destruct (strlen_bytes bs) as [n'|]; [|done]. intros [= <-].
    destruct (IH n' eq_refl) as (-> & ? & Hcp). simpl.
    split; [lia|]. split; [lia|].
    rewrite (eqb_ne b 0) by done. by rewrite Hcp.
Qed.

Lemma cstr_terminated (s : list Z) :
  Forall (λ c, c ≠ 0) s → cstr (s ++ [0]) = s.
Proof.
  induction 1 as [|c s Hc _ IH]; simpl; [done|].
  rewrite eqb_ne by done. by rewrite IH.
Qed.

Lemma cstr_nonzero bs : Forall (λ c, c ≠ 0) (cstr bs).
Proof.
  induction bs as [|b bs IH]; simpl; [constructor|].
  destruct (Z.eqb_spec b 0); by constructor.
Qed.

Lemma strlen_bytes_terminated (s : list Z) :
  Forall (λ c, c ≠ 0) s → strlen_bytes (s ++ [0]) = Some (Z.of_nat (length s)).
Proof.
  induction 1 as [|c s Hc _ IH]; simpl; [done|].
  rewrite eqb_ne by done. rewrite IH. simpl. f_equal. lia.
Qed.

(** ** [list_add], [q_insert_head] and [q_remove_head] *)

(** Linking a node [X] that is not in the queue right after the sentinel. *)
Lemma list_add_spec h head l X :
  is_queue h head l → is_node h X → X ∉ head :: l →
  ∃ h', list_add X head h = Ok tt h' ∧
        is_queue h' head (X :: l) ∧
        relinked h h'.
Proof.
  intros Hq HX Hnin. pose proof Hq as (Hnd & Hf & Hb).
  pose proof (is_queue_next _ _ _ Hq) as Hn.
  destruct (snoc_hd head l) as [l1' HN]. set (N := hd head l) in *.
  assert (is_node h head) as Hnh by (eapply is_queue_nodes; [exact Hq|by left]).
  assert (is_node h N) as HnN.
  { eapply is_queue_nodes; [exact Hq|]. unfold N.
    destruct l; simpl; [by left|right; by left]. }
  assert (prv h N = Some head) as HpN.
  { rewrite HN in Hb. by apply path_snoc in Hb as [_ ?]. }
  apply not_elem_of_cons in Hnin as [HXh HXl].
  assert (N ≠ X) as HNX.
  { unfold N. destruct l as [|a l']; simpl; [done|]. intros ->.
    apply HXl. by left. }
  set (h' := upd_next head X (upd_prev X head (upd_next X N (upd_prev N X h)))).
  exists h'. split; [|split].
  - unfold list_add. mload. mstore. mstore. mstore.
    apply store_next_ok. heap_node.
  - split; [|split].
    + apply NoDup_cons in Hnd as [Hh Hnd]. apply NoDup_cons. split.
      * rewrite elem_of_cons. intros [->|?]; done.
      * apply NoDup_cons. done.
    + apply (path_ins (nxt h) (nxt h') [] head X l head head).
      * simpl. apply NoDup_cons in Hnd as [Hh Hnd].
        apply NoDup_cons. split; [rewrite elem_of_cons; intros [->|?]; done|].
        by apply NoDup_cons.
      * exact Hf.
      * unfold h'. by heap_rw.
      * unfold h'. heap_rw. congruence.
      * intros y ??. unfold h'. by heap_rw.
    + rewrite reverse_cons, app_comm_cons, HN, <- app_assoc.
      apply (path_ins (prv h) (prv h') l1' N X [] head head).
      * assert (l1' ++ [N; X] ≡ₚ X :: head :: l) as ->.
        { change (l1' ++ [N; X]) with (l1' ++ [N] ++ [X]).
          rewrite app_assoc, <- HN.
          rewrite <- Permutation_cons_append.
          by rewrite reverse_Permutation. }
        apply NoDup_cons. split; [by apply not_elem_of_cons|done].
      * by rewrite <- HN.
      * unfold h'. by heap_rw.
      * unfold h'. heap_rw. congruence.
      * intros y ??. unfold h'. by heap_rw.
  - unfold h'. repeat (eapply relinked_trans;
      [|first [apply relinked_upd_next | apply relinked_upd_prev]]).
    apply relinked_refl.
Qed.

(** Unlinking the first node [x]: the list part of [q_remove_head]. *)
Lemma q_remove_head_unlink h head x l :
  is_queue h head (x :: l) →
  ∃ h1, relinked h h1 ∧ is_queue h1 head l ∧
        ∀ sp bufsize,
          q_remove_head head sp bufsize h
          = (copy_out (list_entry x) sp bufsize ;; ret (list_entry x)) h1.
Proof.
  intros Hq. pose proof (is_queue_next _ _ _ Hq) as Hn. simpl in Hn.
  assert (is_node h head) as Hnh by (eapply is_queue_nodes; [exact Hq|by left]).
  assert (is_node h x) as Hnx.
  { eapply is_queue_nodes; [exact Hq|right; by left]. }
  pose proof (is_node_not_null _ _ Hnh) as Hh.
  pose proof Hq as (Hnd & _).
  assert (x ≠ head) as Hxh.
  { apply NoDup_cons in Hnd as [Hnd _]. intros ->. apply Hnd. by left. }
  destruct (list_del_spec h head [] x l Hq) as (h1 & Hdel & Hq1 & Hrel1 & _).
  simpl in Hq1.
  assert (is_node h1 x) as Hnx1 by (by eapply relinked_is_node).
  set (h2 := upd_prev x x (upd_next x x h1)).
  exists h2. split; [|split].
  - eapply relinked_trans; [exact Hrel1|]. unfold h2.
    eapply relinked_trans; [apply relinked_upd_next|apply relinked_upd_prev].
  - eapply is_queue_ext; [exact Hq1|]. intros y Hy.
    assert (x ≠ y).
    { intros ->. apply NoDup_cons in Hnd as [_ [Hy' _]%NoDup_cons].
      apply elem_of_cons in Hy as [?|?]; done. }
    unfold h2. by heap_rw.
  - intros sp bufsize. unfold q_remove_head, list_empty, list_del_init,
      INIT_LIST_HEAD. rewrite eqb_ne by done.
    mload. rewrite bind_ret, eqb_ne by done. mload.
    replace (list_of (list_entry x)) with x
      by (unfold list_of, list_entry; lia).
    rewrite !bind_assoc. erewrite bind_ok; [|exact Hdel].
    mstore. mstore. done.
Qed.

Lemma heap_ok_unfold h :
  heap_ok h →
  0 < brk h ∧
  (∀ a c, cells h !! a = Some c → 0 < a < brk h) ∧
  (∀ a bs, cells h !! a = Some (CChars bs) → Z.of_nat (length bs) < size_max).
Proof.
  intros [Hbrk Hall]. split; [done|]. split.
  - intros a c Hc. by destruct (Hall a c Hc).
  - intros a bs Hc. by destruct (Hall a _ Hc).
Qed.

Lemma heap_ok_fresh h a : heap_ok h → brk h ≤ a → cells h !! a = None.
Proof.
  intros (_ & Hok & _)%heap_ok_unfold Ha. destruct (cells h !! a) eqn:E; [|done].
  apply Hok in E. lia.
Qed.

Lemma heap_ok_node h p : heap_ok h → is_node h p → p < brk h + list_offset.
Proof.
  intros (_ & Hok & _)%heap_ok_unfold [lh H]. unfold node_at, list_entry in H.
  case_decide; [done|].
  destruct (cells h !! p) as [c|] eqn:Ep.
  { apply Hok in Ep. unfold list_offset. lia. }
  destruct (cells h !! (p - list_offset)) as [c|] eqn:Ee; [|done].
  apply Hok in Ee. lia.
Qed.

(** [q_insert_head] when both allocations are served. *)
Lemma q_insert_head_spec h head l s bs n j1 j2 o :
  heap_ok h → is_queue h head l →
  chars_at (cells h) s = Some bs → strlen_bytes bs = Some n →
  oracle h = Some j1 :: Some j2 :: o →
  let e := brk h in
  let buf := brk h + 32 in
  ∃ h', q_insert_head head s h = Ok true h' ∧
        is_queue h' head (list_of e :: l) ∧
        elem_at (cells h') e = Some buf ∧
        chars_at (cells h') buf = Some (cstr bs ++ [0]) ∧
        chars_at (cells h') s = Some bs ∧
        buf ≠ s.
Proof.
  intros Hok Hq Hs Hn Ho e buf.
  change (brk h + 32) with (e + block_span 24) in (value of buf).
  assert (e = brk h ∧ buf = brk h + 32) as [Ee Ebuf] by done.
  pose proof (heap_ok_unfold _ Hok) as (Hbrk & Hlive & Hsize).
  destruct (strlen_bytes_cstr _ _ Hn) as (En & Hlt & Hcopy).
  set (w := cstr bs) in *.
  assert (is_node h head) as Hnh by (eapply is_queue_nodes; [exact Hq|by left]).
  pose proof (is_node_not_null _ _ Hnh) as Hh.
  assert (cells h !! s = Some (CChars bs) ∧ s ≠ 0) as [Hcs Hs0].
  { unfold chars_at in Hs. case_decide; [done|].
    destruct (cells h !! s) as [[]|]; naive_solver. }
  pose proof (Hlive _ _ Hcs) as Hsb. pose proof (Hsize _ _ Hcs) as Hss.
  assert (size_add n 1 = n + 1) as Hsz.
  { unfold size_add. apply Z.mod_small. lia. }
  assert (e ≠ 0 ∧ buf ≠ 0 ∧ e ≠ buf ∧ e ≠ s ∧ buf ≠ s) as (He0 & Hb0 & Heb & Hes & Hbs)
    by lia.
  assert (cells h !! e = None) as Hfe by (apply heap_ok_fresh; [done|lia]).
  assert (cells h !! buf = None) as Hfb by (apply heap_ok_fresh; [done|lia]).
  assert (cells h !! list_of e = None) as Hfl.
  { apply heap_ok_fresh; [done|]. unfold list_of, list_offset. lia. }
  set (lh0 := LH j1 j1).
  set (mA := <[e := CElem j1 lh0]> (cells h)).
  set (hA := {| cells := mA; brk := brk h + block_span 24; oracle := Some j2 :: o |}).
  set (mB := <[buf := CChars (replicate (Z.to_nat (n + 1)) j2)]> mA).
  set (hB := {| cells := mB; brk := brk hA + block_span (n + 1); oracle := o |}).
  set (mC := <[e := CElem buf lh0]> mB).
  set (mD := <[buf := CChars (w ++ [j2])]> mC).
  set (mE := <[buf := CChars (w ++ [0])]> mD).
  set (hE := set_cells hB mE).
  assert (∀ p, is_node h p → node_at mE p = node_at (cells h) p) as Hold.
  { intros p Hp. unfold mE, mD, mC, mB, mA.
    rewrite !node_at_insert_chars.
    - rewrite (node_at_insert_elem_same _ e buf j1 lh0).
      + rewrite node_at_insert_chars.
        * by apply node_at_insert_elem_fresh.
        * left. by rewrite lookup_insert_ne.
      + rewrite lookup_insert_ne by done. by rewrite lookup_insert_eq.
    - right. eexists. rewrite lookup_insert_ne by done.
      by rewrite lookup_insert_eq.
    - right. eexists. by rewrite lookup_insert_eq. }
  assert (node_at mE (list_of e) = Some lh0) as Hnew.
  { unfold mE, mD, mC, mB.
    rewrite !node_at_insert_chars.
    - apply node_at_insert_elem_new.
      + unfold list_of, list_offset. lia.
      + rewrite lookup_insert_ne by (unfold list_of, list_offset; lia).
        unfold mA. rewrite lookup_insert_ne by (unfold list_of, list_offset; lia).
        done.
    - right. eexists. rewrite lookup_insert_ne by done.
      by rewrite lookup_insert_eq.
    - right. eexists. by rewrite lookup_insert_eq. }
  assert (is_queue hE head l) as HqE.
  { eapply is_queue_ext; [exact Hq|]. intros y Hy. unfold nxt, prv. simpl.
    rewrite Hold; [done|]. by eapply is_queue_nodes. }
  assert (is_node hE (list_of e)) as HnE.
  { unfold is_node. simpl. by rewrite Hnew. }
  assert (list_of e ∉ head :: l) as Hnin.
  { intros Hin. pose proof (is_queue_nodes _ _ _ _ Hq Hin) as Hnode.
    apply (heap_ok_node _ _ Hok) in Hnode. unfold list_of in Hnode. lia. }
  destruct (list_add_spec hE head l (list_of e) HqE HnE Hnin)
    as (h' & Hadd & Hq' & Hrel').
  assert (chars_at mA s = Some bs) as HsA.
  { unfold mA. by rewrite chars_at_insert_ne. }
  assert (chars_at mB s = Some bs) as HsB.
  { unfold mB. by rewrite chars_at_insert_ne. }
  assert (chars_at mC s = Some bs) as HsC.
  { unfold mC. by rewrite chars_at_insert_ne. }
  assert (chars_at mD s = Some bs) as HsD.
  { unfold mD. by rewrite chars_at_insert_ne. }
  assert (chars_at mE s = Some bs) as HsE.
  { unfold mE. by rewrite chars_at_insert_ne. }
  assert (mB !! e = Some (CElem j1 lh0)) as HeB.
  { unfold mB, mA. rewrite lookup_insert_ne by done. by rewrite lookup_insert_eq. }
  exists h'. split; [|split; [done|split; [|split; [|split; [|done]]]]].
  - unfold q_insert_head. rewrite eqb_ne by done.
    erewrite bind_ok.
    2:{ unfold malloc_element, malloc. rewrite Ho. reflexivity. }
    fold e lh0 mA hA. rewrite (eqb_ne e 0) by done.
    erewrite bind_ok.
    2:{ apply (strlen_ok _ _ bs); [exact HsA|done]. }
    rewrite Hsz. erewrite bind_ok.
    2:{ unfold malloc_chars, malloc. simpl. reflexivity. }
    fold buf. fold mB. fold hB.
    erewrite bind_ok.
    2:{ unfold store_value. simpl. unfold mB at 1.
        rewrite elem_at_insert_chars by (left; unfold mA; by rewrite lookup_insert_ne).
        unfold mA at 1. rewrite elem_at_insert_eq by done.
        unfold put_elem. rewrite HeB. reflexivity. }
    fold mC. erewrite bind_ok.
    2:{ apply load_value_ok. simpl. unfold mC. by apply elem_at_insert_eq. }
    rewrite (eqb_ne buf 0) by done.
    erewrite bind_ok.
    2:{ apply (strlen_ok _ _ bs); [exact HsC|done]. }
    erewrite bind_ok.
    2:{ apply load_value_ok. simpl. unfold mC. by apply elem_at_insert_eq. }
    erewrite bind_ok.
    2:{ apply (strncpy_ok _ buf s n (replicate (Z.to_nat (n + 1)) j2) bs w).
        - simpl. unfold mC. rewrite chars_at_insert_ne by done.
          unfold mB. by rewrite chars_at_insert_eq.
        - exact HsC.
        - done.
        - rewrite length_replicate. lia.
        - replace (Z.to_nat n) with (length w) by lia. exact Hcopy. }
    replace (drop (Z.to_nat n) (replicate (Z.to_nat (n + 1)) j2)) with [j2].
    2:{ rewrite drop_replicate.
        by replace (Z.to_nat (n + 1) - Z.to_nat n)%nat with 1%nat by lia. }
    cbn [cells set_cells].
    fold mD. erewrite bind_ok.
    2:{ apply (strlen_ok _ _ bs); [exact HsD|done]. }
    erewrite bind_ok.
    2:{ apply load_value_ok. simpl. unfold mD.
        rewrite elem_at_insert_chars.
        - unfold mC. by apply elem_at_insert_eq.
        - right. eexists. unfold mC. rewrite lookup_insert_ne by done.
          unfold mB. by rewrite lookup_insert_eq. }
    erewrite bind_ok.
    2:{ apply (store_char_ok _ buf n 0 (w ++ [j2])).
        - simpl. unfold mD. by rewrite chars_at_insert_eq.
        - rewrite length_app. simpl. lia. }
    replace (<[Z.to_nat n:=0]> (w ++ [j2])) with (w ++ [0]).
    2:{ replace (Z.to_nat n) with (length w) by lia.
        rewrite insert_app_r_alt by lia.
        by replace (length w - length w)%nat with 0%nat by lia. }
    cbn [cells set_cells].
    fold mE. fold hE. erewrite bind_ok; [|exact Hadd]. done.
  - rewrite (relinked_elem_at _ _ _ Hrel'). simpl. unfold mE, mD.
    rewrite !elem_at_insert_chars.
    + unfold mC. by apply elem_at_insert_eq.
    + right. eexists. unfold mC. rewrite lookup_insert_ne by done.
      unfold mB. by rewrite lookup_insert_eq.
    + right. eexists. by rewrite lookup_insert_eq.
  - rewrite (relinked_chars_at _ _ _ Hrel'). simpl. unfold mE.
    by apply chars_at_insert_eq.
  - by rewrite (relinked_chars_at _ _ _ Hrel').
Qed.

(** [q_insert_head] when an allocation is refused: it reports failure, and
    the shell allocated before the refusal is released again. *)
Lemma q_insert_head_no_shell h head s :
  head ≠ 0 → (oracle h = [] ∨ ∃ o, oracle h = None :: o) →
  ∃ h', q_insert_head head s h = Ok false h' ∧ cells h' = cells h.
Proof.
  intros Hh Ho. unfold q_insert_head. rewrite eqb_ne by done.
  unfold bind, malloc_element, malloc.
  destruct Ho as [->|[o ->]]; eexists; split; reflexivity.
Qed.

Lemma q_insert_head_no_buffer h head s bs n j1 o1 :
  heap_ok h → head ≠ 0 →
  chars_at (cells h) s = Some bs → strlen_bytes bs = Some n →
  oracle h = Some j1 :: o1 → (o1 = [] ∨ ∃ o, o1 = None :: o) →
  ∃ h', q_insert_head head s h = Ok false h' ∧ cells h' = cells h.
Proof.
  intros Hok Hh Hs Hn Ho Ho1.
  pose proof (heap_ok_unfold _ Hok) as (Hbrk & Hlive & _).
  set (e := brk h).
  assert (cells h !! s = Some (CChars bs) ∧ s ≠ 0) as [Hcs Hs0].
  { unfold chars_at in Hs. case_decide; [done|].
    destruct (cells h !! s) as [[]|]; naive_solver. }
  pose proof (Hlive _ _ Hcs) as Hsb.
  assert (e ≠ 0 ∧ e ≠ s) as [He0 Hes] by (unfold e; lia).
  assert (cells h !! e = None) as Hfe by (apply heap_ok_fresh; [done|lia]).
  set (lh0 := LH j1 j1). set (mA := <[e := CElem j1 lh0]> (cells h)).
  assert (∃ o', (malloc_chars (size_add n 1))
            {| cells := mA; brk := e + block_span 24; oracle := o1 |}
          = Ok NULL {| cells := mA; brk := e + block_span 24; oracle := o' |})
    as [o' Hmalloc].
  { unfold malloc_chars, malloc. simpl.
    destruct Ho1 as [->|[o ->]]; eexists; reflexivity. }
  exists {| cells := delete e (<[e := CElem NULL lh0]> mA);
            brk := e + block_span 24; oracle := o' |}.
  split.
  - unfold q_insert_head. rewrite eqb_ne by done. erewrite bind_ok.
    2:{ unfold malloc_element, malloc. rewrite Ho. reflexivity. }
    fold e lh0 mA. rewrite (eqb_ne e 0) by done.
    erewrite bind_ok.
    2:{ apply (strlen_ok _ _ bs); [|done]. simpl. unfold mA.
        by rewrite chars_at_insert_ne. }
    erewrite bind_ok; [|exact Hmalloc].
    erewrite bind_ok.
    2:{ unfold store_value. simpl. unfold mA at 1.
        rewrite elem_at_insert_eq by done. unfold put_elem.
        replace (mA !! e) with (Some (CElem j1 lh0))
          by (unfold mA; by rewrite lookup_insert_eq).
        reflexivity. }
    erewrite bind_ok.
    2:{ apply load_value_ok. simpl. by apply elem_at_insert_eq. }
    rewrite Z.eqb_refl. unfold bind, free. rewrite (eqb_ne e 0) by done.
    simpl. by rewrite lookup_insert_eq.
  - simpl. unfold mA. rewrite insert_insert_eq, delete_insert_eq.
    by apply delete_id.
Qed.

(** ** Copying the removed string to the caller's buffer *)

Lemma strncpy_bytes_length k : ∀ src w,
  strncpy_bytes k src = Some w → length w = k.
Proof.
  induction k as [|k IH]; intros src w; simpl.
  - by intros [= <-].
  - destruct src as [|c src]; [done|]. destruct (c =? 0).
    + intros [= <-]. simpl. by rewrite length_replicate.
    + destruct (strncpy_bytes k src) as [w'|] eqn:E; [|done].
      intros [= <-]. simpl. f_equal. by eapply IH.
Qed.

Lemma strncpy_bytes_spec k : ∀ src n,
  strlen_bytes src = Some n →
  ∃ w, strncpy_bytes k src = Some w ∧
       ∀ rest, cstr (w ++ 0 :: rest) = take k (cstr src).
Proof.
  induction k as [|k IH]; intros src n Hn.
  - exists []. split; [done|]. intros rest. simpl. by rewrite take_0.
  - destruct src as [|c src]; [done|]. simpl in *.
    destruct (Z.eqb_spec c 0) as [->|Hc].
    + eexists. split; [done|]. intros rest. by simpl.
    + destruct (strlen_bytes src) as [n'|] eqn:En; [|done].
      destruct (IH src n' En) as (w & -> & Hw).
      eexists. split; [done|]. intros rest. simpl.
      rewrite (proj2 (Z.eqb_neq c 0)) by done. by rewrite Hw.
Qed.

Lemma size_sub_small a b : 0 ≤ a - b < size_max → size_sub a b = a - b.
Proof. intros H. unfold size_sub. by rewrite Z.mod_small. Qed.

(** With a buffer of at least [bufsize] >= 1 bytes, given by its first byte
    and distinct from the element's string, [copy_out] leaves in it the first
    [bufsize - 1] bytes of the string, terminated; the element's string and
    every link are untouched. *)
Lemma copy_out_copies h x sp bufsize v src n d :
  sp ≠ 0 →
  elem_at (cells h) (list_entry x) = Some v →
  chars_at (cells h) v = Some src → strlen_bytes src = Some n →
  chars_at (cells h) sp = Some d → sp ≠ v →
  1 ≤ bufsize ≤ Z.of_nat (length d) → bufsize < size_max →
  ∃ h2 d',
    copy_out (list_entry x) sp bufsize h = Ok tt h2 ∧
    chars_at (cells h2) sp = Some d' ∧
    length d' = length d ∧
    cstr d' = take (Z.to_nat (bufsize - 1)) (cstr src) ∧
    drop (Z.to_nat bufsize) d' = drop (Z.to_nat bufsize) d ∧
    value_of h2 x = cstr src ∧
    (∀ p, node_at (cells h2) p = node_at (cells h) p).
Proof.
  intros Hsp Hv Hsrc Hn Hd Hne Hb Hmax.
  set (k := Z.to_nat (bufsize - 1)).
  destruct (strncpy_bytes_spec k src n Hn) as (w & Hw & Hcstr).
  pose proof (strncpy_bytes_length _ _ _ Hw) as Hlen.
  assert (k < length d)%nat as Hk by (unfold k; lia).
  destruct (drop k d) as [|c rest] eqn:Hdrop.
  { apply (f_equal length) in Hdrop. rewrite length_drop in Hdrop.
    simpl in Hdrop. lia. }
  assert (drop (S k) d = rest) as Hrest.
  { replace (S k) with (k + 1)%nat by lia.
    rewrite <- (drop_drop d 1 k), Hdrop. done. }
  assert (cells h !! sp = Some (CChars d)) as Hcsp.
  { unfold chars_at in Hd. case_decide; [done|].
    destruct (cells h !! sp) as [[]|]; naive_solver. }
  set (m1 := <[sp := CChars (w ++ c :: rest)]> (cells h)).
  set (h1 := set_cells h m1).
  set (h2 := set_cells h1 (<[sp := CChars (w ++ 0 :: rest)]> m1)).
  exists h2, (w ++ 0 :: rest). split; [|split; [|split; [|split; [|split; [|split]]]]].
  - unfold copy_out. rewrite (proj2 (Z.eqb_neq sp 0)) by done.
    rewrite size_sub_small by lia.
    erewrite bind_ok; [|apply load_value_ok; exact Hv].
    erewrite bind_ok.
    2:{ apply (strncpy_ok h sp v (bufsize - 1) d src w);
          [done|done|done|lia|exact Hw]. }
    fold k. rewrite Hdrop. fold m1 h1.
    rewrite (store_char_ok h1 sp (bufsize - 1) 0 (w ++ c :: rest)).
    + fold k. replace (<[k:=0]> (w ++ c :: rest)) with (w ++ 0 :: rest); [done|].
      rewrite insert_app_r_alt by lia.
      by replace (k - length w)%nat with 0%nat by lia.
    + simpl. unfold m1. by rewrite chars_at_insert_eq.
    + rewrite length_app. simpl. lia.
  - simpl. by rewrite chars_at_insert_eq.
  - rewrite !length_app, Hlen. simpl.
    apply (f_equal length) in Hdrop. rewrite length_drop in Hdrop.
    simpl in Hdrop. lia.
  - apply Hcstr.
  - replace (Z.to_nat bufsize) with (S k) by (unfold k; lia).
    rewrite Hrest. rewrite drop_app_ge by lia.
    replace (S k - length w)%nat with 1%nat by lia. done.
  - unfold value_of. simpl. unfold m1.
    rewrite !elem_at_insert_chars, Hv.
    + by rewrite !chars_at_insert_ne, Hsrc.
    + right. by eexists.
    + right. eexists. by rewrite lookup_insert_eq.
  - intros p. simpl. unfold m1. rewrite !node_at_insert_chars; try done.
    + right. by eexists.
    + right. eexists. by rewrite lookup_insert_eq.
Qed.

Lemma chars_at_not_null (m : gmap Z cell) b bs : chars_at m b = Some bs → b ≠ 0.
Proof. unfold chars_at. by case_decide. Qed.

(** The copy that ends a removal, run on the heap the unlinking left. *)
Lemma removed_copy h h1 head x l sp bufsize v src n d :
  relinked h h1 → is_queue h1 head l →
  elem_at (cells h) (list_entry x) = Some v →
  chars_at (cells h) v = Some src → strlen_bytes src = Some n →
  sp ≠ v → chars_at (cells h) sp = Some d →
  1 ≤ bufsize ≤ Z.of_nat (length d) → bufsize < size_max →
  ∃ h' d',
    (copy_out (list_entry x) sp bufsize ;; ret (list_entry x)) h1
    = Ok (list_entry x) h' ∧
    is_queue h' head l ∧
    value_of h' x = cstr src ∧
    chars_at (cells h') sp = Some d' ∧
    length d' = length d ∧
    cstr d' = take (Z.to_nat (bufsize - 1)) (cstr src) ∧
    drop (Z.to_nat bufsize) d' = drop (Z.to_nat bufsize) d.
Proof.
  intros Hrel Hq1 Hv Hsrc Hn Hne Hd Hb Hmax.
  pose proof (chars_at_not_null _ _ _ Hd) as Hsp.
  rewrite <- (relinked_elem_at _ _ _ Hrel) in Hv.
  rewrite <- (relinked_chars_at _ _ _ Hrel) in Hsrc.
  rewrite <- (relinked_chars_at _ _ _ Hrel) in Hd.
  destruct (copy_out_copies h1 x sp bufsize v src n d)
    as (h2 & d' & Hcopy & Hd' & Hlen & Hcstr & Hdrop & Hval & Hnode); try done.
  exists h2, d'. split; [by erewrite bind_ok; [|exact Hcopy]|].
  split; [|done].
  eapply is_queue_ext; [exact Hq1|]. intros y _.
  unfold nxt, prv. by rewrite Hnode.
Qed.

(** ** [q_delete_dup] *)

Lemma path_drop f p l q k :
  path f p l q → path f (hd q (drop k l)) (drop k l) q.
Proof.
  revert p k. induction l as [|x l IH]; intros p k Hp.
  - by rewrite drop_nil.
  - destruct k as [|k]; simpl.
    + destruct Hp as [-> Hp]. by split.
    + destruct Hp as [_ (n & _ & Hp)]. by eapply IH.
Qed.

(** The loop of [q_delete_dup] once [second] has left the sentinel: each
    iteration stores [second] in the sentinel's forward pointer, so the loop
    ends with the second-to-last node there. *)
Lemma q_delete_dup_loop_spec h head l :
  is_queue h head l → ∀ fuel j hj,
  (j < length l)%nat → (length l - j < fuel)%nat →
  relinked h hj →
  (∀ y, y ≠ head → nxt hj y = nxt h y) →
  ∃ h', q_delete_dup_loop fuel head head (hd head (drop j l)) hj = Ok tt h' ∧
        relinked h h' ∧
        (∀ y, y ≠ head → nxt h' y = nxt h y) ∧
        (∀ y, prv h' y = prv hj y) ∧
        nxt h' head = if decide (S j = length l) then nxt hj head
                      else Some (hd head (drop (length l - 2) l)).
Proof.
  intros Hq. pose proof Hq as (Hnd & [_ (? & Hn & Hf)] & _).
  pose proof (is_queue_next _ _ _ Hq) as Hn'.
  assert (x = hd head l) as -> by congruence. clear Hn'.
  assert (is_node h head) as Hnh by eauto with heap.
  induction fuel as [|fuel IH]; intros j hj Hj Hfuel Hrel Hnxt; [lia|].
  assert (hd head (drop j l) ≠ head) as Hjh.
  { rewrite (node_at_index_head head l Hnd j). lia. }
  pose proof (node_at_index_next h head l Hf j Hj) as Hnj. cbv beta in Hnj.
  cbn [q_delete_dup_loop].
  erewrite bind_ok; [|apply load_next_ok; rewrite Hnxt by done; exact Hnj].
  destruct (decide (S j = length l)) as [Hend|Hmore].
  - rewrite (proj2 (node_at_index_head head l Hnd (S j))) by lia.
    rewrite Z.eqb_refl. exists hj. do 3 (split; [done|]). by split.
  - rewrite eqb_ne by (rewrite (node_at_index_head head l Hnd (S j)); lia).
    assert (list_entry head ≠ list_entry (hd head (drop j l))) as Hle.
    { unfold list_entry. intros E. apply Hjh. lia. }
    rewrite (eqb_ne _ _ Hle). cbn [negb].
    assert (is_node hj head) as Hnhj by (by eapply relinked_is_node).
    set (h1 := upd_next head (hd head (drop j l)) hj).
    destruct (IH (S j) h1) as (h' & Hrun & Hrel' & Hnxt' & Hprv' & Hhead).
    { lia. } { lia. }
    { eapply relinked_trans; [exact Hrel|apply relinked_upd_next]. }
    { intros y Hy. unfold h1. rewrite nxt_upd_next_ne by done. by apply Hnxt. }
    exists h'. split; [|split; [done|split; [done|split]]].
    + mstore. fold h1. erewrite bind_ok; [exact Hrun|].
      apply load_next_ok. unfold h1. rewrite nxt_upd_next_ne by done.
      rewrite Hnxt by done. exact Hnj.
    + intros y. rewrite Hprv'. unfold h1. by heap_rw.
    + rewrite Hhead. destruct (decide (S (S j) = length l)) as [E|]; [|done].
      unfold h1. heap_rw. do 3 f_equal. lia.
Qed.

(** What [q_delete_dup] does to a well-formed queue: it returns true, frees
    nothing, and changes one link only, the sentinel's forward pointer, so
    that a forward traversal of a queue of two or more elements meets its
    last two elements. *)
Lemma q_delete_dup_spec h head l fuel :
  is_queue h head l → (length l + 1 < fuel)%nat →
  ∃ h', q_delete_dup fuel head h = Ok true h' ∧
        relinked h h' ∧
        (∀ y, y ≠ head → nxt h' y = nxt h y) ∧
        (∀ y, prv h' y = prv h y) ∧
        ((length l ≤ 1)%nat → nxt h' head = nxt h head) ∧
        ((2 ≤ length l)%nat →
         path (nxt h') head (head :: drop (length l - 2) l) head).
Proof.
  intros Hq Hfuel. pose proof Hq as (Hnd & [_ (? & Hn & Hf)] & _).
  pose proof (is_queue_next _ _ _ Hq) as Hn'.
  assert (x = hd head l) as -> by congruence. clear Hn'.
  assert (is_node h head) as Hnh by eauto with heap.
  pose proof (is_node_not_null _ _ Hnh) as Hh.
  destruct fuel as [|fuel]; [lia|].
  unfold q_delete_dup. rewrite eqb_ne by done. cbn [q_delete_dup_loop].
  destruct l as [|a l'].
  { exists h. simpl in Hn. split.
    - mload. by rewrite Z.eqb_refl.
    - split; [apply relinked_refl|]. do 3 (split; [done|]).
      simpl. lia. }
  set (l := a :: l') in *.
  assert (a ≠ head) as Hah.
  { intros ->. apply NoDup_cons in Hnd as [Hnd _]. apply Hnd. by left. }
  destruct (q_delete_dup_loop_spec h head l Hq fuel 0%nat h)
    as (h' & Hrun & Hrel & Hnxt & Hprv & Hhead).
  { simpl. lia. } { simpl in *. lia. } { apply relinked_refl. } { done. }
  exists h'. split; [|split; [done|split; [done|split; [done|split]]]].
  - mload. simpl hd. rewrite (eqb_ne a head) by done. rewrite Z.eqb_refl.
    cbn [negb]. rewrite !bind_assoc, bind_ret. mload. simpl hd.
    simpl in Hrun. erewrite bind_ok; [|exact Hrun]. done.
  - intros Hlen. rewrite Hhead. rewrite decide_True; [done|].
    simpl in *. lia.
  - intros Hlen. rewrite decide_False in Hhead by lia.
    split; [done|]. eexists. split; [exact Hhead|].
    eapply path_ext; [|exact (path_drop _ _ _ _ _ Hf)].
    intros y Hy. symmetry. apply Hnxt. intros ->.
    apply subseteq_drop in Hy.
    apply NoDup_cons in Hnd as [Hnd _]. done.
Qed.

(** ** Soundness of the checkers *)

Lemma path_b_sound f p l q : path_b f p l q = true → path f p l q.
Proof.
  revert p. induction l as [|x l IH]; intros p; simpl.
  - by intros ?%Z.eqb_eq.
  - intros [?%Z.eqb_eq H]%andb_true_iff. split; [done|].
    destruct (f x) as [n|]; [|done]. eauto.
Qed.

Lemma is_queue_b_sound h head l : is_queue_b h head l = true → is_queue h head l.
Proof.
  unfold is_queue_b.
  intros [[?%bool_decide_eq_true ?%path_b_sound]%andb_true_iff
          ?%path_b_sound]%andb_true_iff.
  done.
Qed.

(** * Main results *)

(** C7: [q_reverse] is an involution.  On a well-formed queue one call makes
    the forward order the exact reverse of the prior order, changing link
    fields only (no element is allocated or freed), and a second call
    restores the original order and every link. *)
Theorem q_reverse_involution h head l fuel :
  is_queue h head l → (length l < fuel)%nat →
  ∃ h1 h2,
    q_reverse fuel head h = Ok tt h1 ∧
    is_queue h1 head (reverse l) ∧
    relinked h h1 ∧
    q_reverse fuel head h1 = Ok tt h2 ∧
    is_queue h2 head l ∧
    (∀ x, nxt h2 x = nxt h x ∧ prv h2 x = prv h x).
Proof.
  intros Hq Hfuel.
  destruct (q_reverse_spec h head l fuel Hq Hfuel)
    as (h1 & Hrun1 & Hrel1 & Hin1 & Hout1).
  pose proof (reversed_is_queue _ _ _ _ Hq Hin1) as Hq1.
  destruct (q_reverse_spec h1 head (reverse l) fuel Hq1)
    as (h2 & Hrun2 & Hrel2 & Hin2 & Hout2).
  { by rewrite length_reverse. }
  pose proof (reversed_is_queue _ _ _ _ Hq1 Hin2) as Hq2.
  rewrite reverse_involutive in Hq2.
  exists h1, h2. do 5 (split; [done|]). intros x. split.
  - destruct (decide (x ∈ head :: l)) as [Hx|Hx].
    + destruct (Hin1 x Hx) as [_ <-]. apply Hin2.
      rewrite elem_of_cons, elem_of_reverse, <- elem_of_cons. done.
    + destruct (Hout1 x Hx) as [<- _]. apply Hout2.
      rewrite elem_of_cons, elem_of_reverse, <- elem_of_cons. done.
  - destruct (decide (x ∈ head :: l)) as [Hx|Hx].
    + destruct (Hin1 x Hx) as [<- _]. apply Hin2.
      rewrite elem_of_cons, elem_of_reverse, <- elem_of_cons. done.
    + destruct (Hout1 x Hx) as [_ <-]. apply Hout2.
      rewrite elem_of_cons, elem_of_reverse, <- elem_of_cons. done.
Qed.

Lemma q_reverse_involution_witness :
  let ss := ["x"; "y"; "z"]%string in
  ∃ h1 h2,
    q_reverse 4 (built_head ss) (built_heap ss) = Ok tt h1 ∧
    is_queue h1 (built_head ss) (reverse [1064; 1112; 1160]) ∧
    relinked (built_heap ss) h1 ∧
    q_reverse 4 (built_head ss) h1 = Ok tt h2 ∧
    is_queue h2 (built_head ss) [1064; 1112; 1160] ∧
    (∀ x, nxt h2 x = nxt (built_heap ss) x ∧ prv h2 x = prv (built_heap ss) x).
Proof.
  apply (q_reverse_involution (built_heap ["x"; "y"; "z"]%string)
           (built_head ["x"; "y"; "z"]%string) [1064; 1112; 1160] 4).
  - apply is_queue_b_sound. vm_compute. reflexivity.
  - simpl. lia.
Defined.

(** C8: on a well-formed queue [q_swap] exchanges the members of each
    adjacent pair by relinking their nodes (no payload moves, nothing is
    allocated or freed), keeps the list circular and doubly linked, and
    leaves an unpaired last element in place; five elements [A,B,C,D,E]
    become [B,A,D,C,E]. *)
Theorem q_swap_pairs h head l fuel :
  is_queue h head l → (length l < fuel)%nat →
  ∃ h', q_swap fuel head h = Ok tt h' ∧
        is_queue h' head (swap_pairs l) ∧
        relinked h h' ∧
        (∀ x, value_of h' x = value_of h x) ∧
        (∀ a b c d e, l = [a; b; c; d; e] → swap_pairs l = [b; a; d; c; e]) ∧
        (∀ i x, (Nat.Odd (length l)) → S i = length l →
                l !! i = Some x → swap_pairs l !! i = Some x).
Proof.
  intros Hq Hfuel.
  destruct (q_swap_spec h head l fuel Hq Hfuel) as (h' & Hrun & Hq' & Hrel).
  exists h'. do 3 (split; [done|]). split; [|split].
  - intros x. by apply relinked_value_of.
  - by intros a b c d e ->.
  - clear. induction l as [|a|a b l IH] using pair_ind; intros i x Hodd Hi Hx.
    + done.
    + done.
    + destruct Hodd as [k Hk]. simpl in Hi, Hk.
      destruct i as [|[|i]]; [lia|lia|].
      simpl in *. apply IH; [|lia|done]. exists (k - 1)%nat. lia.
Qed.

Lemma q_swap_pairs_witness :
  let ss := ["A"; "B"; "C"; "D"; "E"]%string in
  let l := [1576; 1624; 1672; 1720; 1768] in
  ∃ h', q_swap 6 (built_head ss) (built_heap ss) = Ok tt h' ∧
        is_queue h' (built_head ss) (swap_pairs l) ∧
        relinked (built_heap ss) h' ∧
        (∀ x, value_of h' x = value_of (built_heap ss) x) ∧
        (∀ a b c d e, l = [a; b; c; d; e] → swap_pairs l = [b; a; d; c; e]) ∧
        (∀ i x, (Nat.Odd (length l)) → S i = length l →
                l !! i = Some x → swap_pairs l !! i = Some x).
Proof.
  apply (q_swap_pairs (built_heap ["A"; "B"; "C"; "D"; "E"]%string)
           (built_head ["A"; "B"; "C"; "D"; "E"]%string)
           [1576; 1624; 1672; 1720; 1768] 6).
  - apply is_queue_b_sound. vm_compute. reflexivity.
  - simpl. lia.
Defined.

(** C5: after [q_sort] on a well-formed queue of terminated strings the
    queue holds the same elements with the same strings (only link fields
    have changed), and every adjacent pair of the forward order is in
    lexical order; [q_sort] returns at once, changing nothing, when the queue
    is absent, empty or holds one element. *)
Theorem q_sort_sorted h head l fuel :
  is_queue h head l → (∀ x, x ∈ l → has_string h x) →
  (length l + 2 ≤ fuel)%nat →
  (∃ h' r, q_sort fuel head h = Ok tt h' ∧
           is_queue h' head r ∧
           r ≡ₚ l ∧
           relinked h h' ∧
           (∀ x, value_of h' x = value_of h x) ∧
           Sorted lex_le (value_of h' <$> r) ∧
           (∀ i a b, r !! i = Some a → r !! S i = Some b →
                     lex_le (value_of h' a) (value_of h' b))) ∧
  q_sort fuel NULL h = Ok tt h ∧
  ((length l ≤ 1)%nat → q_sort fuel head h = Ok tt h).
Proof.
  intros Hq Hstr Hfuel. split; [|split; [done|by apply q_sort_small]].
  destruct (q_sort_spec h head l fuel Hq Hstr Hfuel)
    as (h' & r & Hrun & Hq' & Hperm & Hsorted & Hrel).
  exists h', r. do 4 (split; [done|]).
  split; [intros x; by apply relinked_value_of|]. split.
  - by eapply Sorted_val_le_fmap.
  - intros i a b Ha Hb.
    pose proof (Sorted_adjacent _ _ _ _ _ Hsorted Ha Hb) as Hab.
    unfold val_le in Hab. by rewrite !(relinked_value_of _ _ _ Hrel).
Qed.

Lemma q_sort_sorted_witness :
  let ss := ["d"; "b"; "e"; "a"; "c"; "b"]%string in
  let h := built_heap ss in
  let head := built_head ss in
  (∃ h' r, q_sort 8 head h = Ok tt h' ∧
           is_queue h' head r ∧
           r ≡ₚ built_nodes ss ∧
           relinked h h' ∧
           (∀ x, value_of h' x = value_of h x) ∧
           Sorted lex_le (value_of h' <$> r) ∧
           (∀ i a b, r !! i = Some a → r !! S i = Some b →
                     lex_le (value_of h' a) (value_of h' b))) ∧
  q_sort 8 NULL h = Ok tt h ∧
  ((length (built_nodes ss) ≤ 1)%nat → q_sort 8 head h = Ok tt h).
Proof.
  apply (q_sort_sorted (built_heap ["d"; "b"; "e"; "a"; "c"; "b"]%string)
           (built_head ["d"; "b"; "e"; "a"; "c"; "b"]%string)
           (built_nodes ["d"; "b"; "e"; "a"; "c"; "b"]%string) 8).
  - apply is_queue_b_sound. vm_compute. reflexivity.
  - apply has_string_b_sound. vm_compute. reflexivity.
  - vm_compute. lia.
Defined.

(** C10: [q_sort] on a well-formed non-empty queue keeps the elements (the
    nodes after the sort are a permutation of the nodes before, only link
    fields change, nothing is allocated or freed) and restores the circular
    doubly-linked invariant: the forward chain from the sentinel returns to
    the sentinel and every node's backward pointer is its forward
    predecessor. *)
Theorem q_sort_preserves h head l fuel :
  is_queue h head l → l ≠ [] → (∀ x, x ∈ l → has_string h x) →
  (length l + 2 ≤ fuel)%nat →
  ∃ h' r, q_sort fuel head h = Ok tt h' ∧
          r ≡ₚ l ∧
          relinked h h' ∧
          dom (cells h') = dom (cells h) ∧
          (∀ x, value_of h' x = value_of h x) ∧
          is_queue h' head r ∧
          path (nxt h') head (head :: r) head ∧
          (∀ a b, a ∈ head :: r → nxt h' a = Some b → prv h' b = Some a).
Proof.
  intros Hq _ Hstr Hfuel.
  destruct (q_sort_spec h head l fuel Hq Hstr Hfuel)
    as (h' & r & Hrun & Hq' & Hperm & Hsorted & Hrel).
  exists h', r. do 3 (split; [done|]).
  split; [by apply relinked_dom|].
  split; [intros x; by apply relinked_value_of|].
  split; [done|]. split; [by destruct Hq' as (_ & ? & _)|].
  intros a b. by apply is_queue_back.
Qed.

Lemma q_sort_preserves_witness :
  let ss := ["d"; "b"; "e"; "a"; "c"; "b"]%string in
  let h := built_heap ss in
  let head := built_head ss in
  ∃ h' r, q_sort 8 head h = Ok tt h' ∧
          r ≡ₚ built_nodes ss ∧
          relinked h h' ∧
          dom (cells h') = dom (cells h) ∧
          (∀ x, value_of h' x = value_of h x) ∧
          is_queue h' head r ∧
          path (nxt h') head (head :: r) head ∧
          (∀ a b, a ∈ head :: r → nxt h' a = Some b → prv h' b = Some a).
Proof.
  apply (q_sort_preserves (built_heap ["d"; "b"; "e"; "a"; "c"; "b"]%string)
           (built_head ["d"; "b"; "e"; "a"; "c"; "b"]%string)
           (built_nodes ["d"; "b"; "e"; "a"; "c"; "b"]%string) 8).
  - apply is_queue_b_sound. vm_compute. reflexivity.
  - vm_compute. discriminate.
  - apply has_string_b_sound. vm_compute. reflexivity.
  - vm_compute. lia.
Defined.

(** C4, as the code has it: the merge step takes the head of the first
    chain only when it is strictly smaller, so when the two heads compare
    equal the element of the second chain is appended first and the sort is
    not stable; sorting an already-sorted queue yields the same sequence of
    strings (equal strings may change places). *)
Theorem merge_ties_take_second h x y l1 l2 fuel hq head l fuelq :
  path (nxt h) x (x :: l1) 0 → path (nxt h) y (y :: l2) 0 →
  NoDup ((x :: l1) ++ y :: l2) →
  (∀ z, z ∈ (x :: l1) ++ y :: l2 → has_string h z) →
  value_of h x = value_of h y →
  (length (x :: l1) + length (y :: l2) < fuel)%nat →
  is_queue hq head l → (∀ z, z ∈ l → has_string hq z) →
  Sorted lex_le (value_of hq <$> l) →
  (length l + 2 ≤ fuelq)%nat →
  (∃ h', merge fuel x y h = Ok y h' ∧
         path (nxt h') y (y :: list_merge (val_lt h) (x :: l1) l2) 0) ∧
  (∃ h' r, q_sort fuelq head hq = Ok tt h' ∧
           is_queue h' head r ∧
           r ≡ₚ l ∧
           value_of h' <$> r = value_of hq <$> l).
Proof.
  intros Hx Hy Hnd Hstr Heq Hfuel Hq Hstrq Hsorted Hfuelq. split.
  - destruct (merge_spec h h (x :: l1) (y :: l2) x y fuel)
      as (h' & Hrun & Hp & _); try done.
    rewrite list_merge_cons in Hrun, Hp.
    rewrite decide_False in Hrun, Hp.
    2,3: unfold val_lt, lex_lt; rewrite Heq; by intros [].
    by exists h'.
  - destruct (q_sort_spec hq head l fuelq Hq Hstrq Hfuelq)
      as (h' & r & Hrun & Hq' & Hperm & Hs & Hrel).
    exists h', r. do 3 (split; [done|]).
    apply (Sorted_unique lex_le); [by eapply Sorted_val_le_fmap|done|].
    assert (value_of h' <$> r = value_of hq <$> r) as ->.
    { apply list_fmap_ext. intros i z _. by apply relinked_value_of. }
    by rewrite Hperm.
Qed.

Lemma merge_ties_take_second_witness :
  let ss := ["a"; "a"]%string in
  (∃ h', merge 3 808 856 two_chains = Ok 856 h' ∧
         path (nxt h') 856 (856 :: list_merge (val_lt two_chains) [808] []) 0) ∧
  (∃ h' r, q_sort 4 (built_head ss) (built_heap ss) = Ok tt h' ∧
           is_queue h' (built_head ss) r ∧
           r ≡ₚ built_nodes ss ∧
           value_of h' <$> r = value_of (built_heap ss) <$> built_nodes ss).
Proof.
  apply (merge_ties_take_second two_chains 808 856 [] [] 3
           (built_heap ["a"; "a"]%string) (built_head ["a"; "a"]%string)
           (built_nodes ["a"; "a"]%string) 4).
  - apply path_b_sound. vm_compute. reflexivity.
  - apply path_b_sound. vm_compute. reflexivity.
  - apply (bool_decide_unpack _). vm_compute. exact I.
  - apply has_string_b_sound. vm_compute. reflexivity.
  - vm_compute. reflexivity.
  - simpl. lia.
  - apply is_queue_b_sound. vm_compute. reflexivity.
  - apply has_string_b_sound. vm_compute. reflexivity.
  - apply (bool_decide_unpack _). vm_compute. exact I.
  - vm_compute. lia.
Defined.

(** C4 fails as stated: on the sorted queue ["a"; "a"] the merge step puts
    the second node first, and [q_sort] exchanges the two elements. *)
Lemma q_sort_not_stable :
  let ss := ["a"; "a"]%string in
  built_nodes ss = [808; 856] ∧
  value_of (built_heap ss) 808 = value_of (built_heap ss) 856 ∧
  order_after (built_head ss) (q_sort 4 (built_head ss) (built_heap ss))
    = Some [856; 808] ∧
  match merge 3 808 856 two_chains with
  | Ok new_head h' => new_head = 856 ∧ nxt h' 856 = Some 808
  | _ => False
  end.
Proof. vm_compute. repeat split; reflexivity. Qed.

(** C6: on a non-empty queue of [n] elements [q_delete_mid] unlinks the
    element at 0-based position [n/2] of the forward order (the fourth of
    six, the only one of one), releases it and its string, and returns true;
    on an absent or an empty queue it returns false and changes nothing. *)
Theorem q_delete_mid_middle h head l fuel :
  is_queue h head l → (∀ x, x ∈ l → has_string h x) →
  (length l < fuel)%nat →
  q_delete_mid fuel NULL h = Ok false h ∧
  (l = [] → q_delete_mid fuel head h = Ok false h) ∧
  (l ≠ [] →
   ∃ h' mid v,
     l !! (length l / 2)%nat = Some mid ∧
     elem_at (cells h) (list_entry mid) = Some v ∧
     q_delete_mid fuel head h = Ok true h' ∧
     is_queue h' head (delete (length l / 2)%nat l) ∧
     cells h' !! list_entry mid = None ∧
     cells h' !! v = None ∧
     brk h' = brk h ∧ oracle h' = oracle h ∧
     (∀ a, a ≠ list_entry mid → a ≠ v →
           unlink <$> cells h' !! a = unlink <$> cells h !! a)) ∧
  (∀ a b c d e f, l = [a; b; c; d; e; f] →
     l !! (length l / 2)%nat = Some d ∧
     delete (length l / 2)%nat l = [a; b; c; e; f]) ∧
  (∀ a, l = [a] → delete (length l / 2)%nat l = []).
Proof.
  intros Hq Hstr Hfuel. split; [done|]. split; [|split; [|split]].
  - intros ->. pose proof (is_queue_next _ _ _ Hq) as Hn. simpl in Hn.
    assert (head ≠ 0) as Hh.
    { apply (is_node_not_null h). eauto with heap. }
    unfold q_delete_mid, list_empty. rewrite eqb_ne by done.
    mload. by rewrite bind_ret, Z.eqb_refl.
  - intros Hl. by apply q_delete_mid_spec.
  - by intros a b c d e f ->.
  - by intros a ->.
Qed.

Lemma q_delete_mid_middle_witness :
  let ss := ["A"; "B"; "C"; "D"; "E"; "F"]%string in
  let h := built_heap ss in
  let head := built_head ss in
  let l := built_nodes ss in
  q_delete_mid 7 NULL h = Ok false h ∧
  (l = [] → q_delete_mid 7 head h = Ok false h) ∧
  (l ≠ [] →
   ∃ h' mid v,
     l !! (length l / 2)%nat = Some mid ∧
     elem_at (cells h) (list_entry mid) = Some v ∧
     q_delete_mid 7 head h = Ok true h' ∧
     is_queue h' head (delete (length l / 2)%nat l) ∧
     cells h' !! list_entry mid = None ∧
     cells h' !! v = None ∧
     brk h' = brk h ∧ oracle h' = oracle h ∧
     (∀ a, a ≠ list_entry mid → a ≠ v →
           unlink <$> cells h' !! a = unlink <$> cells h !! a)) ∧
  (∀ a b c d e f, l = [a; b; c; d; e; f] →
     l !! (length l / 2)%nat = Some d ∧
     delete (length l / 2)%nat l = [a; b; c; e; f]) ∧
  (∀ a, l = [a] → delete (length l / 2)%nat l = []).
Proof.
  apply (q_delete_mid_middle
           (built_heap ["A"; "B"; "C"; "D"; "E"; "F"]%string)
           (built_head ["A"; "B"; "C"; "D"; "E"; "F"]%string)
           (built_nodes ["A"; "B"; "C"; "D"; "E"; "F"]%string) 7).
  - apply is_queue_b_sound. vm_compute. reflexivity.
  - apply has_string_b_sound. vm_compute. reflexivity.
  - vm_compute. lia.
Defined.

(** C9: a successful [q_insert_head] stores an exact copy of the string [s],
    terminator included, in a buffer of its own, at the head of the queue;
    [q_remove_head] called next returns that same element, unlinked, and its
    stored string still equals [s]: both without an output buffer and with
    an output buffer of at least [bufsize] >= 1 bytes that is not the
    element's own string, which then holds the first [bufsize - 1] bytes of
    [s], terminated. *)
Theorem insert_head_remove_head h head l s bs n h1 :
  heap_ok h → is_queue h head l →
  chars_at (cells h) s = Some bs → strlen_bytes bs = Some n →
  q_insert_head head s h = Ok true h1 →
  ∃ e v,
    is_queue h1 head (list_of e :: l) ∧
    elem_at (cells h1) e = Some v ∧
    v ≠ s ∧
    chars_at (cells h1) v = Some (cstr bs ++ [0]) ∧
    chars_at (cells h1) s = Some bs ∧
    value_of h1 (list_of e) = cstr bs ∧
    (∀ bufsize, ∃ h2,
        q_remove_head head NULL bufsize h1 = Ok e h2 ∧
        is_queue h2 head l ∧
        value_of h2 (list_of e) = cstr bs) ∧
    (∀ sp bufsize d,
        chars_at (cells h1) sp = Some d → sp ≠ v →
        1 ≤ bufsize ≤ Z.of_nat (length d) → bufsize < size_max →
        ∃ h2 d',
          q_remove_head head sp bufsize h1 = Ok e h2 ∧
          is_queue h2 head l ∧
          value_of h2 (list_of e) = cstr bs ∧
          chars_at (cells h2) sp = Some d' ∧
          cstr d' = take (Z.to_nat (bufsize - 1)) (cstr bs)).
Proof.
  intros Hok Hq Hs Hn Hrun.
  assert (head ≠ 0) as Hh.
  { apply (is_node_not_null h). eapply is_queue_nodes; [exact Hq|by left]. }
  destruct (oracle h) as [|[j1|] o1] eqn:Ho.
  1,3: destruct (q_insert_head_no_shell h head s Hh) as (? & Hf & _);
       [rewrite Ho; eauto|congruence].
  destruct o1 as [|[j2|] o].
  1,3: destruct (q_insert_head_no_buffer h head s bs n j1 _ Hok Hh Hs Hn Ho)
         as (? & Hf & _); [eauto|congruence].
  destruct (q_insert_head_spec h head l s bs n j1 j2 o Hok Hq Hs Hn Ho)
    as (h' & Hrun' & Hq1 & He & Hv & Hs1 & Hne).
  rewrite Hrun in Hrun'. injection Hrun' as <-.
  set (e := brk h) in *. set (v := brk h + 32) in *.
  assert (list_entry (list_of e) = e) as Ele
    by (unfold list_entry, list_of; lia).
  assert (value_of h1 (list_of e) = cstr bs) as Hval.
  { unfold value_of. rewrite Ele, He, Hv.
    apply cstr_terminated, cstr_nonzero. }
  destruct (q_remove_head_unlink h1 head (list_of e) l Hq1)
    as (h2 & Hrel2 & Hq2 & Hrem).
  rewrite Ele in Hrem.
  exists e, v. do 6 (split; [done|]). split.
  - intros bufsize. exists h2. rewrite Hrem. split; [done|]. split; [done|].
    by rewrite (relinked_value_of _ _ _ Hrel2).
  - intros sp bufsize d Hd Hsv Hb Hmax.
    pose proof (cstr_terminated _ (cstr_nonzero bs)) as Hc.
    destruct (removed_copy h1 h2 head (list_of e) l sp bufsize v
                (cstr bs ++ [0]) (Z.of_nat (length (cstr bs))) d)
      as (h3 & d' & Hrun3 & Hq3 & Hval3 & Hd' & _ & Hcopy & _); try done.
    { by rewrite Ele. }
    { apply strlen_bytes_terminated, cstr_nonzero. }
    rewrite Ele in Hrun3. rewrite Hc in Hval3, Hcopy.
    exists h3, d'. by rewrite Hrem.
Qed.

Lemma insert_head_remove_head_witness :
  let h := with_oracle (built_heap ["x"; "y"]%string) [Some 85; Some 85] in
  let head := built_head ["x"; "y"]%string in
  let l := built_nodes ["x"; "y"]%string in
  let h1 := match q_insert_head head 512 h with Ok _ h1 => h1 | _ => h end in
  ∃ e v,
    is_queue h1 head (list_of e :: l) ∧
    elem_at (cells h1) e = Some v ∧
    v ≠ 512 ∧
    chars_at (cells h1) v = Some (cstr (c_bytes "y") ++ [0]) ∧
    chars_at (cells h1) 512 = Some (c_bytes "y") ∧
    value_of h1 (list_of e) = cstr (c_bytes "y") ∧
    (∀ bufsize, ∃ h2,
        q_remove_head head NULL bufsize h1 = Ok e h2 ∧
        is_queue h2 head l ∧
        value_of h2 (list_of e) = cstr (c_bytes "y")) ∧
    (∀ sp bufsize d,
        chars_at (cells h1) sp = Some d → sp ≠ v →
        1 ≤ bufsize ≤ Z.of_nat (length d) → bufsize < size_max →
        ∃ h2 d',
          q_remove_head head sp bufsize h1 = Ok e h2 ∧
          is_queue h2 head l ∧
          value_of h2 (list_of e) = cstr (c_bytes "y") ∧
          chars_at (cells h2) sp = Some d' ∧
          cstr d' = take (Z.to_nat (bufsize - 1)) (cstr (c_bytes "y"))).
Proof.
  apply (insert_head_remove_head
           (with_oracle (built_heap ["x"; "y"]%string) [Some 85; Some 85])
           (built_head ["x"; "y"]%string) (built_nodes ["x"; "y"]%string)
           512 (c_bytes "y") 1).
  - apply (bool_decide_unpack _). vm_compute. exact I.
  - apply is_queue_b_sound. vm_compute. reflexivity.
  - vm_compute. reflexivity.
  - vm_compute. reflexivity.
  - vm_compute. reflexivity.
Defined.

(** C1 fails on the code: [q_delete_dup] never compares two strings and
    releases nothing.  It only redirects the sentinel's forward pointer, so
    on the sorted queue ["a"; "b"; "b"; "c"] a forward traversal afterwards
    meets ["b"; "c"]: the unique "a" is lost and a duplicate "b" stays.
    The return value is true, as claimed. *)
Theorem q_delete_dup_keeps_duplicate :
  let ss := ["a"; "b"; "b"; "c"]%string in
  let h := built_heap ss in
  let head := built_head ss in
  is_queue h head (built_nodes ss) ∧
  contents 64 h head = strings ss ∧
  match q_delete_dup 5 head h with
  | Ok r h' =>
      r = true ∧
      contents 64 h' head = strings ["b"; "c"]%string ∧
      dom (cells h') = dom (cells h)
  | _ => False
  end.
Proof.
  split; [apply is_queue_b_sound; vm_compute; reflexivity|].
  vm_compute. repeat split; reflexivity.
Qed.

(** C2 fails on the code: [q_swap] and [q_reverse] read [head->next] before
    any test, so on an absent queue they dereference [NULL]. *)
Theorem q_swap_q_reverse_null_fault fuel h :
  q_swap fuel NULL h = Fault ∧ q_reverse fuel NULL h = Fault.
Proof. split; reflexivity. Qed.

(** The other operations do test for an absent queue. *)
Lemma null_queue_handled fuel s sp bufsize h :
  q_free fuel NULL h = Ok tt h ∧
  q_insert_head NULL s h = Ok false h ∧
  q_insert_tail NULL s h = Ok false h ∧
  q_remove_head NULL sp bufsize h = Ok NULL h ∧
  q_remove_tail NULL sp bufsize h = Ok NULL h ∧
  q_size fuel NULL h = Ok 0 h ∧
  q_delete_mid fuel NULL h = Ok false h ∧
  q_delete_dup fuel NULL h = Ok false h ∧
  q_sort fuel NULL h = Ok tt h.
Proof. repeat split; reflexivity. Qed.

(** [q_insert_tail] does not test the result of its second allocation: when
    the buffer is refused it copies the string through a [NULL] pointer. *)
Lemma q_insert_tail_no_buffer h head s bs n j1 o1 :
  heap_ok h → head ≠ 0 →
  chars_at (cells h) s = Some bs → strlen_bytes bs = Some n →
  oracle h = Some j1 :: o1 → (o1 = [] ∨ ∃ o, o1 = None :: o) →
  q_insert_tail head s h = Fault.
Proof.
  intros Hok Hh Hs Hn Ho Ho1.
  pose proof (heap_ok_unfold _ Hok) as (Hbrk & Hlive & _).
  set (e := brk h).
  assert (cells h !! s = Some (CChars bs) ∧ s ≠ 0) as [Hcs Hs0].
  { unfold chars_at in Hs. case_decide; [done|].
    destruct (cells h !! s) as [[]|]; naive_solver. }
  pose proof (Hlive _ _ Hcs) as Hsb.
  assert (e ≠ 0 ∧ e ≠ s) as [He0 Hes] by (unfold e; lia).
  set (lh0 := LH j1 j1). set (mA := <[e := CElem j1 lh0]> (cells h)).
  assert (∃ o', (malloc_chars (size_add n 1))
            {| cells := mA; brk := e + block_span 24; oracle := o1 |}
          = Ok NULL {| cells := mA; brk := e + block_span 24; oracle := o' |})
    as [o' Hmalloc].
  { unfold malloc_chars, malloc. simpl.
    destruct Ho1 as [->|[o ->]]; eexists; reflexivity. }
  unfold q_insert_tail. rewrite eqb_ne by done. erewrite bind_ok.
  2:{ unfold malloc_element, malloc. rewrite Ho. reflexivity. }
  fold e lh0 mA. rewrite (eqb_ne e 0) by done.
  erewrite bind_ok.
  2:{ apply (strlen_ok _ _ bs); [|done]. simpl. unfold mA.
      by rewrite chars_at_insert_ne. }
  erewrite bind_ok; [|exact Hmalloc].
  erewrite bind_ok.
  2:{ unfold store_value. simpl. unfold mA at 1.
      rewrite elem_at_insert_eq by done. unfold put_elem.
      replace (mA !! e) with (Some (CElem j1 lh0))
        by (unfold mA; by rewrite lookup_insert_eq).
      reflexivity. }
  erewrite bind_ok.
  2:{ apply (strlen_ok _ _ bs); [|done]. simpl.
      rewrite chars_at_insert_ne by done.
      unfold mA. by rewrite chars_at_insert_ne. }
  erewrite bind_ok.
  2:{ apply load_value_ok. simpl. by apply elem_at_insert_eq. }
  reflexivity.
Qed.

(** C3 fails on the code for [q_insert_tail]: with the element shell
    allocated and the string buffer refused, [q_insert_head] releases the
    shell and returns false with the heap as it was, but [q_insert_tail]
    faults. *)
Theorem q_insert_tail_buffer_refused :
  let ss := ["a"]%string in
  let h := with_oracle (built_heap ss) [Some 85; None] in
  let head := built_head ss in
  heap_ok h ∧
  is_queue h head (built_nodes ss) ∧
  chars_at (cells h) 256 = Some (c_bytes "a") ∧
  q_insert_tail head 256 h = Fault ∧
  match q_insert_head head 256 h with
  | Ok r h' => r = false ∧ cells h' = cells h
  | _ => False
  end.
Proof.
  split; [apply (bool_decide_unpack _); vm_compute; exact I|].
  split; [apply is_queue_b_sound; vm_compute; reflexivity|].
  vm_compute. repeat split; reflexivity.
Qed.

(** * Further properties of the operations *)

(** ** [q_size] *)

Lemma int_wrap_small z : -2 ^ 31 ≤ z < 2 ^ 31 → int_wrap z = z.
Proof.
  intros Hz. unfold int_wrap. rewrite Z.mod_small; lia.
Qed.

Lemma q_size_loop_spec h head l fuel :
  NoDup (head :: l) → path (nxt h) (hd head l) l head →
  Z.of_nat (length l) < 2 ^ 31 → ∀ k,
  (k ≤ length l)%nat → (length l - k < fuel)%nat →
  q_size_loop fuel head (hd head (drop k l)) (Z.of_nat k) h
  = Ok (Z.of_nat (length l)) h.
Proof.
  intros Hnd Hf Hsmall. induction fuel as [|fuel IH]; intros k Hk Hfuel; [lia|].
  cbn [q_size_loop].
  destruct (decide (length l ≤ k)%nat) as [Hend|Hmore].
  - rewrite (proj2 (node_at_index_head head l Hnd k)) by done.
    rewrite Z.eqb_refl. unfold ret. do 2 f_equal. lia.
  - rewrite eqb_ne by (rewrite (node_at_index_head head l Hnd k); lia).
    pose proof (node_at_index_next h head l Hf k ltac:(lia)) as Hn.
    cbv beta in Hn. erewrite bind_ok; [|apply load_next_ok; exact Hn].
    rewrite int_wrap_small by lia.
    replace (Z.of_nat k + 1) with (Z.of_nat (S k)) by lia.
    apply IH; lia.
Qed.

Lemma q_size_spec h head l fuel :
  is_queue h head l → Z.of_nat (length l) < 2 ^ 31 →
  (length l < fuel)%nat →
  q_size fuel head h = Ok (Z.of_nat (length l)) h.
Proof.
  intros Hq Hsmall Hfuel. pose proof Hq as (Hnd & [_ (? & Hn & Hf)] & _).
  pose proof (is_queue_next _ _ _ Hq) as Hn'.
  assert (x = hd head l) as -> by congruence.
  assert (head ≠ 0) as Hh by (apply (is_node_not_null h); eauto with heap).
  unfold q_size, list_empty. rewrite eqb_ne by done. mload. rewrite bind_ret.
  destruct l as [|a l'].
  { simpl. by rewrite Z.eqb_refl. }
  assert (a ≠ head) as Hah.
  { intros ->. apply NoDup_cons in Hnd as [Hnd _]. apply Hnd. by left. }
  change (hd head (a :: l')) with a in *.
  rewrite (eqb_ne a head) by done. mload.
  exact (q_size_loop_spec h head (a :: l') fuel Hnd Hf Hsmall 0%nat
           ltac:(lia) ltac:(lia)).
Qed.

(** X1: on a well-formed queue of fewer than 2^31 elements [q_size] counts
    the elements and leaves the heap as it is; an empty queue has size 0. *)
Theorem q_size_counts h head l fuel :
  is_queue h head l → Z.of_nat (length l) < 2 ^ 31 →
  (length l < fuel)%nat →
  q_size fuel head h = Ok (Z.of_nat (length l)) h.
Proof. apply q_size_spec. Qed.

Lemma q_size_counts_witness :
  let ss := ["x"; "y"; "z"]%string in
  q_size 4 (built_head ss) (built_heap ss)
  = Ok (Z.of_nat (length (built_nodes ss))) (built_heap ss).
Proof.
  apply (q_size_counts (built_heap ["x"; "y"; "z"]%string)
           (built_head ["x"; "y"; "z"]%string)
           (built_nodes ["x"; "y"; "z"]%string) 4).
  - apply is_queue_b_sound. vm_compute. reflexivity.
  - vm_compute. reflexivity.
  - vm_compute. lia.
Defined.

(** ** [q_remove_head] and [q_remove_tail] *)

(** Unlinking a node and making it point to itself. *)
Lemma list_del_init_spec h head la x lb :
  is_queue h head (la ++ x :: lb) →
  ∃ h', list_del_init x h = Ok tt h' ∧
        is_queue h' head (la ++ lb) ∧
        relinked h h' ∧
        nxt h' x = Some x ∧ prv h' x = Some x.
Proof.
  intros Hq. pose proof Hq as (Hnd & _).
  assert (is_node h x) as Hnx.
  { eapply is_queue_nodes; [exact Hq|].
    rewrite elem_of_cons, elem_of_app, elem_of_cons. auto. }
  assert (x ∉ head :: la ++ lb) as Hx.
  { rewrite app_comm_cons in Hnd. apply NoDup_app in Hnd as (_ & Hd & Hd').
    apply NoDup_cons in Hd' as [Hd' _].
    rewrite app_comm_cons, elem_of_app. intros [Hin|Hin]; [|done].
    apply (Hd _ Hin). by left. }
  destruct (list_del_spec h head la x lb Hq) as (h1 & Hdel & Hq1 & Hrel1 & _).
  assert (is_node h1 x) as Hnx1 by (by eapply relinked_is_node).
  set (h2 := upd_prev x x (upd_next x x h1)).
  exists h2. split; [|split; [|split; [|split]]].
  - unfold list_del_init, INIT_LIST_HEAD.
    erewrite bind_ok; [|exact Hdel]. mstore. apply store_prev_ok. heap_node.
  - eapply is_queue_ext; [exact Hq1|]. intros y Hy.
    assert (x ≠ y) by (by intros ->). unfold h2. by heap_rw.
  - eapply relinked_trans; [exact Hrel1|]. unfold h2.
    eapply relinked_trans; [apply relinked_upd_next|apply relinked_upd_prev].
  - unfold h2. by heap_rw.
  - unfold h2. by heap_rw.
Qed.

Lemma list_of_list_entry x : list_of (list_entry x) = x.
Proof. unfold list_of, list_entry. lia. Qed.

Lemma is_queue_head_not_null h head l : is_queue h head l → head ≠ 0.
Proof.
  intros Hq. apply (is_node_not_null h).
  eapply is_queue_nodes; [exact Hq|by left].
Qed.

Lemma is_queue_first_not_head h head x l : is_queue h head (x :: l) → x ≠ head.
Proof.
  intros (Hnd & _) ->. apply NoDup_cons in Hnd as [Hnd _]. apply Hnd. by left.
Qed.

(** The list part of [q_remove_head] and of [q_remove_tail]: what is left to
    run is the copy to [sp]. *)
Lemma q_remove_head_run h head x l :
  is_queue h head (x :: l) →
  ∃ h1, relinked h h1 ∧ is_queue h1 head l ∧
        nxt h1 x = Some x ∧ prv h1 x = Some x ∧
        ∀ sp bufsize,
          q_remove_head head sp bufsize h
          = (copy_out (list_entry x) sp bufsize ;; ret (list_entry x)) h1.
Proof.
  intros Hq. pose proof (is_queue_next _ _ _ Hq) as Hn. simpl in Hn.
  pose proof (is_queue_head_not_null _ _ _ Hq) as Hh.
  pose proof (is_queue_first_not_head _ _ _ _ Hq) as Hxh.
  destruct (list_del_init_spec h head [] x l Hq)
    as (h1 & Hdel & Hq1 & Hrel1 & Hnx & Hpx).
  exists h1. do 4 (split; [done|]). intros sp bufsize.
  unfold q_remove_head, list_empty. rewrite eqb_ne by done.
  mload. rewrite bind_ret, eqb_ne by done. mload.
  rewrite list_of_list_entry, ?bind_assoc. by erewrite bind_ok; [|exact Hdel].
Qed.

Lemma q_remove_tail_run h head l x :
  is_queue h head (l ++ [x]) →
  ∃ h1, relinked h h1 ∧ is_queue h1 head l ∧
        nxt h1 x = Some x ∧ prv h1 x = Some x ∧
        ∀ sp bufsize,
          q_remove_tail head sp bufsize h
          = (copy_out (list_entry x) sp bufsize ;; ret (list_entry x)) h1.
Proof.
  intros Hq. pose proof (is_queue_next _ _ _ Hq) as Hn.
  pose proof (is_queue_prev _ _ _ Hq) as Hp.
  rewrite reverse_snoc in Hp. simpl in Hp.
  pose proof (is_queue_head_not_null _ _ _ Hq) as Hh.
  assert (hd head (l ++ [x]) ≠ head) as Hne.
  { pose proof Hq as (Hnd & _). apply NoDup_cons in Hnd as [Hnd _].
    intros E. apply Hnd. rewrite <- E at 1.
    destruct l; simpl; by left. }
  destruct (list_del_init_spec h head l x [] Hq)
    as (h1 & Hdel & Hq1 & Hrel1 & Hnx & Hpx).
  rewrite app_nil_r in Hq1.
  exists h1. do 4 (split; [done|]). intros sp bufsize.
  unfold q_remove_tail, list_empty. rewrite eqb_ne by done.
  mload. rewrite bind_ret, eqb_ne by done. mload.
  rewrite list_of_list_entry, ?bind_assoc. by erewrite bind_ok; [|exact Hdel].
Qed.

Lemma q_remove_empty h head sp bufsize :
  is_queue h head [] →
  q_remove_head head sp bufsize h = Ok NULL h ∧
  q_remove_tail head sp bufsize h = Ok NULL h.
Proof.
  intros Hq. pose proof (is_queue_next _ _ _ Hq) as Hn. simpl in Hn.
  pose proof (is_queue_head_not_null _ _ _ Hq) as Hh.
  unfold q_remove_head, q_remove_tail, list_empty. rewrite eqb_ne by done.
  split; mload; by rewrite bind_ret, Z.eqb_refl.
Qed.

(** X2: [q_remove_head] on an empty queue returns [NULL] and changes
    nothing; on a non-empty queue, with no output buffer, it returns the
    first element, unlinked: the rest of the queue is a well-formed queue,
    the removed node points to itself both ways, and no block is freed or
    changed apart from link fields. *)
Theorem q_remove_head_first h head l bufsize :
  is_queue h head l →
  match l with
  | [] => q_remove_head head NULL bufsize h = Ok NULL h
  | x :: l' =>
      ∃ h', q_remove_head head NULL bufsize h = Ok (list_entry x) h' ∧
            is_queue h' head l' ∧
            relinked h h' ∧
            nxt h' x = Some x ∧ prv h' x = Some x ∧
            value_of h' x = value_of h x
  end.
Proof.
  intros Hq. destruct l as [|x l'].
  - by apply q_remove_empty.
  - destruct (q_remove_head_run h head x l' Hq)
      as (h1 & Hrel & Hq1 & Hnx & Hpx & Hrun).
    exists h1. rewrite Hrun. do 5 (split; [done|]).
    by apply relinked_value_of.
Qed.

Lemma q_remove_head_first_witness :
  let ss := ["x"; "y"; "z"]%string in
  match built_nodes ss with
  | [] => q_remove_head (built_head ss) NULL 8 (built_heap ss)
          = Ok NULL (built_heap ss)
  | x :: l' =>
      ∃ h', q_remove_head (built_head ss) NULL 8 (built_heap ss)
            = Ok (list_entry x) h' ∧
            is_queue h' (built_head ss) l' ∧
            relinked (built_heap ss) h' ∧
            nxt h' x = Some x ∧ prv h' x = Some x ∧
            value_of h' x = value_of (built_heap ss) x
  end.
Proof.
  apply (q_remove_head_first (built_heap ["x"; "y"; "z"]%string)
           (built_head ["x"; "y"; "z"]%string)
           (built_nodes ["x"; "y"; "z"]%string) 8).
  apply is_queue_b_sound. vm_compute. reflexivity.
Defined.

(** X3: [q_remove_tail] on an empty queue returns [NULL] and changes
    nothing; on a non-empty queue, with no output buffer, it returns the
    last element, unlinked, and the elements before it stay a well-formed
    queue in the same order. *)
Theorem q_remove_tail_last h head l bufsize :
  is_queue h head l →
  (l = [] → q_remove_tail head NULL bufsize h = Ok NULL h) ∧
  (∀ l' x, l = l' ++ [x] →
     ∃ h', q_remove_tail head NULL bufsize h = Ok (list_entry x) h' ∧
           is_queue h' head l' ∧
           relinked h h' ∧
           nxt h' x = Some x ∧ prv h' x = Some x ∧
           value_of h' x = value_of h x).
Proof.
  intros Hq. split.
  - intros ->. by apply q_remove_empty.
  - intros l' x ->.
    destruct (q_remove_tail_run h head l' x Hq)
      as (h1 & Hrel & Hq1 & Hnx & Hpx & Hrun).
    exists h1. rewrite Hrun. do 5 (split; [done|]).
    by apply relinked_value_of.
Qed.

Lemma q_remove_tail_last_witness :
  let ss := ["x"; "y"; "z"]%string in
  let h := built_heap ss in
  let head := built_head ss in
  (built_nodes ss = [] → q_remove_tail head NULL 8 h = Ok NULL h) ∧
  (∀ l' x, built_nodes ss = l' ++ [x] →
     ∃ h', q_remove_tail head NULL 8 h = Ok (list_entry x) h' ∧
           is_queue h' head l' ∧
           relinked h h' ∧
           nxt h' x = Some x ∧ prv h' x = Some x ∧
           value_of h' x = value_of h x).
Proof.
  apply (q_remove_tail_last (built_heap ["x"; "y"; "z"]%string)
           (built_head ["x"; "y"; "z"]%string)
           (built_nodes ["x"; "y"; "z"]%string) 8).
  apply is_queue_b_sound. vm_compute. reflexivity.
Defined.

(** ** Removing with a buffer *)

(** X4: [q_remove_head] with a buffer [sp] of at least [bufsize] >= 1 bytes,
    distinct from the element's own string: the first element is returned
    unlinked, the rest stays a well-formed queue, the element keeps its
    string, and [sp] holds the first [bufsize - 1] bytes of that string (all
    of it when it is shorter), terminated; bytes of [sp] from index [bufsize]
    on are untouched. *)
Theorem q_remove_head_copies h head x l sp bufsize v src n d :
  is_queue h head (x :: l) →
  elem_at (cells h) (list_entry x) = Some v →
  chars_at (cells h) v = Some src → strlen_bytes src = Some n →
  sp ≠ v → chars_at (cells h) sp = Some d →
  1 ≤ bufsize ≤ Z.of_nat (length d) → bufsize < size_max →
  ∃ h' d',
    q_remove_head head sp bufsize h = Ok (list_entry x) h' ∧
    is_queue h' head l ∧
    value_of h' x = cstr src ∧
    chars_at (cells h') sp = Some d' ∧
    length d' = length d ∧
    cstr d' = take (Z.to_nat (bufsize - 1)) (cstr src) ∧
    drop (Z.to_nat bufsize) d' = drop (Z.to_nat bufsize) d.
Proof.
  intros Hq Hv Hsrc Hn Hne Hd Hb Hmax.
  destruct (q_remove_head_run h head x l Hq) as (h1 & Hrel & Hq1 & _ & _ & Hrun).
  rewrite Hrun. by eapply removed_copy.
Qed.

Lemma q_remove_head_copies_witness :
  let h := built_heap ["hello"; "y"]%string in
  ∃ h' d',
    q_remove_head 768 256 3 h = Ok (list_entry 808) h' ∧
    is_queue h' 768 [856] ∧
    value_of h' 808 = cstr (c_bytes "hello") ∧
    chars_at (cells h') 256 = Some d' ∧
    length d' = length (c_bytes "hello") ∧
    cstr d' = take (Z.to_nat (3 - 1)) (cstr (c_bytes "hello")) ∧
    drop (Z.to_nat 3) d' = drop (Z.to_nat 3) (c_bytes "hello").
Proof.
  apply (q_remove_head_copies (built_heap ["hello"; "y"]%string)
           768 808 [856] 256 3 832 (c_bytes "hello") 5 (c_bytes "hello")).
  - apply is_queue_b_sound. vm_compute. reflexivity.
  - vm_compute. reflexivity.
  - vm_compute. reflexivity.
  - vm_compute. reflexivity.
  - lia.
  - vm_compute. reflexivity.
  - vm_compute. split; discriminate.
  - vm_compute. reflexivity.
Defined.

(** X5: [q_remove_tail] with a buffer [sp] of at least [bufsize] >= 1 bytes,
    distinct from the element's own string: the last element is returned
    unlinked, the elements before it stay a well-formed queue, and [sp] holds
    the first [bufsize - 1] bytes of its string, terminated. *)
Theorem q_remove_tail_copies h head l x sp bufsize v src n d :
  is_queue h head (l ++ [x]) →
  elem_at (cells h) (list_entry x) = Some v →
  chars_at (cells h) v = Some src → strlen_bytes src = Some n →
  sp ≠ v → chars_at (cells h) sp = Some d →
  1 ≤ bufsize ≤ Z.of_nat (length d) → bufsize < size_max →
  ∃ h' d',
    q_remove_tail head sp bufsize h = Ok (list_entry x) h' ∧
    is_queue h' head l ∧
    value_of h' x = cstr src ∧
    chars_at (cells h') sp = Some d' ∧
    length d' = length d ∧
    cstr d' = take (Z.to_nat (bufsize - 1)) (cstr src) ∧
    drop (Z.to_nat bufsize) d' = drop (Z.to_nat bufsize) d.
Proof.
  intros Hq Hv Hsrc Hn Hne Hd Hb Hmax.
  destruct (q_remove_tail_run h head l x Hq) as (h1 & Hrel & Hq1 & _ & _ & Hrun).
  rewrite Hrun. by eapply removed_copy.
Qed.

Lemma q_remove_tail_copies_witness :
  let h := built_heap ["y"; "hello"]%string in
  ∃ h' d',
    q_remove_tail 768 512 6 h = Ok (list_entry 856) h' ∧
    is_queue h' 768 ([808] ++ []) ∧
    value_of h' 856 = cstr (c_bytes "hello") ∧
    chars_at (cells h') 512 = Some d' ∧
    length d' = length (c_bytes "hello") ∧
    cstr d' = take (Z.to_nat (6 - 1)) (cstr (c_bytes "hello")) ∧
    drop (Z.to_nat 6) d' = drop (Z.to_nat 6) (c_bytes "hello").
Proof.
  apply (q_remove_tail_copies (built_heap ["y"; "hello"]%string)
           768 [808] 856 512 6 880 (c_bytes "hello") 5 (c_bytes "hello")).
  - apply is_queue_b_sound. vm_compute. reflexivity.
  - vm_compute. reflexivity.
  - vm_compute. reflexivity.
  - vm_compute. reflexivity.
  - lia.
  - vm_compute. reflexivity.
  - vm_compute. split; discriminate.
  - vm_compute. reflexivity.
Defined.

(** Pointers into a buffer. *)

Lemma block_below_lookup (m : gmap Z cell) : ∀ k p b c,
  block_below m p k = Some (b, c) → m !! b = Some c.
Proof.
  induction k as [|k IH]; intros p b c; simpl;
    destruct (m !! p) eqn:E; try done; try (by intros [= <- <-]).
  apply IH.
Qed.

Lemma block_below_unlink (m m' : gmap Z cell) :
  (∀ a, unlink <$> (m' !! a) = unlink <$> (m !! a)) →
  ∀ k p, prod_map id unlink <$> block_below m' p k
         = prod_map id unlink <$> block_below m p k.
Proof.
  intros H. induction k as [|k IH]; intros p; simpl; specialize (H p);
    destruct (m' !! p), (m !! p); simpl in *; try done;
    by inversion H.
Qed.

Lemma relinked_buffer_at h h' p :
  relinked h h' → buffer_at (cells h') p = buffer_at (cells h) p.
Proof.
  intros (_ & _ & H). unfold buffer_at. case_decide; [done|].
  pose proof (block_below_unlink _ _ H (Z.to_nat p) p) as E.
  destruct (block_below (cells h') p (Z.to_nat p)) as [[b' c']|],
    (block_below (cells h) p (Z.to_nat p)) as [[b c]|]; simpl in E;
    try done.
  injection E as -> E. by destruct c', c; simpl in E; try done;
    injection E as ->.
Qed.

Lemma block_below_insert (m : gmap Z cell) b c c' :
  m !! b = Some c →
  ∀ k p, block_below (<[b := c']> m) p k
         = (λ bc, (bc.1, if decide (bc.1 = b) then c' else bc.2))
             <$> block_below m p k.
Proof.
  intros Hb. induction k as [|k IH]; intros p; simpl;
    (destruct (decide (p = b)) as [->|Hp];
     [rewrite lookup_insert_eq, Hb; simpl; by rewrite decide_True
     |rewrite lookup_insert_ne by done;
      destruct (m !! p); simpl; [by rewrite decide_False|]]);
    [done|apply IH].
Qed.

Lemma buffer_at_inv (m : gmap Z cell) p b off d :
  buffer_at m p = Some (b, off, d) →
  m !! b = Some (CChars d) ∧ p ≠ 0 ∧ (off ≤ length d)%nat.
Proof.
  unfold buffer_at. case_decide; [done|].
  destruct (block_below m p (Z.to_nat p)) as [[b' [| |bs]]|] eqn:E; try done.
  destruct (Z.leb_spec (p - b') (Z.of_nat (length bs))); [|done].
  intros [= <- <- <-]. split; [by eapply block_below_lookup|].
  split; [done|lia].
Qed.

Lemma buffer_at_insert (m : gmap Z cell) p b off d d' :
  buffer_at m p = Some (b, off, d) → length d' = length d →
  buffer_at (<[b := CChars d']> m) p = Some (b, off, d').
Proof.
  intros Hp Hlen. destruct (buffer_at_inv _ _ _ _ _ Hp) as (Hb & _ & _).
  revert Hp. unfold buffer_at. case_decide; [done|].
  rewrite (block_below_insert m b (CChars d) (CChars d') Hb).
  destruct (block_below m p (Z.to_nat p)) as [[b' [| |bs]]|]; simpl; try done.
  destruct (Z.leb_spec (p - b') (Z.of_nat (length bs))); [|done].
  intros [= -> <- ->]. rewrite decide_True by done. rewrite Hlen.
  by destruct (Z.leb_spec (p - b) (Z.of_nat (length d))); [|lia].
Qed.

(** [copy_out] with a pointer [sp] into a buffer that has fewer than
    [bufsize] bytes left from [sp] on. With [bufsize = 0] the length passed to
    [strncpy] wraps to [SIZE_MAX]; otherwise the copy, or the store of the
    terminator after it, leaves the buffer. *)
Lemma copy_out_overflow_fault h e sp bufsize b off d :
  buffer_at (cells h) sp = Some (b, off, d) →
  Z.of_nat (length d) < size_max →
  0 ≤ bufsize < size_max →
  bufsize = 0 ∨ Z.of_nat (length d) - Z.of_nat off < bufsize →
  copy_out e sp bufsize h = Fault.
Proof.
  intros Hbuf Hmax Hb Hsmall.
  destruct (buffer_at_inv _ _ _ _ _ Hbuf) as (_ & Hsp & Hoff).
  unfold copy_out. rewrite (proj2 (Z.eqb_neq sp 0)) by done.
  assert (size_sub bufsize 1
          = if decide (bufsize = 0) then size_max - 1 else bufsize - 1) as HK.
  { case_decide as H0; [by subst|]. apply size_sub_small. lia. }
  revert HK. generalize (size_sub bufsize 1). intros K HK.
  unfold bind, load_value, strncpy.
  destruct (elem_at (cells h) e) as [v|]; [|done].
  rewrite Hbuf.
  destruct (buffer_at (cells h) v) as [[[bs os] src]|]; [|done].
  cbv zeta.
  match goal with |- context [if ?c then _ else _] => destruct c eqn:Hc end;
    [|done].
  apply andb_true_iff in Hc as [Hle%Z.leb_le _].
  destruct (strncpy_bytes (Z.to_nat K) (drop os src)) as [w|] eqn:Hw; [|done].
  apply strncpy_bytes_length in Hw.
  unfold store_char. cbn [cells set_cells].
  rewrite (buffer_at_insert _ _ _ _ d _ Hbuf).
  2:{ rewrite !length_app, length_take, length_drop, Hw. lia. }
  match goal with |- context [(?x <? ?y)] => destruct (Z.ltb_spec x y) as [Hlt|] end;
    [|by rewrite andb_false_r].
  rewrite !length_app, length_take, length_drop, Hw in Hlt.
  case_decide; lia.
Qed.

(** X6: on a non-empty queue, [q_remove_head] and [q_remove_tail] called
    with a pointer [sp] into a buffer that has fewer than [bufsize] bytes
    left from [sp] on write outside that buffer. This is so for every such
    [sp] when [bufsize] is 0, where [bufsize - 1] wraps to [SIZE_MAX], and
    for [bufsize] larger than the room, since [strncpy] pads up to the
    length it is given. *)
Theorem q_remove_small_buffer_fault h head l sp bufsize b off d :
  heap_ok h → is_queue h head l → l ≠ [] →
  buffer_at (cells h) sp = Some (b, off, d) →
  0 ≤ bufsize < size_max →
  bufsize = 0 ∨ Z.of_nat (length d) - Z.of_nat off < bufsize →
  q_remove_head head sp bufsize h = Fault ∧
  q_remove_tail head sp bufsize h = Fault.
Proof.
  intros Hok Hq Hl Hbuf Hb Hsmall.
  assert (Z.of_nat (length d) < size_max) as Hmax.
  { apply heap_ok_unfold in Hok as (_ & _ & Hsize). apply (Hsize b).
    by apply buffer_at_inv in Hbuf as [? _]. }
  assert (∀ h1 e, relinked h h1 →
            (copy_out e sp bufsize ;; ret e) h1 = Fault) as Hcopy.
  { intros h1 e Hrel. unfold bind.
    rewrite (copy_out_overflow_fault h1 e sp bufsize b off d); try done.
    by rewrite (relinked_buffer_at _ _ _ Hrel). }
  split.
  - destruct l as [|x l']; [done|].
    destruct (q_remove_head_run h head x l' Hq) as (h1 & Hrel & _ & _ & _ & ->).
    by apply Hcopy.
  - destruct l as [|x l' _] using rev_ind; [done|].
    destruct (q_remove_tail_run h head l' x Hq) as (h1 & Hrel & _ & _ & _ & ->).
    by apply Hcopy.
Qed.

Lemma q_remove_small_buffer_fault_witness :
  let ss := ["hello"; "y"; "z"]%string in
  q_remove_head (built_head ss) 259 4 (built_heap ss) = Fault ∧
  q_remove_tail (built_head ss) 259 4 (built_heap ss) = Fault.
Proof.
  apply (q_remove_small_buffer_fault (built_heap ["hello"; "y"; "z"]%string)
           (built_head ["hello"; "y"; "z"]%string)
           (built_nodes ["hello"; "y"; "z"]%string) 259 4
           256 3%nat (c_bytes "hello")).
  - apply (bool_decide_unpack _). vm_compute. exact I.
  - apply is_queue_b_sound. vm_compute. reflexivity.
  - vm_compute. discriminate.
  - vm_compute. reflexivity.
  - vm_compute. split; [discriminate|reflexivity].
  - right. vm_compute. reflexivity.
Defined.

(** ** [q_new] *)

Lemma node_at_insert_head_fresh (m : gmap Z cell) a lh p :
  m !! a = None → p ≠ a →
  node_at (<[a := CHead lh]> m) p = node_at m p.
Proof.
  intros Ha Hp. unfold node_at, list_entry. case_decide; [done|].
  rewrite lookup_insert_ne by done. rewrite lookup_insert.
  case_decide; subst; by rewrite ?Ha.
Qed.

Lemma block_ok_mono top top' a c : top ≤ top' → block_ok top a c → block_ok top' a c.
Proof. intros Hle [Ha Hc]. split; [lia|done]. Qed.

Lemma heap_ok_alloc h c size o :
  heap_ok h → 0 ≤ size →
  match c with CChars bs => Z.of_nat (length bs) < size_max | _ => True end →
  heap_ok {| cells := <[brk h := c]> (cells h);
             brk := brk h + block_span size; oracle := o |}.
Proof.
  intros [Hbrk Hall] Hsize Hc.
  assert (0 < block_span size) as Hspan.
  { unfold block_span. pose proof (Z.div_pos size 16). lia. }
  split; simpl; [lia|]. apply map_Forall_insert_2.
  - split; [lia|done].
  - eapply map_Forall_impl; [exact Hall|]. intros a c'.
    apply block_ok_mono. lia.
Qed.

(** [q_new] by allocation outcome. *)
Lemma q_new_spec h :
  heap_ok h →
  ∃ h',
    match oracle h with
    | Some j :: o =>
        q_new h = Ok (brk h) h' ∧
        cells h !! brk h = None ∧
        cells h' = <[brk h := CHead (LH (brk h) (brk h))]> (cells h) ∧
        is_queue h' (brk h) [] ∧
        owns h' (brk h) [] [] ∧
        oracle h' = o
    | _ =>
        q_new h = Ok NULL h' ∧ cells h' = cells h ∧ brk h' = brk h
    end ∧
    heap_ok h'.
Proof.
  intros Hok. pose proof (heap_ok_unfold _ Hok) as (Hbrk & _ & _).
  assert (cells h !! brk h = None) as Hfresh
    by (apply heap_ok_fresh; [done|lia]).
  unfold q_new, malloc_list_head, malloc, bind.
  destruct (oracle h) as [|[j|] o] eqn:Ho.
  - by exists h.
  - set (q := brk h) in *.
    set (h' := {| cells := <[q := CHead (LH q q)]> (cells h);
                  brk := q + block_span 16; oracle := o |}).
    assert (node_at (cells h') q = Some (LH q q)) as Hnode.
    { unfold node_at. simpl. rewrite decide_False by lia.
      by rewrite lookup_insert_eq. }
    exists h'. split; [split; [|split; [done|split; [done|split; [|split; [|done]]]]]|].
    + rewrite (eqb_ne q 0) by lia.
      unfold INIT_LIST_HEAD, bind, store_next, store_prev, upd_next, upd_prev,
        ret, node_at, put_node, set_cells. simpl.
      rewrite !decide_False by lia. simpl.
      rewrite !lookup_insert_eq. simpl. rewrite !lookup_insert_eq. simpl.
      rewrite !decide_False by lia. simpl.
      rewrite !insert_insert_eq. done.
    + split; [apply NoDup_singleton|]. unfold nxt, prv.
      split; (split; [done|]); exists q; by rewrite Hnode.
    + split; [|split; constructor]. eexists. simpl. by rewrite lookup_insert_eq.
    + by apply (heap_ok_alloc h).
  - exists {| cells := cells h; brk := brk h; oracle := o |}. simpl.
    by split.
Qed.

(** X7: [q_new]. When the allocation is served the result is a fresh block
    that is a well-formed empty queue owning only its sentinel, and the only
    change to the heap is that block; when it is refused the result is
    [NULL] and no block changes. Either way the allocator's invariant is
    kept. *)
Theorem q_new_empty h :
  heap_ok h →
  ∃ h',
    match oracle h with
    | Some j :: o =>
        q_new h = Ok (brk h) h' ∧
        cells h !! brk h = None ∧
        cells h' = <[brk h := CHead (LH (brk h) (brk h))]> (cells h) ∧
        is_queue h' (brk h) [] ∧
        owns h' (brk h) [] [] ∧
        oracle h' = o
    | _ =>
        q_new h = Ok NULL h' ∧ cells h' = cells h ∧ brk h' = brk h
    end ∧
    heap_ok h'.
Proof. apply q_new_spec. Qed.

Lemma q_new_empty_witness :
  let h := with_oracle (built_heap ["x"; "y"]%string) [Some 85] in
  ∃ h',
    match oracle h with
    | Some j :: o =>
        q_new h = Ok (brk h) h' ∧
        cells h !! brk h = None ∧
        cells h' = <[brk h := CHead (LH (brk h) (brk h))]> (cells h) ∧
        is_queue h' (brk h) [] ∧
        owns h' (brk h) [] [] ∧
        oracle h' = o
    | _ =>
        q_new h = Ok NULL h' ∧ cells h' = cells h ∧ brk h' = brk h
    end ∧
    heap_ok h'.
Proof.
  apply (q_new_empty (with_oracle (built_heap ["x"; "y"]%string) [Some 85])).
  apply (bool_decide_unpack _). vm_compute. exact I.
Defined.

(** ** [q_insert_tail] *)

Lemma heap_ok_relinked h h' : relinked h h' → heap_ok h → heap_ok h'.
Proof.
  intros (Hb & _ & Hc) [Hbrk Hall]. split; [by rewrite Hb|].
  intros a c Ha. specialize (Hc a). rewrite Ha in Hc. rewrite Hb.
  destruct (cells h !! a) as [c0|] eqn:E0; [|done].
  specialize (Hall a c0 E0). destruct Hall as [Hr Hk]. split; [done|].
  destruct c, c0; simpl in Hc; try done. by injection Hc as ->.
Qed.

Lemma list_add_tail_spec h head l X :
  is_queue h head l → is_node h X → X ∉ head :: l →
  ∃ h', list_add_tail X head h = Ok tt h' ∧
        is_queue h' head (l ++ [X]) ∧
        relinked h h'.
Proof.
  intros Hq HX Hnin. pose proof Hq as (Hnd & Hf & Hb).
  pose proof (is_queue_prev _ _ _ Hq) as Hp.
  destruct (snoc_last head l) as [l1' HP]. set (P := hd head (reverse l)) in *.
  assert (is_node h head) as Hnh by (eapply is_queue_nodes; [exact Hq|by left]).
  assert (P ∈ head :: l) as HPin.
  { rewrite HP, elem_of_app, list_elem_of_singleton. by right. }
  assert (is_node h P) as HnP by (by eapply is_queue_nodes).
  assert (nxt h P = Some head) as HnxP.
  { rewrite HP in Hf. by apply path_snoc in Hf as [_ ?]. }
  assert (P ≠ X) as HPX by (by intros ->).
  apply not_elem_of_cons in Hnin as [HXh HXl].
  set (h' := upd_prev head X (upd_prev X P (upd_next X head (upd_next P X h)))).
  exists h'. split; [|split].
  - unfold list_add_tail. mload. mstore. mstore. mstore.
    apply store_prev_ok. heap_node.
  - assert (NoDup (X :: head :: l)) as HndX.
    { apply NoDup_cons. split; [by apply not_elem_of_cons|done]. }
    split; [|split].
    + rewrite app_comm_cons. rewrite <- Permutation_cons_append. done.
    + rewrite app_comm_cons, HP, <- app_assoc.
      apply (path_ins (nxt h) (nxt h') l1' P X [] head head).
      * assert (l1' ++ [P; X] ≡ₚ X :: head :: l) as ->; [|done].
        change (l1' ++ [P; X]) with (l1' ++ [P] ++ [X]).
        rewrite app_assoc, <- HP. by rewrite <- Permutation_cons_append.
      * by rewrite <- HP.
      * unfold h'. by heap_rw.
      * unfold h'. heap_rw. congruence.
      * intros y ??. unfold h'. by heap_rw.
    + rewrite reverse_snoc.
      apply (path_ins (prv h) (prv h') [] head X (reverse l) head head).
      * simpl. apply NoDup_cons in HndX as [HXn Hnd'].
        apply NoDup_cons in Hnd' as [Hh Hnd'].
        apply NoDup_cons. split.
        { rewrite elem_of_cons, elem_of_reverse. intros [->|?]; done. }
        apply NoDup_cons. rewrite elem_of_reverse.
        split; [done|]. by rewrite reverse_Permutation.
      * exact Hb.
      * unfold h'. by heap_rw.
      * unfold h'. heap_rw. congruence.
      * intros y ??. unfold h'. by heap_rw.
  - unfold h'. repeat (eapply relinked_trans;
      [|first [apply relinked_upd_next | apply relinked_upd_prev]]).
    apply relinked_refl.
Qed.

(** [q_insert_tail] when both allocations are served. *)
Lemma q_insert_tail_spec h head l s bs n j1 j2 o :
  heap_ok h → is_queue h head l →
  chars_at (cells h) s = Some bs → strlen_bytes bs = Some n →
  oracle h = Some j1 :: Some j2 :: o →
  let e := brk h in
  let buf := brk h + 32 in
  ∃ h', q_insert_tail head s h = Ok true h' ∧
        is_queue h' head (l ++ [list_of e]) ∧
        elem_at (cells h') e = Some buf ∧
        chars_at (cells h') buf = Some (cstr bs ++ [0]) ∧
        buf ≠ s ∧
        (∀ a, a ≠ e → a ≠ buf →
              unlink <$> (cells h' !! a) = unlink <$> (cells h !! a)) ∧
        oracle h' = o ∧
        heap_ok h'.
Proof.
  intros Hok Hq Hs Hn Ho e buf.
  change (brk h + 32) with (e + block_span 24) in (value of buf).
  assert (e = brk h ∧ buf = brk h + 32) as [Ee Ebuf] by done.
  pose proof (heap_ok_unfold _ Hok) as (Hbrk & Hlive & Hsize).
  destruct (strlen_bytes_cstr _ _ Hn) as (En & Hlt & Hcopy).
  set (w := cstr bs) in *.
  assert (is_node h head) as Hnh by (eapply is_queue_nodes; [exact Hq|by left]).
  pose proof (is_node_not_null _ _ Hnh) as Hh.
  assert (cells h !! s = Some (CChars bs) ∧ s ≠ 0) as [Hcs Hs0].
  { unfold chars_at in Hs. case_decide; [done|].
    destruct (cells h !! s) as [[]|]; naive_solver. }
  pose proof (Hlive _ _ Hcs) as Hsb. pose proof (Hsize _ _ Hcs) as Hss.
  assert (size_add n 1 = n + 1) as Hsz.
  { unfold size_add. apply Z.mod_small. lia. }
  assert (e ≠ 0 ∧ buf ≠ 0 ∧ e ≠ buf ∧ e ≠ s ∧ buf ≠ s) as (He0 & Hb0 & Heb & Hes & Hbs)
    by lia.
  assert (cells h !! e = None) as Hfe by (apply heap_ok_fresh; [done|lia]).
  assert (cells h !! buf = None) as Hfb by (apply heap_ok_fresh; [done|lia]).
  assert (cells h !! list_of e = None) as Hfl.
  { apply heap_ok_fresh; [done|]. unfold list_of, list_offset. lia. }
  set (lh0 := LH j1 j1).
  set (mA := <[e := CElem j1 lh0]> (cells h)).
  set (hA := {| cells := mA; brk := brk h + block_span 24; oracle := Some j2 :: o |}).
  set (mB := <[buf := CChars (replicate (Z.to_nat (n + 1)) j2)]> mA).
  set (hB := {| cells := mB; brk := brk hA + block_span (n + 1); oracle := o |}).
  set (mC := <[e := CElem buf lh0]> mB).
  set (mD := <[buf := CChars (w ++ [j2])]> mC).
  set (mE := <[buf := CChars (w ++ [0])]> mD).
  set (hE := set_cells hB mE).
  assert (∀ p, is_node h p → node_at mE p = node_at (cells h) p) as Hold.
  { intros p Hp. unfold mE, mD, mC, mB, mA.
    rewrite !node_at_insert_chars.
    - rewrite (node_at_insert_elem_same _ e buf j1 lh0).
      + rewrite node_at_insert_chars.
        * by apply node_at_insert_elem_fresh.
        * left. by rewrite lookup_insert_ne.
      + rewrite lookup_insert_ne by done. by rewrite lookup_insert_eq.
    - right. eexists. rewrite lookup_insert_ne by done.
      by rewrite lookup_insert_eq.
    - right. eexists. by rewrite lookup_insert_eq. }
  assert (node_at mE (list_of e) = Some lh0) as Hnew.
  { unfold mE, mD, mC, mB.
    rewrite !node_at_insert_chars.
    - apply node_at_insert_elem_new.
      + unfold list_of, list_offset. lia.
      + rewrite lookup_insert_ne by (unfold list_of, list_offset; lia).
        unfold mA. rewrite lookup_insert_ne by (unfold list_of, list_offset; lia).
        done.
    - right. eexists. rewrite lookup_insert_ne by done.
      by rewrite lookup_insert_eq.
    - right. eexists. by rewrite lookup_insert_eq. }
  assert (is_queue hE head l) as HqE.
  { eapply is_queue_ext; [exact Hq|]. intros y Hy. unfold nxt, prv. simpl.
    rewrite Hold; [done|]. by eapply is_queue_nodes. }
  assert (is_node hE (list_of e)) as HnE.
  { unfold is_node. simpl. by rewrite Hnew. }
  assert (list_of e ∉ head :: l) as Hnin.
  { intros Hin. pose proof (is_queue_nodes _ _ _ _ Hq Hin) as Hnode.
    apply (heap_ok_node _ _ Hok) in Hnode. unfold list_of in Hnode. lia. }
  destruct (list_add_tail_spec hE head l (list_of e) HqE HnE Hnin)
    as (h' & Hadd & Hq' & Hrel').
  assert (chars_at mA s = Some bs) as HsA.
  { unfold mA. by rewrite chars_at_insert_ne. }
  assert (chars_at mB s = Some bs) as HsB.
  { unfold mB. by rewrite chars_at_insert_ne. }
  assert (chars_at mC s = Some bs) as HsC.
  { unfold mC. by rewrite chars_at_insert_ne. }
  assert (chars_at mD s = Some bs) as HsD.
  { unfold mD. by rewrite chars_at_insert_ne. }
  assert (mB !! e = Some (CElem j1 lh0)) as HeB.
  { unfold mB, mA. rewrite lookup_insert_ne by done. by rewrite lookup_insert_eq. }
  exists h'.
  split; [|split; [done|split; [|split; [|split; [done|split]]]]].
  - unfold q_insert_tail. rewrite eqb_ne by done.
    erewrite bind_ok.
    2:{ unfold malloc_element, malloc. rewrite Ho. reflexivity. }
    fold e lh0 mA hA. rewrite (eqb_ne e 0) by done.
    erewrite bind_ok.
    2:{ apply (strlen_ok _ _ bs); [exact HsA|done]. }
    rewrite Hsz. erewrite bind_ok.
    2:{ unfold malloc_chars, malloc. simpl. reflexivity. }
    fold buf. fold mB. fold hB.
    erewrite bind_ok.
    2:{ unfold store_value. simpl. unfold mB at 1.
        rewrite elem_at_insert_chars by (left; unfold mA; by rewrite lookup_insert_ne).
        unfold mA at 1. rewrite elem_at_insert_eq by done.
        unfold put_elem. rewrite HeB. reflexivity. }
    fold mC. erewrite bind_ok.
    2:{ apply (strlen_ok _ _ bs); [exact HsC|done]. }
    erewrite bind_ok.
    2:{ apply load_value_ok. simpl. unfold mC. by apply elem_at_insert_eq. }
    erewrite bind_ok.
    2:{ apply (strncpy_ok _ buf s n (replicate (Z.to_nat (n + 1)) j2) bs w).
        - simpl. unfold mC. rewrite chars_at_insert_ne by done.
          unfold mB. by rewrite chars_at_insert_eq.
        - exact HsC.
        - done.
        - rewrite length_replicate. lia.
        - replace (Z.to_nat n) with (length w) by lia. exact Hcopy. }
    replace (drop (Z.to_nat n) (replicate (Z.to_nat (n + 1)) j2)) with [j2].
    2:{ rewrite drop_replicate.
        by replace (Z.to_nat (n + 1) - Z.to_nat n)%nat with 1%nat by lia. }
    cbn [cells set_cells].
    fold mD. erewrite bind_ok.
    2:{ apply (strlen_ok _ _ bs); [exact HsD|done]. }
    erewrite bind_ok.
    2:{ apply load_value_ok. simpl. unfold mD.
        rewrite elem_at_insert_chars.
        - unfold mC. by apply elem_at_insert_eq.
        - right. eexists. unfold mC. rewrite lookup_insert_ne by done.
          unfold mB. by rewrite lookup_insert_eq. }
    erewrite bind_ok.
    2:{ apply (store_char_ok _ buf n 0 (w ++ [j2])).
        - simpl. unfold mD. by rewrite chars_at_insert_eq.
        - rewrite length_app. simpl. lia. }
    replace (<[Z.to_nat n:=0]> (w ++ [j2])) with (w ++ [0]).
    2:{ replace (Z.to_nat n) with (length w) by lia.
        rewrite insert_app_r_alt by lia.
        by replace (length w - length w)%nat with 0%nat by lia. }
    cbn [cells set_cells].
    fold mE. fold hE. erewrite bind_ok; [|exact Hadd]. done.
  - rewrite (relinked_elem_at _ _ _ Hrel'). simpl. unfold mE, mD.
    rewrite !elem_at_insert_chars.
    + unfold mC. by apply elem_at_insert_eq.
    + right. eexists. unfold mC. rewrite lookup_insert_ne by done.
      unfold mB. by rewrite lookup_insert_eq.
    + right. eexists. by rewrite lookup_insert_eq.
  - rewrite (relinked_chars_at _ _ _ Hrel'). simpl. unfold mE.
    by apply chars_at_insert_eq.
  - intros a Hae Hab. destruct Hrel' as (_ & _ & Hrel'). rewrite Hrel'.
    simpl. unfold mE, mD, mC, mB, mA. by rewrite !lookup_insert_ne.
  - split; [by destruct Hrel' as (_ & -> & _)|].
    apply (heap_ok_relinked hE); [done|].
    assert (0 < block_span (n + 1)) as Hspan.
    { unfold block_span. pose proof (Z.div_pos (n + 1) 16). lia. }
    assert (0 < block_span 24) as Hspan' by done.
    destruct Hok as [_ Hall].
    split; simpl; [lia|].
    unfold mE, mD, mC, mB, mA.
    repeat (apply map_Forall_insert_2;
            [split; [lia|]; simpl;
             rewrite ?length_app, ?length_replicate; simpl; try done; lia|]).
    eapply map_Forall_impl; [exact Hall|]. intros a c.
    apply block_ok_mono. lia.
Qed.

Lemma elem_at_unlink (m m' : gmap Z cell) a :
  unlink <$> (m' !! a) = unlink <$> (m !! a) → elem_at m' a = elem_at m a.
Proof.
  intros H. unfold elem_at. case_decide; [done|].
  destruct (m' !! a) as [[]|], (m !! a) as [[]|]; simpl in H; congruence.
Qed.

Lemma chars_at_unlink (m m' : gmap Z cell) a :
  unlink <$> (m' !! a) = unlink <$> (m !! a) → chars_at m' a = chars_at m a.
Proof.
  intros H. unfold chars_at. case_decide; [done|].
  destruct (m' !! a) as [[]|], (m !! a) as [[]|]; simpl in H; congruence.
Qed.

(** A string that was stored in live blocks is read the same after blocks
    were added at fresh addresses. *)
Lemma value_of_frame h h' a b y :
  cells h !! a = None → cells h !! b = None →
  (∀ c, c ≠ a → c ≠ b →
        unlink <$> (cells h' !! c) = unlink <$> (cells h !! c)) →
  has_string h y → value_of h' y = value_of h y.
Proof.
  intros Ha Hb Hsame (v & bs & n & Hv & Hbs & _).
  assert (∀ c, is_Some (cells h !! c) → c ≠ a ∧ c ≠ b) as Hlive.
  { intros c [x Hx]. split; intros ->; congruence. }
  assert (is_Some (cells h !! list_entry y)) as [??]%Hlive.
  { unfold elem_at in Hv. case_decide; [done|].
    destruct (cells h !! list_entry y); [eauto|done]. }
  assert (is_Some (cells h !! v)) as [??]%Hlive.
  { unfold chars_at in Hbs. case_decide; [done|].
    destruct (cells h !! v); [eauto|done]. }
  unfold value_of.
  rewrite (elem_at_unlink (cells h) (cells h')) by (by apply Hsame).
  rewrite Hv. by rewrite (chars_at_unlink (cells h) (cells h')) by (by apply Hsame).
Qed.

(** X8: [q_insert_tail] when both allocations are served: it returns true,
    the new element is the last of the queue and the elements before it keep
    their order; the new element holds the bytes of [s] up to its
    terminator in a buffer of its own; [s] itself and the strings of all
    elements that were there are unchanged. *)
Theorem q_insert_tail_appends h head l s bs n j1 j2 o :
  heap_ok h → is_queue h head l →
  chars_at (cells h) s = Some bs → strlen_bytes bs = Some n →
  oracle h = Some j1 :: Some j2 :: o →
  ∃ h' x v,
    q_insert_tail head s h = Ok true h' ∧
    is_queue h' head (l ++ [x]) ∧
    elem_at (cells h') (list_entry x) = Some v ∧ v ≠ s ∧
    chars_at (cells h') v = Some (cstr bs ++ [0]) ∧
    value_of h' x = cstr bs ∧
    chars_at (cells h') s = Some bs ∧
    (∀ y, has_string h y → value_of h' y = value_of h y).
Proof.
  intros Hok Hq Hs Hn Ho.
  destruct (q_insert_tail_spec h head l s bs n j1 j2 o Hok Hq Hs Hn Ho)
    as (h' & Hrun & Hq' & He & Hv & Hne & Hsame & _).
  pose proof (heap_ok_unfold _ Hok) as (Hbrk & Hlive & _).
  assert (cells h !! brk h = None) as Hfe by (apply heap_ok_fresh; [done|lia]).
  assert (cells h !! (brk h + 32) = None) as Hfb
    by (apply heap_ok_fresh; [done|lia]).
  assert (list_entry (list_of (brk h)) = brk h) as Ele
    by (unfold list_entry, list_of; lia).
  exists h', (list_of (brk h)), (brk h + 32). rewrite Ele.
  do 5 (split; [done|]). split; [|split].
  - unfold value_of. rewrite Ele, He, Hv. apply cstr_terminated, cstr_nonzero.
  - rewrite <- Hs. apply chars_at_unlink, Hsame.
    + intros ->. unfold chars_at in Hs. rewrite Hfe in Hs. by case_decide.
    + intros ->. unfold chars_at in Hs. rewrite Hfb in Hs. by case_decide.
  - intros y. by apply (value_of_frame h h' (brk h) (brk h + 32)).
Qed.

Lemma q_insert_tail_appends_witness :
  let ss := ["x"; "y"]%string in
  let h := with_oracle (built_heap ss) [Some 85; Some 85] in
  ∃ h' x v,
    q_insert_tail (built_head ss) 512 h = Ok true h' ∧
    is_queue h' (built_head ss) (built_nodes ss ++ [x]) ∧
    elem_at (cells h') (list_entry x) = Some v ∧ v ≠ 512 ∧
    chars_at (cells h') v = Some (cstr (c_bytes "y") ++ [0]) ∧
    value_of h' x = cstr (c_bytes "y") ∧
    chars_at (cells h') 512 = Some (c_bytes "y") ∧
    (∀ y, has_string h y → value_of h' y = value_of h y).
Proof.
  apply (q_insert_tail_appends
           (with_oracle (built_heap ["x"; "y"]%string) [Some 85; Some 85])
           (built_head ["x"; "y"]%string) (built_nodes ["x"; "y"]%string)
           512 (c_bytes "y") 1 85 85 []).
  - apply (bool_decide_unpack _). vm_compute. exact I.
  - apply is_queue_b_sound. vm_compute. reflexivity.
  - vm_compute. reflexivity.
  - vm_compute. reflexivity.
  - vm_compute. reflexivity.
Defined.

(** ** [q_insert_head]: all or nothing *)

(** X9: on a well-formed queue and a terminated string [q_insert_head]
    never faults. It returns true exactly when both of its allocations are
    served, and then the new element is first and holds the bytes of [s];
    otherwise it returns false and every block is as before: the shell it
    had allocated is released again, and the queue is unchanged. *)
Theorem q_insert_head_all_or_nothing h head l s bs n :
  heap_ok h → is_queue h head l →
  chars_at (cells h) s = Some bs → strlen_bytes bs = Some n →
  ∃ b h',
    q_insert_head head s h = Ok b h' ∧
    (b = true ↔ ∃ j1 j2 o, oracle h = Some j1 :: Some j2 :: o) ∧
    if b then ∃ x, is_queue h' head (x :: l) ∧ value_of h' x = cstr bs
    else cells h' = cells h ∧ is_queue h' head l.
Proof.
  intros Hok Hq Hs Hn.
  pose proof (is_queue_head_not_null _ _ _ Hq) as Hh.
  assert (∀ h', cells h' = cells h → is_queue h' head l) as Hsame.
  { intros h' Hc. eapply is_queue_ext; [exact Hq|]. intros y _.
    unfold nxt, prv. by rewrite Hc. }
  destruct (oracle h) as [|[j1|] o1] eqn:Ho.
  1,3: destruct (q_insert_head_no_shell h head s Hh) as (h' & Hf & Hc);
       [rewrite Ho; eauto|];
       exists false, h'; split; [done|]; split; [|by split; [|apply Hsame]];
       split; [done|]; by intros (? & ? & ? & ?).
  destruct o1 as [|[j2|] o].
  1,3: destruct (q_insert_head_no_buffer h head s bs n j1 _ Hok Hh Hs Hn Ho)
         as (h' & Hf & Hc); [eauto|];
       exists false, h'; split; [done|]; split; [|by split; [|apply Hsame]];
       split; [done|]; by intros (? & ? & ? & ?).
  destruct (q_insert_head_spec h head l s bs n j1 j2 o Hok Hq Hs Hn Ho)
    as (h' & Hrun & Hq1 & He & Hv & _).
  exists true, h'. split; [done|]. split; [split; [intros _; by eauto|done]|].
  exists (list_of (brk h)). split; [done|].
  unfold value_of.
  replace (list_entry (list_of (brk h))) with (brk h)
    by (unfold list_entry, list_of; lia).
  rewrite He, Hv. apply cstr_terminated, cstr_nonzero.
Qed.

Lemma q_insert_head_all_or_nothing_witness :
  let ss := ["x"; "y"]%string in
  let h := with_oracle (built_heap ss) [Some 85; None] in
  ∃ b h',
    q_insert_head (built_head ss) 512 h = Ok b h' ∧
    (b = true ↔ ∃ j1 j2 o, oracle h = Some j1 :: Some j2 :: o) ∧
    if b then ∃ x, is_queue h' (built_head ss) (x :: built_nodes ss) ∧
                   value_of h' x = cstr (c_bytes "y")
    else cells h' = cells h ∧ is_queue h' (built_head ss) (built_nodes ss).
Proof.
  apply (q_insert_head_all_or_nothing
           (with_oracle (built_heap ["x"; "y"]%string) [Some 85; None])
           (built_head ["x"; "y"]%string) (built_nodes ["x"; "y"]%string)
           512 (c_bytes "y") 1).
  - apply (bool_decide_unpack _). vm_compute. exact I.
  - apply is_queue_b_sound. vm_compute. reflexivity.
  - vm_compute. reflexivity.
  - vm_compute. reflexivity.
Defined.

(** ** [q_free] *)

Lemma Forall2_with_elem {A B} (P : A → B → Prop) (l : list A) (k : list B) :
  Forall2 P l k → Forall2 (λ a b, P a b ∧ a ∈ l ∧ b ∈ k) l k.
Proof.
  induction 1 as [|a b l k Hab _ IH]; constructor.
  - split; [done|]. split; by left.
  - eapply Forall2_impl; [exact IH|]. intros a' b' (? & ? & ?).
    split; [done|]. split; by right.
Qed.

(** The loop of [q_free] over the nodes [rest] still to be released, whose
    strings are the blocks [vs]: it frees each element and each string once
    and touches nothing else. *)
Lemma q_free_loop_spec head : ∀ rest vs h nf fuel,
  NoDup (head :: rest) →
  path (nxt h) (hd head rest) rest head →
  is_Some (nxt h head) →
  Forall2 (λ x v, elem_at (cells h) (list_entry x) = Some v ∧
                  is_Some (chars_at (cells h) v)) rest vs →
  NoDup vs →
  (rest ≠ [] → nf = list_entry (hd head (tail rest))) →
  (length rest < fuel)%nat →
  ∃ h', q_free_loop fuel head (list_entry (hd head rest)) nf h = Ok tt h' ∧
        brk h' = brk h ∧ oracle h' = oracle h ∧
        (∀ y, y ∉ rest → nxt h' y = nxt h y) ∧
        (∀ a, cells h' !! a =
              if decide (a ∈ map list_entry rest ++ vs) then None
              else cells h !! a).
Proof.
  induction rest as [|x rest IH]; intros vs h nf fuel Hnd Hp Hh HF Hvs Hnf Hfuel;
    (destruct fuel as [|fuel]; [simpl in Hfuel; lia|]).
  - apply Forall2_nil_inv_l in HF as ->. exists h. simpl.
    rewrite list_of_list_entry, Z.eqb_refl. by repeat split.
  - apply Forall2_cons_inv_l in HF as (v & vs' & [He [bs Hv]] & HF & ->).
    apply NoDup_cons in Hvs as [Hv' Hvs].
    apply NoDup_cons in Hnd as [Hhead Hnd].
    pose proof Hnd as [Hx Hnd']%NoDup_cons.
    assert (x ≠ head) as Hxh by (intros ->; apply Hhead; by left).
    destruct Hp as [_ (n & Hn & Hp)].
    pose proof (path_head _ _ _ _ Hp) as ->.
    destruct (q_release_element_spec h x v bs He Hv)
      as (h1 & Hrel & Hc1 & Hb1 & Ho1 & Hlinks).
    set (y := hd head rest) in *.
    assert (y ≠ x) as Hyx.
    { unfold y. destruct rest as [|y' rest']; simpl; [done|].
      intros ->. apply Hx. by left. }
    assert (∃ n', nxt h y = Some n' ∧
                  (rest ≠ [] → n' = hd head (tail rest))) as (n' & Hn' & Hnext).
    { unfold y in *. destruct rest as [|y' rest']; simpl in *.
      - destruct Hh as [n' Hn']. by exists n'.
      - destruct Hp as [_ (n' & Hn' & Hp)]. exists n'. split; [done|].
        intros _. by rewrite (path_head _ _ _ _ Hp). }
    assert (∃ lhx, cells h !! list_entry x = Some (CElem v lhx)) as [lhx Hcx].
    { unfold elem_at in He. case_decide; [done|].
      destruct (cells h !! list_entry x) as [[]|]; naive_solver. }
    assert (cells h !! v = Some (CChars bs) ∧ v ≠ 0) as [Hcv Hv0].
    { unfold chars_at in Hv. case_decide; [done|].
      destruct (cells h !! v) as [[]|]; naive_solver. }
    destruct (IH vs' h1 (list_entry n') fuel) as (h' & Hrun & Hb & Ho & Hl' & Hc');
      try done.
    + apply NoDup_cons. split; [|done]. intros ?. apply Hhead. by right.
    + eapply path_ext; [|exact Hp]. intros z Hz. symmetry.
      apply Hlinks. intros ->. done.
    + destruct (Hlinks head) as [-> _]; [done|done].
    + eapply Forall2_impl; [exact (Forall2_with_elem _ _ _ HF)|].
      intros z vz ([Hez [bz Hvz]] & Hz & Hvz'). simpl in *.
      assert (list_entry z ≠ 0 ∧
              ∃ lhz, cells h !! list_entry z = Some (CElem vz lhz))
        as [Hz0 [lhz Hcz]].
      { unfold elem_at in Hez. case_decide; [done|].
        destruct (cells h !! list_entry z) as [[]|]; naive_solver. }
      assert (cells h !! vz = Some (CChars bz) ∧ vz ≠ 0) as [Hcvz Hvz0].
      { unfold chars_at in Hvz. case_decide; [done|].
        destruct (cells h !! vz) as [[]|]; naive_solver. }
      assert (z ≠ x) by (by intros ->).
      assert (vz ≠ v) by (by intros ->).
      rewrite Hc1. unfold elem_at, chars_at.
      rewrite !lookup_delete_ne, Hcz, Hcvz; try congruence.
      rewrite !decide_False by done. eauto.
    + intros Hr. by rewrite (Hnext Hr).
    + simpl in Hfuel. lia.
    + exists h'. split; [|split; [congruence|split; [congruence|split]]].
      * cbn [q_free_loop hd]. rewrite list_of_list_entry, eqb_ne by done.
        erewrite bind_ok; [|exact Hrel].
        rewrite Hnf by done. cbn [tail]. fold y. rewrite list_of_list_entry.
        erewrite bind_ok; [|apply load_next_ok; rewrite <- Hn';
                            by apply Hlinks].
        exact Hrun.
      * intros z Hz. apply not_elem_of_cons in Hz as [Hzx Hz].
        rewrite Hl' by done. by apply Hlinks.
      * intros a. rewrite Hc', Hc1. simpl.
        destruct (decide (a ∈ map list_entry rest ++ vs')) as [Hin|Hnin].
        { rewrite decide_True; [done|]. right.
          apply elem_of_app in Hin as [Hin|Hin]; apply elem_of_app;
            [by left|right; by right]. }
        destruct (decide (a = list_entry x)) as [->|Hax].
        { rewrite lookup_delete_eq. rewrite decide_True; [done|by left]. }
        rewrite lookup_delete_ne by done.
        destruct (decide (a = v)) as [->|Hav].
        { rewrite lookup_delete_eq. rewrite decide_True; [done|].
          right. apply elem_of_app. right. by left. }
        rewrite lookup_delete_ne by done. rewrite decide_False; [done|].
        rewrite elem_of_cons, elem_of_app, elem_of_cons.
        rewrite elem_of_app in Hnin. naive_solver.
Qed.

Lemma owned_blocks h (l vs : list Z) :
  Forall2 (λ x v, elem_at (cells h) (list_entry x) = Some v ∧
                  is_Some (chars_at (cells h) v)) l vs →
  ∀ a, a ∈ map list_entry l ++ vs →
       ∃ c, cells h !! a = Some c ∧ ∀ lh, c ≠ CHead lh.
Proof.
  induction 1 as [|x v l vs [Hx [bs Hv]] _ IH]; intros a Ha.
  - by apply elem_of_nil in Ha.
  - rewrite fmap_cons, <- app_comm_cons, elem_of_cons, elem_of_app,
      elem_of_cons in Ha.
    destruct Ha as [->|[Ha|[->|Ha]]].
    + unfold elem_at in Hx. case_decide; [done|].
      destruct (cells h !! list_entry x) as [[]|]; naive_solver.
    + apply IH, elem_of_app. by left.
    + unfold chars_at in Hv. case_decide; [done|].
      destruct (cells h !! v) as [[]|]; naive_solver.
    + apply IH, elem_of_app. by right.
Qed.

(** [q_free] on a queue that owns its blocks. *)
Lemma q_free_spec h head l vs fuel :
  is_queue h head l → owns h head l vs →
  (length l < fuel)%nat →
  ∃ h', q_free fuel head h = Ok tt h' ∧
        brk h' = brk h ∧ oracle h' = oracle h ∧
        ∀ a, cells h' !! a =
             if decide (a ∈ head :: map list_entry l ++ vs) then None
             else cells h !! a.
Proof.
  intros Hq ([lh Hhead] & HF & Hvs) Hfuel. pose proof Hq as (Hnd & Hf & _).
  pose proof (is_queue_next _ _ _ Hq) as Hn.
  pose proof (is_queue_head_not_null _ _ _ Hq) as Hh.
  destruct Hf as [_ (n & Hn' & Hp)].
  assert (n = hd head l) as -> by congruence.
  assert (∃ n', nxt h (hd head l) = Some n' ∧
                (l ≠ [] → n' = hd head (tail l))) as (n' & Hsecond & Hnext).
  { destruct l as [|x l']; simpl in *.
    - by exists head.
    - destruct Hp as [_ (n' & Hn'' & Hp)]. exists n'. split; [done|].
      intros _. by rewrite (path_head _ _ _ _ Hp). }
  destruct (q_free_loop_spec head l vs h (list_entry n') fuel)
    as (h1 & Hloop & Hb & Ho & Hl1 & Hc); try done.
  { intros Hl. by rewrite (Hnext Hl). }
  assert (head ∉ map list_entry l ++ vs) as Hout.
  { intros (c & Hc' & Hne)%(owned_blocks h l vs HF).
    rewrite Hhead in Hc'. injection Hc' as <-. by apply (Hne lh). }
  assert (cells h1 !! head = Some (CHead lh)) as Hhead1.
  { by rewrite Hc, decide_False. }
  exists (set_cells h1 (delete head (cells h1))).
  split; [|split; [done|split; [done|]]].
  - unfold q_free. rewrite eqb_ne by done.
    erewrite bind_ok; [|apply load_next_ok; exact Hn'].
    rewrite list_of_list_entry.
    erewrite bind_ok; [|apply load_next_ok; exact Hsecond].
    erewrite bind_ok; [|exact Hloop].
    unfold free. by rewrite eqb_ne, Hhead1.
  - intros a. simpl. destruct (decide (a = head)) as [->|Ha].
    + rewrite lookup_delete_eq. rewrite decide_True; [done|by left].
    + rewrite lookup_delete_ne by done. rewrite Hc.
      destruct (decide (a ∈ map list_entry l ++ vs)).
      * rewrite decide_True; [done|by right].
      * rewrite decide_False; [done|]. by apply not_elem_of_cons.
Qed.

(** X10: [q_free] on a well-formed queue that owns its blocks (the sentinel
    is a block of its own, the elements own pairwise distinct strings [vs])
    succeeds, and afterwards exactly the sentinel, the elements and their
    strings are gone from the heap; every other block is as before. Each
    block is freed once. *)
Theorem q_free_releases h head l vs fuel :
  is_queue h head l → owns h head l vs →
  (length l < fuel)%nat →
  ∃ h', q_free fuel head h = Ok tt h' ∧
        brk h' = brk h ∧ oracle h' = oracle h ∧
        ∀ a, cells h' !! a =
             if decide (a ∈ head :: map list_entry l ++ vs) then None
             else cells h !! a.
Proof. apply q_free_spec. Qed.

Lemma q_free_releases_witness :
  let ss := ["x"; "y"; "z"]%string in
  let h := built_heap ss in
  ∃ h', q_free 4 (built_head ss) h = Ok tt h' ∧
        brk h' = brk h ∧ oracle h' = oracle h ∧
        ∀ a, cells h' !! a =
             if decide (a ∈ built_head ss ::
                            map list_entry (built_nodes ss) ++ [1088; 1136; 1184])
             then None else cells h !! a.
Proof.
  apply (q_free_releases (built_heap ["x"; "y"; "z"]%string)
           (built_head ["x"; "y"; "z"]%string)
           (built_nodes ["x"; "y"; "z"]%string)
           [1088; 1136; 1184] 4).
  - apply is_queue_b_sound. vm_compute. reflexivity.
  - split; [|split].
    + exists (LH 1064 1160). vm_compute. reflexivity.
    + apply (bool_decide_unpack _). vm_compute. exact I.
    + apply (bool_decide_unpack _). vm_compute. exact I.
  - vm_compute. lia.
Defined.

(** ** [q_delete_dup] on any queue *)

Lemma path_unique f (q : Z) : ∀ l l' p,
  path f p l q → path f p l' q → q ∉ l → q ∉ l' → l = l'.
Proof.
  induction l as [|x l IH]; intros l' p Hp Hp' Hq Hq'.
  - destruct l' as [|x' l']; [done|]. simpl in *. destruct Hp' as [-> _].
    subst. exfalso. apply Hq'. by left.
  - destruct l' as [|x' l']; simpl in *.
    + destruct Hp as [-> _]. subst. exfalso. apply Hq. by left.
    + destruct Hp as [-> (n & Hn & Hp)]. destruct Hp' as [<- (n' & Hn' & Hp')].
      assert (n' = n) as -> by congruence.
      apply not_elem_of_cons in Hq as [_ Hq].
      apply not_elem_of_cons in Hq' as [_ Hq'].
      f_equal. by eapply IH.
Qed.

(** A heap holds at most one queue at a given sentinel. *)
Lemma is_queue_unique h head l l' :
  is_queue h head l → is_queue h head l' → l = l'.
Proof.
  intros (Hnd & [_ (n & Hn & Hp)] & _) (Hnd' & [_ (n' & Hn' & Hp')] & _).
  assert (n' = n) as -> by congruence.
  apply NoDup_cons in Hnd as [Hh _]. apply NoDup_cons in Hnd' as [Hh' _].
  by eapply path_unique.
Qed.

(** X11: what [q_delete_dup] does on every well-formed queue, whatever the
    strings: it returns true, frees nothing and writes no link but the
    sentinel's forward pointer, which ends at the second-to-last node. So a
    queue of at most two elements is left as it is, and from a queue of
    three or more elements on, a forward traversal meets the last two
    elements only while the backward links still hold all of them: the
    result is no well-formed queue at all. *)
Theorem q_delete_dup_keeps_last_two h head l fuel :
  is_queue h head l → (length l + 1 < fuel)%nat →
  ∃ h', q_delete_dup fuel head h = Ok true h' ∧
        relinked h h' ∧
        (∀ y, y ≠ head → nxt h' y = nxt h y) ∧
        (∀ y, prv h' y = prv h y) ∧
        path (nxt h') head (head :: drop (length l - 2) l) head ∧
        ((length l ≤ 2)%nat → is_queue h' head l) ∧
        ((3 ≤ length l)%nat → ∀ l', ¬ is_queue h' head l').
Proof.
  intros Hq Hfuel.
  destruct (q_delete_dup_spec h head l fuel Hq Hfuel)
    as (h' & Hrun & Hrel & Hn & Hp & Hsmall & Hbig).
  pose proof Hq as (Hnd & Hf & Hb).
  assert (path (nxt h') head (head :: drop (length l - 2) l) head) as Hpath.
  { destruct (decide (2 ≤ length l)%nat) as [Hl|Hl]; [by apply Hbig|].
    replace (length l - 2)%nat with 0%nat by lia. rewrite drop_0.
    eapply path_ext; [|exact Hf]. intros y _.
    destruct (decide (y = head)) as [->|Hy]; [|symmetry; by apply Hn].
    symmetry. apply Hsmall. lia. }
  assert (path (prv h') head (head :: reverse l) head) as Hback.
  { eapply path_ext; [|exact Hb]. intros y _. symmetry. apply Hp. }
  exists h'. do 4 (split; [done|]). split; [done|]. split.
  - intros Hl. split; [done|]. split; [|done].
    destruct (decide (2 ≤ length l)%nat) as [Hl2|Hl2].
    + replace (length l - 2)%nat with 0%nat in Hpath by lia.
      by rewrite drop_0 in Hpath.
    + replace (length l - 2)%nat with 0%nat in Hpath by lia.
      by rewrite drop_0 in Hpath.
  - intros Hl l' Hq'.
    assert (l' = drop (length l - 2) l) as El.
    { pose proof Hq' as (Hnd' & [_ (n & Hn' & Hp')] & _).
      destruct Hpath as [_ (n' & Hn'' & Hpath)].
      assert (n' = n) as -> by congruence.
      apply NoDup_cons in Hnd' as [Hh' _]. apply NoDup_cons in Hnd as [Hh _].
      eapply path_unique; [exact Hp'|exact Hpath|done|].
      intros Hin. apply Hh. by apply (subseteq_drop _ _ _ Hin). }
    assert (reverse l' = reverse l) as Er.
    { pose proof Hq' as (Hnd' & _ & [_ (n & Hn' & Hp')]).
      destruct Hback as [_ (n' & Hn'' & Hback)].
      assert (n' = n) as -> by congruence.
      apply NoDup_cons in Hnd' as [Hh' _]. apply NoDup_cons in Hnd as [Hh _].
      eapply path_unique; [exact Hp'|exact Hback| |];
        by rewrite elem_of_reverse. }
    apply (f_equal length) in El, Er.
    rewrite !length_reverse in Er. rewrite length_drop in El. lia.
Qed.

Lemma q_delete_dup_keeps_last_two_witness :
  let ss := ["x"; "y"; "z"]%string in
  let h := built_heap ss in
  let head := built_head ss in
  let l := built_nodes ss in
  ∃ h', q_delete_dup 5 head h = Ok true h' ∧
        relinked h h' ∧
        (∀ y, y ≠ head → nxt h' y = nxt h y) ∧
        (∀ y, prv h' y = prv h y) ∧
        path (nxt h') head (head :: drop (length l - 2) l) head ∧
        ((length l ≤ 2)%nat → is_queue h' head l) ∧
        ((3 ≤ length l)%nat → ∀ l', ¬ is_queue h' head l').
Proof.
  apply (q_delete_dup_keeps_last_two (built_heap ["x"; "y"; "z"]%string)
           (built_head ["x"; "y"; "z"]%string)
           (built_nodes ["x"; "y"; "z"]%string) 5).
  - apply is_queue_b_sound. vm_compute. reflexivity.
  - vm_compute. lia.
Defined.

(** ** [q_swap] twice *)

Lemma swap_pairs_involutive l : swap_pairs (swap_pairs l) = l.
Proof.
  induction l as [| |a b l IH] using pair_ind; [done..|].
  simpl. by rewrite IH.
Qed.

Lemma swap_pairs_length l : length (swap_pairs l) = length l.
Proof.
  induction l as [| |a b l IH] using pair_ind; [done..|].
  simpl. by rewrite IH.
Qed.

(** Two chains over the same nodes give each node the same link. *)
Lemma path_links f f' (l : list Z) p q x :
  path f p l q → path f' p l q → x ∈ l → f x = f' x.
Proof.
  intros Hp Hp' Hx. apply list_elem_of_lookup in Hx as [i Hi].
  pose proof (lookup_lt_Some _ _ _ Hi) as Hlt.
  pose proof (path_at _ _ _ _ i Hp Hlt) as H1.
  pose proof (path_at _ _ _ _ i Hp' Hlt) as H2.
  rewrite (hd_drop_lookup q l i x Hi) in H1, H2. congruence.
Qed.

(** Two heaps that hold the same queue agree on every link of its nodes. *)
Lemma is_queue_links h h' head l x :
  is_queue h head l → is_queue h' head l → x ∈ head :: l →
  nxt h' x = nxt h x ∧ prv h' x = prv h x.
Proof.
  intros (_ & Hf & Hb) (_ & Hf' & Hb') Hx. split.
  - by eapply path_links.
  - eapply path_links; [exact Hb'|exact Hb|].
    rewrite elem_of_cons, elem_of_reverse. by apply elem_of_cons.
Qed.

(** X12: [q_swap] twice gives the queue back: the second call undoes the
    first, every node of the queue has its original links again, and no
    block was allocated, freed or changed otherwise. *)
Theorem q_swap_involution h head l fuel :
  is_queue h head l → (length l < fuel)%nat →
  ∃ h1 h2,
    q_swap fuel head h = Ok tt h1 ∧
    is_queue h1 head (swap_pairs l) ∧
    q_swap fuel head h1 = Ok tt h2 ∧
    is_queue h2 head l ∧
    relinked h h2 ∧
    (∀ x, x ∈ head :: l → nxt h2 x = nxt h x ∧ prv h2 x = prv h x).
Proof.
  intros Hq Hfuel.
  destruct (q_swap_spec h head l fuel Hq Hfuel) as (h1 & Hrun1 & Hq1 & Hrel1).
  destruct (q_swap_spec h1 head (swap_pairs l) fuel Hq1) as (h2 & Hrun2 & Hq2 & Hrel2).
  { by rewrite swap_pairs_length. }
  rewrite swap_pairs_involutive in Hq2.
  exists h1, h2. do 4 (split; [done|]). split.
  - by eapply relinked_trans.
  - intros x Hx. by eapply is_queue_links.
Qed.

Lemma q_swap_involution_witness :
  let ss := ["A"; "B"; "C"; "D"; "E"]%string in
  let h := built_heap ss in
  let head := built_head ss in
  let l := built_nodes ss in
  ∃ h1 h2,
    q_swap 6 head h = Ok tt h1 ∧
    is_queue h1 head (swap_pairs l) ∧
    q_swap 6 head h1 = Ok tt h2 ∧
    is_queue h2 head l ∧
    relinked h h2 ∧
    (∀ x, x ∈ head :: l → nxt h2 x = nxt h x ∧ prv h2 x = prv h x).
Proof.
  apply (q_swap_involution (built_heap ["A"; "B"; "C"; "D"; "E"]%string)
           (built_head ["A"; "B"; "C"; "D"; "E"]%string)
           (built_nodes ["A"; "B"; "C"; "D"; "E"]%string) 6).
  - apply is_queue_b_sound. vm_compute. reflexivity.
  - vm_compute. lia.
Defined.

(** ** [merge] and [merge_sort] on chains *)

Lemma Sorted_val_le_relinked h h' r :
  relinked h h' → Sorted (val_le h) r → Sorted (val_le h') r.
Proof.
  intros Hrel. induction 1 as [|x r _ IH Hhd]; constructor; [done|].
  destruct Hhd as [|y r' Hxy]; constructor.
  unfold val_le in *. by rewrite !(relinked_value_of _ _ _ Hrel).
Qed.

(** X13: [merge] on two disjoint [NULL]-terminated chains of elements with
    strings returns the first node of a [NULL]-terminated chain holding the
    nodes of both; only forward pointers of those nodes are written and
    nothing is allocated or freed. If both chains are sorted so is the
    result, and an empty chain gives the other chain back. *)
Theorem merge_sorted_chains h l1 l2 p1 p2 fuel :
  path (nxt h) p1 l1 0 → path (nxt h) p2 l2 0 → NoDup (l1 ++ l2) →
  (∀ x, x ∈ l1 ++ l2 → has_string h x) →
  (length l1 + length l2 < fuel)%nat →
  ∃ h' r,
    merge fuel p1 p2 h = Ok (hd 0 r) h' ∧
    path (nxt h') (hd 0 r) r 0 ∧
    r ≡ₚ l1 ++ l2 ∧
    relinked h h' ∧
    (∀ y, prv h' y = prv h y) ∧
    (∀ y, y ∉ l1 ++ l2 → nxt h' y = nxt h y) ∧
    (Sorted (val_le h) l1 → Sorted (val_le h) l2 → Sorted (val_le h') r) ∧
    (l1 = [] → r = l2) ∧ (l2 = [] → r = l1).
Proof.
  intros Hp1 Hp2 Hnd Hstr Hfuel.
  destruct (merge_spec h h l1 l2 p1 p2 fuel (relinked_refl h) Hp1 Hp2 Hnd Hstr Hfuel)
    as (h' & Hrun & Hp & Hrel & Hprv & Hnxt).
  exists h', (list_merge (val_lt h) l1 l2).
  split; [done|]. split; [done|]. split; [apply merge_Permutation|].
  do 3 (split; [done|]). split; [|split].
  - intros Hs1 Hs2. apply (Sorted_val_le_relinked h); [done|].
    by apply Sorted_list_merge_val.
  - intros ->. by destruct l2.
  - intros ->. by destruct l1.
Qed.

Lemma merge_sorted_chains_witness :
  let h := two_chains in
  ∃ h' r,
    merge 3 808 856 h = Ok (hd 0 r) h' ∧
    path (nxt h') (hd 0 r) r 0 ∧
    r ≡ₚ [808] ++ [856] ∧
    relinked h h' ∧
    (∀ y, prv h' y = prv h y) ∧
    (∀ y, y ∉ [808] ++ [856] → nxt h' y = nxt h y) ∧
    (Sorted (val_le h) [808] → Sorted (val_le h) [856] →
     Sorted (val_le h') r) ∧
    ([808] = [] → r = [856]) ∧ ([856] = [] → r = [808]).
Proof.
  apply (merge_sorted_chains two_chains [808] [856] 808 856 3).
  - apply path_b_sound. vm_compute. reflexivity.
  - apply path_b_sound. vm_compute. reflexivity.
  - apply (bool_decide_unpack _). vm_compute. exact I.
  - apply has_string_b_sound. vm_compute. reflexivity.
  - vm_compute. lia.
Defined.

(** X14: [merge_sort] on a [NULL]-terminated chain of distinct elements with
    strings returns the first node of a [NULL]-terminated chain of the same
    nodes in ascending order of their strings; backward pointers and all
    other nodes are untouched, and nothing is allocated or freed. *)
Theorem merge_sort_sorts h l p fuel :
  NoDup l → path (nxt h) p l 0 →
  (∀ x, x ∈ l → has_string h x) →
  (length l + 2 ≤ fuel)%nat →
  ∃ h' r,
    merge_sort fuel p h = Ok (hd 0 r) h' ∧
    path (nxt h') (hd 0 r) r 0 ∧
    r ≡ₚ l ∧
    Sorted (val_le h') r ∧
    relinked h h' ∧
    (∀ y, prv h' y = prv h y) ∧
    (∀ y, y ∉ l → nxt h' y = nxt h y).
Proof.
  intros Hnd Hp Hstr Hfuel.
  destruct (merge_sort_spec h (length l) l h p fuel)
    as (h' & r & Hrun & Hp' & Hperm & Hsorted & Hrel & Hprv & Hnxt);
    try done.
  exists h', r. do 3 (split; [done|]). split; [|done].
  by apply (Sorted_val_le_relinked h).
Qed.

Lemma merge_sort_sorts_witness :
  ∃ h' r,
    merge_sort 5 1064 cut_chain = Ok (hd 0 r) h' ∧
    path (nxt h') (hd 0 r) r 0 ∧
    r ≡ₚ [1064; 1112; 1160] ∧
    Sorted (val_le h') r ∧
    relinked cut_chain h' ∧
    (∀ y, prv h' y = prv cut_chain y) ∧
    (∀ y, y ∉ [1064; 1112; 1160] → nxt h' y = nxt cut_chain y).
Proof.
  apply (merge_sort_sorts cut_chain [1064; 1112; 1160] 1064 5).
  - apply (bool_decide_unpack _). vm_compute. exact I.
  - apply path_b_sound. vm_compute. reflexivity.
  - apply has_string_b_sound. vm_compute. reflexivity.
  - vm_compute. lia.
Defined.

(** ** [q_sort] against a reference sort *)

#[local] Instance lex_le_is_total : Total lex_le.
Proof. intros a b. apply lex_le_total. Qed.

(** X15: the strings read from the queue after [q_sort], front to back, are
    the strings it held before in ascending order: the list a reference
    merge sort computes from them. The queue stays well-formed, and no
    string and no block other than link fields changes. *)
Theorem q_sort_reference h head l fuel :
  is_queue h head l → (∀ x, x ∈ l → has_string h x) →
  (length l + 2 ≤ fuel)%nat →
  ∃ h' r,
    q_sort fuel head h = Ok tt h' ∧
    is_queue h' head r ∧
    relinked h h' ∧
    value_of h' <$> r = sorting.merge_sort lex_le (value_of h <$> l).
Proof.
  intros Hq Hstr Hfuel.
  destruct (q_sort_spec h head l fuel Hq Hstr Hfuel)
    as (h' & r & Hrun & Hq' & Hperm & Hsorted & Hrel).
  exists h', r. do 3 (split; [done|]).
  apply (Sorted_unique lex_le).
  - by apply (Sorted_val_le_fmap h).
  - apply Sorted_merge_sort; apply _.
  - rewrite merge_sort_Permutation, Hperm.
    replace (value_of h' <$> l) with (value_of h <$> l); [done|].
    apply list_fmap_ext. intros i x _. symmetry.
    by apply relinked_value_of.
Qed.

Lemma q_sort_reference_witness :
  let ss := ["d"; "b"; "e"; "a"; "c"]%string in
  let h := built_heap ss in
  ∃ h' r,
    q_sort 7 (built_head ss) h = Ok tt h' ∧
    is_queue h' (built_head ss) r ∧
    relinked h h' ∧
    value_of h' <$> r
    = sorting.merge_sort lex_le (value_of h <$> built_nodes ss).
Proof.
  apply (q_sort_reference (built_heap ["d"; "b"; "e"; "a"; "c"]%string)
           (built_head ["d"; "b"; "e"; "a"; "c"]%string)
           (built_nodes ["d"; "b"; "e"; "a"; "c"]%string) 7).
  - apply is_queue_b_sound. vm_compute. reflexivity.
  - apply has_string_b_sound. vm_compute. reflexivity.
  - vm_compute. lia.
Defined.

(** ** Inserting at the tail, removing from the tail, releasing *)

(** X16: after a successful [q_insert_tail], [q_remove_tail] returns the
    element just inserted, holding the bytes of [s]; releasing it with
    [q_release_element] leaves the heap with exactly the blocks it had
    before the insertion, each with the payload it had, and the queue is
    the original one, with the original links: nothing leaks. *)
Theorem insert_tail_remove_tail_release h head l s bs n j1 j2 o bufsize :
  heap_ok h → is_queue h head l →
  chars_at (cells h) s = Some bs → strlen_bytes bs = Some n →
  oracle h = Some j1 :: Some j2 :: o →
  ∃ h1 h2 h3 e,
    q_insert_tail head s h = Ok true h1 ∧
    q_remove_tail head NULL bufsize h1 = Ok e h2 ∧
    value_of h2 (list_of e) = cstr bs ∧
    q_release_element e h2 = Ok tt h3 ∧
    is_queue h3 head l ∧
    (∀ x, x ∈ head :: l → nxt h3 x = nxt h x ∧ prv h3 x = prv h x) ∧
    (∀ a, unlink <$> (cells h3 !! a) = unlink <$> (cells h !! a)).
Proof.
  intros Hok Hq Hs Hn Ho.
  destruct (q_insert_tail_spec h head l s bs n j1 j2 o Hok Hq Hs Hn Ho)
    as (h1 & Hrun1 & Hq1 & He & Hv & Hne & Hsame & _).
  pose proof (heap_ok_unfold _ Hok) as (Hbrk & Hlive & _).
  set (e := brk h) in *. set (buf := brk h + 32) in *.
  assert (cells h !! e = None) as Hfe by (apply heap_ok_fresh; [done|lia]).
  assert (cells h !! buf = None) as Hfb
    by (apply heap_ok_fresh; [done|unfold buf; lia]).
  assert (list_entry (list_of e) = e) as Ele
    by (unfold list_entry, list_of; lia).
  assert (list_of e ∉ head :: l) as Hnin.
  { intros Hin. pose proof (is_queue_nodes _ _ _ _ Hq Hin) as Hnode.
    apply (heap_ok_node _ _ Hok) in Hnode. unfold list_of, e in Hnode. lia. }
  destruct (q_remove_tail_run h1 head l (list_of e) Hq1)
    as (h2 & Hrel2 & Hq2 & _ & _ & Hrun2).
  rewrite Ele in Hrun2.
  assert (elem_at (cells h2) (list_entry (list_of e)) = Some buf) as He2.
  { by rewrite Ele, (relinked_elem_at _ _ _ Hrel2). }
  assert (chars_at (cells h2) buf = Some (cstr bs ++ [0])) as Hv2.
  { by rewrite (relinked_chars_at _ _ _ Hrel2). }
  destruct (q_release_element_spec h2 (list_of e) buf _ He2 Hv2)
    as (h3 & Hrun3 & Hc3 & _ & _ & Hlinks).
  rewrite Ele in Hrun3, Hc3.
  assert (is_queue h3 head l) as Hq3.
  { eapply is_queue_ext; [exact Hq2|]. intros y Hy. apply Hlinks.
    by intros ->. }
  exists h1, h2, h3, e. split; [done|]. split; [by rewrite Hrun2|].
  split; [|split; [done|split; [done|split]]].
  - unfold value_of. rewrite He2, Hv2. apply cstr_terminated, cstr_nonzero.
  - intros x Hx. by eapply is_queue_links.
  - intros a. rewrite Hc3.
    destruct (decide (a = e)) as [->|Hae].
    { by rewrite lookup_delete_eq, Hfe. }
    rewrite lookup_delete_ne by done.
    destruct (decide (a = buf)) as [->|Hab].
    { by rewrite lookup_delete_eq, Hfb. }
    rewrite lookup_delete_ne by done.
    destruct Hrel2 as (_ & _ & Hrel2). rewrite Hrel2. by apply Hsame.
Qed.

Lemma insert_tail_remove_tail_release_witness :
  let ss := ["x"; "y"]%string in
  let h := with_oracle (built_heap ss) [Some 85; Some 85] in
  let head := built_head ss in
  let l := built_nodes ss in
  ∃ h1 h2 h3 e,
    q_insert_tail head 512 h = Ok true h1 ∧
    q_remove_tail head NULL 8 h1 = Ok e h2 ∧
    value_of h2 (list_of e) = cstr (c_bytes "y") ∧
    q_release_element e h2 = Ok tt h3 ∧
    is_queue h3 head l ∧
    (∀ x, x ∈ head :: l → nxt h3 x = nxt h x ∧ prv h3 x = prv h x) ∧
    (∀ a, unlink <$> (cells h3 !! a) = unlink <$> (cells h !! a)).
Proof.
  apply (insert_tail_remove_tail_release
           (with_oracle (built_heap ["x"; "y"]%string) [Some 85; Some 85])
           (built_head ["x"; "y"]%string) (built_nodes ["x"; "y"]%string)
           512 (c_bytes "y") 1 85 85 [] 8).
  - apply (bool_decide_unpack _). vm_compute. exact I.
  - apply is_queue_b_sound. vm_compute. reflexivity.
  - vm_compute. reflexivity.
  - vm_compute. reflexivity.
  - vm_compute. reflexivity.
Defined.

(** ** [q_size] after the other operations *)

(** X17: [q_reverse], [q_swap] and [q_sort] keep the number of elements:
    [q_size] called after any of them reports the size the queue had. *)
Theorem reorder_keeps_size h head l fuel :
  is_queue h head l → (∀ x, x ∈ l → has_string h x) →
  Z.of_nat (length l) < 2 ^ 31 → (length l + 2 ≤ fuel)%nat →
  let n := Z.of_nat (length l) in
  (∃ h', q_reverse fuel head h = Ok tt h' ∧ q_size fuel head h' = Ok n h') ∧
  (∃ h', q_swap fuel head h = Ok tt h' ∧ q_size fuel head h' = Ok n h') ∧
  (∃ h', q_sort fuel head h = Ok tt h' ∧ q_size fuel head h' = Ok n h').
Proof.
  intros Hq Hstr Hlen Hfuel n. split; [|split].
  - destruct (q_reverse_spec h head l fuel Hq) as (h' & Hrun & _ & Hin & _);
      [lia|].
    pose proof (reversed_is_queue h h' head l Hq Hin) as Hq'.
    exists h'. split; [done|]. unfold n. rewrite <- (length_reverse l).
    apply q_size_spec; [done|rewrite length_reverse..]; lia.
  - destruct (q_swap_spec h head l fuel Hq) as (h' & Hrun & Hq' & _); [lia|].
    exists h'. split; [done|]. unfold n. rewrite <- (swap_pairs_length l).
    apply q_size_spec; [done|rewrite swap_pairs_length..]; lia.
  - destruct (q_sort_spec h head l fuel Hq Hstr Hfuel)
      as (h' & r & Hrun & Hq' & Hperm & _).
    exists h'. split; [done|]. unfold n. rewrite <- (Permutation_length Hperm).
    apply q_size_spec; [done|rewrite (Permutation_length Hperm)..]; lia.
Qed.

Lemma reorder_keeps_size_witness :
  let ss := ["d"; "b"; "e"; "a"; "c"]%string in
  let h := built_heap ss in
  let head := built_head ss in
  let n := Z.of_nat (length (built_nodes ss)) in
  (∃ h', q_reverse 7 head h = Ok tt h' ∧ q_size 7 head h' = Ok n h') ∧
  (∃ h', q_swap 7 head h = Ok tt h' ∧ q_size 7 head h' = Ok n h') ∧
  (∃ h', q_sort 7 head h = Ok tt h' ∧ q_size 7 head h' = Ok n h').
Proof.
  apply (reorder_keeps_size (built_heap ["d"; "b"; "e"; "a"; "c"]%string)
           (built_head ["d"; "b"; "e"; "a"; "c"]%string)
           (built_nodes ["d"; "b"; "e"; "a"; "c"]%string) 7).
  - apply is_queue_b_sound. vm_compute. reflexivity.
  - apply has_string_b_sound. vm_compute. reflexivity.
  - vm_compute. reflexivity.
  - vm_compute. lia.
Defined.

(** ** [q_insert_tail] by allocation outcome *)

(** X18: the three outcomes of [q_insert_tail] on a well-formed queue and a
    terminated string. Both allocations served: true, and the element is
    appended. The first refused: false, and no block changes. The first
    served and the second refused: the string is copied through a [NULL]
    pointer, because the result of the second [malloc] is not tested. *)
Theorem q_insert_tail_outcomes h head l s bs n :
  heap_ok h → is_queue h head l →
  chars_at (cells h) s = Some bs → strlen_bytes bs = Some n →
  match oracle h with
  | Some _ :: Some _ :: _ =>
      ∃ h' x, q_insert_tail head s h = Ok true h' ∧
              is_queue h' head (l ++ [x]) ∧ value_of h' x = cstr bs
  | Some _ :: _ => q_insert_tail head s h = Fault
  | _ =>
      ∃ h', q_insert_tail head s h = Ok false h' ∧ cells h' = cells h
  end.
Proof.
  intros Hok Hq Hs Hn.
  pose proof (is_queue_head_not_null _ _ _ Hq) as Hh.
  destruct (oracle h) as [|[j1|] o1] eqn:Ho.
  1,3: unfold q_insert_tail; rewrite eqb_ne by done;
       unfold bind, malloc_element, malloc; rewrite Ho;
       eexists; split; reflexivity.
  destruct o1 as [|[j2|] o].
  1,3: eapply q_insert_tail_no_buffer; eauto.
  destruct (q_insert_tail_spec h head l s bs n j1 j2 o Hok Hq Hs Hn Ho)
    as (h' & Hrun & Hq' & He & Hv & _).
  exists h', (list_of (brk h)). do 2 (split; [done|]).
  unfold value_of.
  replace (list_entry (list_of (brk h))) with (brk h)
    by (unfold list_entry, list_of; lia).
  rewrite He, Hv. apply cstr_terminated, cstr_nonzero.
Qed.

Lemma q_insert_tail_outcomes_witness :
  let ss := ["x"; "y"]%string in
  let h := with_oracle (built_heap ss) [Some 85] in
  match oracle h with
  | Some _ :: Some _ :: _ =>
      ∃ h' x, q_insert_tail (built_head ss) 512 h = Ok true h' ∧
              is_queue h' (built_head ss) (built_nodes ss ++ [x]) ∧
              value_of h' x = cstr (c_bytes "y")
  | Some _ :: _ => q_insert_tail (built_head ss) 512 h = Fault
  | _ =>
      ∃ h', q_insert_tail (built_head ss) 512 h = Ok false h' ∧
            cells h' = cells h
  end.
Proof.
  apply (q_insert_tail_outcomes
           (with_oracle (built_heap ["x"; "y"]%string) [Some 85])
           (built_head ["x"; "y"]%string) (built_nodes ["x"; "y"]%string)
           512 (c_bytes "y") 1).
  - apply (bool_decide_unpack _). vm_compute. exact I.
  - apply is_queue_b_sound. vm_compute. reflexivity.
  - vm_compute. reflexivity.
  - vm_compute. reflexivity.
Defined.

(** ** First in, first out *)

(** X19: elements leave in the order they came. After a successful
    [q_insert_tail] on a queue [l], [q_remove_head] returns the oldest
    element: the first of [l], or the new element when [l] is empty. The
    new element stays last, and the string of the removed element is the
    one it had. *)
Theorem insert_tail_remove_head_fifo h head l s bs n j1 j2 o bufsize :
  heap_ok h → is_queue h head l → (∀ y, y ∈ l → has_string h y) →
  chars_at (cells h) s = Some bs → strlen_bytes bs = Some n →
  oracle h = Some j1 :: Some j2 :: o →
  ∃ h1 h2 x,
    q_insert_tail head s h = Ok true h1 ∧
    value_of h1 x = cstr bs ∧
    q_remove_head head NULL bufsize h1 = Ok (list_entry (hd x l)) h2 ∧
    is_queue h2 head (tail (l ++ [x])) ∧
    (∀ y, y ∈ l → value_of h2 y = value_of h y) ∧
    value_of h2 x = cstr bs.
Proof.
  intros Hok Hq Hstr Hs Hn Ho.
  destruct (q_insert_tail_spec h head l s bs n j1 j2 o Hok Hq Hs Hn Ho)
    as (h1 & Hrun1 & Hq1 & He & Hv & Hne & Hsame & _).
  pose proof (heap_ok_unfold _ Hok) as (Hbrk & Hlive & _).
  assert (cells h !! brk h = None) as Hfe by (apply heap_ok_fresh; [done|lia]).
  assert (cells h !! (brk h + 32) = None) as Hfb
    by (apply heap_ok_fresh; [done|lia]).
  set (x := list_of (brk h)) in *.
  assert (value_of h1 x = cstr bs) as Hval.
  { unfold value_of, x.
    replace (list_entry (list_of (brk h))) with (brk h)
      by (unfold list_entry, list_of; lia).
    rewrite He, Hv. apply cstr_terminated, cstr_nonzero. }
  assert (l ++ [x] = hd x l :: tail (l ++ [x])) as El by (by destruct l).
  rewrite El in Hq1.
  destruct (q_remove_head_run h1 head _ _ Hq1)
    as (h2 & Hrel2 & Hq2 & _ & _ & Hrun2).
  exists h1, h2, x. do 2 (split; [done|]). split; [by rewrite Hrun2|].
  split; [done|]. split.
  - intros y Hy. rewrite (relinked_value_of _ _ _ Hrel2).
    apply (value_of_frame h h1 (brk h) (brk h + 32)); auto.
  - by rewrite (relinked_value_of _ _ _ Hrel2).
Qed.

Lemma insert_tail_remove_head_fifo_witness :
  let ss := ["x"; "y"]%string in
  let h := with_oracle (built_heap ss) [Some 85; Some 85] in
  let head := built_head ss in
  let l := built_nodes ss in
  ∃ h1 h2 x,
    q_insert_tail head 512 h = Ok true h1 ∧
    value_of h1 x = cstr (c_bytes "y") ∧
    q_remove_head head NULL 8 h1 = Ok (list_entry (hd x l)) h2 ∧
    is_queue h2 head (tail (l ++ [x])) ∧
    (∀ y, y ∈ l → value_of h2 y = value_of h y) ∧
    value_of h2 x = cstr (c_bytes "y").
Proof.
  apply (insert_tail_remove_head_fifo
           (with_oracle (built_heap ["x"; "y"]%string) [Some 85; Some 85])
           (built_head ["x"; "y"]%string) (built_nodes ["x"; "y"]%string)
           512 (c_bytes "y") 1 85 85 [] 8).
  - apply (bool_decide_unpack _). vm_compute. exact I.
  - apply is_queue_b_sound. vm_compute. reflexivity.
  - apply has_string_b_sound. vm_compute. reflexivity.
  - vm_compute. reflexivity.
  - vm_compute. reflexivity.
  - vm_compute. reflexivity.
Defined.

(** ** Ownership: from [q_new] through [q_insert_tail] to [q_free] *)

Lemma elem_at_live (m : gmap Z cell) e v : elem_at m e = Some v → is_Some (m !! e).
Proof.
  unfold elem_at. case_decide; [done|]. destruct (m !! e); [eauto|done].
Qed.

Lemma chars_at_live (m : gmap Z cell) b : is_Some (chars_at m b) → is_Some (m !! b).
Proof.
  unfold chars_at. case_decide; [by intros []|].
  destruct (m !! b); [eauto|by intros []].
Qed.

(** A successful [q_insert_tail] on a queue that owns its blocks. *)
Lemma q_insert_tail_owns h head l vs s bs n j1 j2 o :
  heap_ok h → is_queue h head l → owns h head l vs →
  chars_at (cells h) s = Some bs → strlen_bytes bs = Some n →
  oracle h = Some j1 :: Some j2 :: o →
  let x := list_of (brk h) in
  let v := brk h + 32 in
  ∃ h', q_insert_tail head s h = Ok true h' ∧
        is_queue h' head (l ++ [x]) ∧
        owns h' head (l ++ [x]) (vs ++ [v]) ∧
        value_of h' x = cstr bs ∧
        heap_ok h' ∧ oracle h' = o ∧
        cells h !! list_entry x = None ∧ cells h !! v = None ∧
        (∀ a, a ≠ list_entry x → a ≠ v →
              unlink <$> (cells h' !! a) = unlink <$> (cells h !! a)).
Proof.
  intros Hok Hq ([lh Hhead] & HF & Hvs) Hs Hn Ho x v.
  destruct (q_insert_tail_spec h head l s bs n j1 j2 o Hok Hq Hs Hn Ho)
    as (h' & Hrun & Hq' & He & Hv & Hne & Hsame & Ho' & Hok').
  pose proof (heap_ok_unfold _ Hok) as (Hbrk & Hlive & _).
  assert (list_entry x = brk h) as Ele
    by (unfold x, list_entry, list_of; lia).
  assert (cells h !! brk h = None) as Hfe by (apply heap_ok_fresh; [done|lia]).
  assert (cells h !! v = None) as Hfb
    by (apply heap_ok_fresh; [done|unfold v; lia]).
  assert (∀ a, is_Some (cells h !! a) → a ≠ brk h ∧ a ≠ v) as Hold.
  { intros a [c Hc]. split; intros ->; congruence. }
  exists h'. rewrite Ele. do 2 (split; [done|]).
  split; [|split; [|do 4 (split; [done|]); by apply Hsame]].
  - split; [|split].
    + destruct (Hold head) as [H1 H2]; [by eauto|].
      pose proof (Hsame head H1 H2) as Hsh. rewrite Hhead in Hsh.
      destruct (cells h' !! head) as [[lh'| |]|]; simpl in Hsh;
        try done. by eauto.
    + apply Forall2_app.
      * eapply Forall2_impl; [exact HF|]. intros y vy [Hy Hvy]. simpl.
        destruct (Hold _ (elem_at_live _ _ _ Hy)) as [??].
        destruct (Hold _ (chars_at_live _ _ Hvy)) as [??].
        rewrite (elem_at_unlink (cells h) (cells h')) by (by apply Hsame).
        by rewrite (chars_at_unlink (cells h) (cells h')) by (by apply Hsame).
      * constructor; [|constructor]. rewrite Ele, He. unfold v.
        rewrite Hv. eauto.
    + apply NoDup_app. split; [done|]. split; [|apply NoDup_singleton].
      intros vy Hvy ->%list_elem_of_singleton.
      assert (Forall (λ w, is_Some (cells h !! w)) vs) as Hall.
      { clear -HF. induction HF as [|y w l vs [_ Hc] _ IH]; constructor;
          [by apply chars_at_live|done]. }
      rewrite Forall_forall in Hall. destruct (Hall _ Hvy) as [c Hc].
      congruence.
  - unfold value_of. rewrite Ele, He. unfold v. rewrite Hv.
    apply cstr_terminated, cstr_nonzero.
Qed.

(** X20: a successful [q_insert_tail] keeps what [q_free] needs. If the
    queue owns its blocks before, it owns them after, with the new element
    and its fresh string added; both new blocks lie at addresses that were
    free, all other blocks keep their payload, and the allocator's
    invariant holds again. *)
Theorem q_insert_tail_keeps_ownership h head l vs s bs n j1 j2 o :
  heap_ok h → is_queue h head l → owns h head l vs →
  chars_at (cells h) s = Some bs → strlen_bytes bs = Some n →
  oracle h = Some j1 :: Some j2 :: o →
  ∃ h' x v,
    q_insert_tail head s h = Ok true h' ∧
    is_queue h' head (l ++ [x]) ∧
    owns h' head (l ++ [x]) (vs ++ [v]) ∧
    value_of h' x = cstr bs ∧
    heap_ok h' ∧ oracle h' = o ∧
    cells h !! list_entry x = None ∧ cells h !! v = None ∧
    (∀ a, a ≠ list_entry x → a ≠ v →
          unlink <$> (cells h' !! a) = unlink <$> (cells h !! a)).
Proof.
  intros Hok Hq Hown Hs Hn Ho.
  destruct (q_insert_tail_owns h head l vs s bs n j1 j2 o Hok Hq Hown Hs Hn Ho)
    as (h' & H).
  by exists h', (list_of (brk h)), (brk h + 32).
Qed.

Lemma q_insert_tail_keeps_ownership_witness :
  let ss := ["x"; "y"]%string in
  let h := with_oracle (built_heap ss) [Some 85; Some 85] in
  let head := built_head ss in
  let l := built_nodes ss in
  ∃ h' x v,
    q_insert_tail head 512 h = Ok true h' ∧
    is_queue h' head (l ++ [x]) ∧
    owns h' head (l ++ [x]) ([832; 880] ++ [v]) ∧
    value_of h' x = cstr (c_bytes "y") ∧
    heap_ok h' ∧ oracle h' = [] ∧
    cells h !! list_entry x = None ∧ cells h !! v = None ∧
    (∀ a, a ≠ list_entry x → a ≠ v →
          unlink <$> (cells h' !! a) = unlink <$> (cells h !! a)).
Proof.
  apply (q_insert_tail_keeps_ownership
           (with_oracle (built_heap ["x"; "y"]%string) [Some 85; Some 85])
           (built_head ["x"; "y"]%string) (built_nodes ["x"; "y"]%string)
           [832; 880] 512 (c_bytes "y") 1 85 85 []).
  - apply (bool_decide_unpack _). vm_compute. exact I.
  - apply is_queue_b_sound. vm_compute. reflexivity.
  - split; [|split].
    + exists (LH 808 856). vm_compute. reflexivity.
    + apply (bool_decide_unpack _). vm_compute. exact I.
    + apply (bool_decide_unpack _). vm_compute. exact I.
  - vm_compute. reflexivity.
  - vm_compute. reflexivity.
  - vm_compute. reflexivity.
Defined.

(** ** The whole life of a queue *)

Lemma strlen_c_bytes s : is_Some (strlen_bytes (c_bytes s)).
Proof.
  induction s as [|a s [n IH]]; simpl; [by eauto|].
  destruct (Z.of_nat (nat_of_ascii a) =? 0); [by eauto|].
  rewrite IH. simpl. by eauto.
Qed.

Lemma literals_lookup ss : ∀ a i s,
  ss !! i = Some s →
  literals a ss !! (a + 256 * Z.of_nat i) = Some (CChars (c_bytes s)).
Proof.
  induction ss as [|s0 ss IH]; intros a i s Hi; [done|]. simpl.
  destruct i as [|i]; simpl in Hi.
  - injection Hi as ->. replace (a + 256 * Z.of_nat 0) with a by lia.
    by rewrite lookup_insert_eq.
  - rewrite lookup_insert_ne by lia.
    replace (a + 256 * Z.of_nat (S i)) with (a + 256 + 256 * Z.of_nat i) by lia.
    by apply IH.
Qed.

Lemma literals_lookup_inv ss : ∀ a b c,
  literals a ss !! b = Some c →
  ∃ i s, ss !! i = Some s ∧ b = a + 256 * Z.of_nat i ∧ c = CChars (c_bytes s).
Proof.
  induction ss as [|s0 ss IH]; intros a b c Hc; simpl in Hc; [done|].
  destruct (decide (a = b)) as [->|Hab].
  - rewrite lookup_insert_eq in Hc. injection Hc as <-.
    exists 0%nat, s0. split; [done|]. split; [lia|done].
  - rewrite lookup_insert_ne in Hc by done.
    destruct (IH _ _ _ Hc) as (i & s & Hi & -> & ->).
    exists (S i), s. split; [done|]. split; [lia|done].
Qed.

Lemma heap_ok_literal ss o :
  Forall (λ s, Z.of_nat (length (c_bytes s)) < size_max) ss →
  heap_ok (literal_heap ss o).
Proof.
  intros Hsize. split; simpl; [lia|]. intros b c Hc.
  destruct (literals_lookup_inv _ _ _ _ Hc) as (i & s & Hi & -> & ->).
  pose proof (lookup_lt_Some _ _ _ Hi) as Hlt.
  split; [lia|]. by apply (Forall_lookup_1 _ _ _ _ Hsize Hi).
Qed.

(** Blocks that are live keep their payload when the only changes are
    link fields and blocks at fresh addresses. *)
Lemma value_of_kept h h' y v :
  (∀ c, is_Some (cells h !! c) →
        unlink <$> (cells h' !! c) = unlink <$> (cells h !! c)) →
  elem_at (cells h) (list_entry y) = Some v →
  is_Some (chars_at (cells h) v) →
  value_of h' y = value_of h y.
Proof.
  intros Hkeep Hv Hbs. unfold value_of.
  rewrite (elem_at_unlink (cells h) (cells h'))
    by (by eapply Hkeep, elem_at_live).
  rewrite Hv.
  by rewrite (chars_at_unlink (cells h) (cells h'))
    by (by eapply Hkeep, chars_at_live).
Qed.

(** Appending the strings [bss], found at [a], [a + 256], ..., with every
    allocation served: the invariants of a queue that owns its blocks are
    kept, and the elements hold the strings in order. *)
Lemma insert_all_spec head j : ∀ bss a h l vs o,
  heap_ok h → is_queue h head l → owns h head l vs →
  oracle h = replicate (2 * length bss) (Some j) ++ o →
  (∀ i bs, bss !! i = Some bs →
           chars_at (cells h) (a + 256 * Z.of_nat i) = Some bs ∧
           is_Some (strlen_bytes bs)) →
  ∃ h' l' vs',
    insert_all head a (length bss) h = Ok tt h' ∧
    heap_ok h' ∧
    is_queue h' head (l ++ l') ∧
    owns h' head (l ++ l') (vs ++ vs') ∧
    oracle h' = o ∧
    value_of h' <$> l' = cstr <$> bss ∧
    (∀ b, b ∈ map list_entry l' ++ vs' → cells h !! b = None) ∧
    (∀ b, b ∉ map list_entry l' ++ vs' →
          unlink <$> (cells h' !! b) = unlink <$> (cells h !! b)).
Proof.
  induction bss as [|bs bss IH]; intros a h l vs o Hok Hq Hown Ho Hlit.
  - exists h, [], []. rewrite !app_nil_r. simpl in *.
    do 6 (split; [done|]). split; [|done].
    intros b Hb. by apply elem_of_nil in Hb.
  - replace (2 * length (bs :: bss))%nat with (S (S (2 * length bss))) in Ho
      by (simpl; lia).
    cbn [replicate app] in Ho.
    destruct (Hlit 0%nat bs eq_refl) as [Hs [n Hn]].
    replace (a + 256 * Z.of_nat 0) with a in Hs by lia.
    destruct (q_insert_tail_owns h head l vs a bs n j j _ Hok Hq Hown Hs Hn Ho)
      as (h1 & Hrun1 & Hq1 & Hown1 & Hval1 & Hok1 & Ho1 & Hfe & Hfv & Hsame).
    set (x := list_of (brk h)) in *. set (v := brk h + 32) in *.
    assert (∀ c, is_Some (cells h !! c) →
                 unlink <$> (cells h1 !! c) = unlink <$> (cells h !! c))
      as Hkeep1.
    { intros c [cc Hc]. apply Hsame; intros ->; congruence. }
    destruct (IH (a + 256) h1 (l ++ [x]) (vs ++ [v]) o Hok1 Hq1 Hown1 Ho1)
      as (h' & l' & vs' & Hrun & Hok' & Hq' & Hown' & Ho' & Hvals & Hfresh
          & Hsame').
    { intros i bs' Hi. destruct (Hlit (S i) bs' Hi) as [Hc Hlen].
      split; [|done].
      replace (a + 256 + 256 * Z.of_nat i) with (a + 256 * Z.of_nat (S i))
        by lia.
      rewrite <- Hc. apply chars_at_unlink, Hkeep1, chars_at_live.
      by rewrite Hc. }
    assert (∀ c, is_Some (cells h1 !! c) →
                 unlink <$> (cells h' !! c) = unlink <$> (cells h1 !! c))
      as Hkeep'.
    { intros c [cc Hc]. apply Hsame'. intros Hin%Hfresh. congruence. }
    assert (elem_at (cells h1) (list_entry x) = Some v ∧
            is_Some (chars_at (cells h1) v)) as [Hex Hvx].
    { destruct Hown as (_ & HF & _). destruct Hown1 as (_ & HF1 & _).
      apply Forall2_app_inv in HF1 as [_ HF1];
        [|by apply Forall2_length in HF].
      by apply Forall2_cons_1 in HF1 as [? _]. }
    exists h', (x :: l'), (v :: vs').
    rewrite <- (app_assoc l [x] l') in Hq', Hown'.
    rewrite <- (app_assoc vs [v] vs') in Hown'. simpl in Hq', Hown'.
    split; [|do 4 (split; [done|]); split; [|split]].
    + cbn [length insert_all]. by erewrite bind_ok; [|exact Hrun1].
    + rewrite !fmap_cons, Hvals. f_equal.
      by rewrite (value_of_kept h1 h' x v).
    + intros b Hb.
      rewrite fmap_cons, <- app_comm_cons, elem_of_cons, elem_of_app,
        elem_of_cons in Hb.
      assert (cells h1 !! b = None → cells h !! b = None) as Hback.
      { intros Hn1. destruct (decide (b = list_entry x)) as [->|?]; [done|].
        destruct (decide (b = v)) as [->|?]; [done|].
        specialize (Hsame b ltac:(done) ltac:(done)). rewrite Hn1 in Hsame.
        by destruct (cells h !! b). }
      destruct Hb as [->|[Hb|[->|Hb]]]; [done| |done|].
      * apply Hback, Hfresh, elem_of_app. by left.
      * apply Hback, Hfresh, elem_of_app. by right.
    + intros b Hb.
      rewrite fmap_cons, <- app_comm_cons, elem_of_cons, elem_of_app,
        elem_of_cons in Hb.
      rewrite Hsame'; [apply Hsame|]; [naive_solver..|].
      rewrite elem_of_app. naive_solver.
Qed.

(** X21: the whole life of a queue. For every list of strings [ss] (each
    fitting the address space), [q_new] followed by one [q_insert_tail] per
    string, with every allocation served, yields a well-formed queue whose
    elements hold the strings in order; [q_free] on it succeeds and leaves
    in the heap exactly the blocks that were there before [q_new]: nothing
    leaks and nothing else is freed. *)
Theorem build_then_free ss :
  Forall (λ s, Z.of_nat (length (c_bytes s)) < size_max) ss →
  ∃ head h l,
    build ss = Ok head h ∧
    is_queue h head l ∧
    value_of h <$> l = (λ s, cstr (c_bytes s)) <$> ss ∧
    heap_ok h ∧
    ∃ h', q_free (S (length ss)) head h = Ok tt h' ∧
          cells h' = literals 256 ss.
Proof.
  intros Hsize.
  set (h0 := literal_heap ss (replicate (1 + 2 * length ss) (Some 85))).
  pose proof (heap_ok_literal ss (oracle h0) Hsize) as Hok0.
  destruct (q_new_spec h0 Hok0) as (h1 & Hnew & Hok1).
  change (oracle h0) with (Some 85 :: replicate (2 * length ss) (Some 85)) in Hnew.
  cbv iota in Hnew.
  destruct Hnew as (Hrun1 & Hfresh0 & Hc1 & Hq1 & Hown1 & Ho1).
  set (q := brk h0) in *.
  assert (q = 256 * (1 + Z.of_nat (length ss))) as Eq by done.
  destruct (insert_all_spec q 85 (c_bytes <$> ss) 256 h1 [] [] [] Hok1 Hq1 Hown1)
    as (h & l & vs & Hrun & Hok & Hq & Hown & _ & Hvals & Hfresh & Hsame).
  { by rewrite length_fmap, app_nil_r. }
  { intros i bs (s & -> & Hi)%list_lookup_fmap_Some.
    split; [|apply strlen_c_bytes].
    pose proof (lookup_lt_Some _ _ _ Hi) as Hlt.
    unfold chars_at. rewrite decide_False by lia. rewrite Hc1.
    rewrite lookup_insert_ne by lia.
    change (cells h0) with (literals 256 ss).
    by rewrite (literals_lookup ss 256 i s Hi). }
  rewrite length_fmap in Hrun. simpl in Hq, Hown.
  assert (length l = length ss) as Hlen.
  { apply (f_equal length) in Hvals. by rewrite !length_fmap in Hvals. }
  destruct (q_free_spec h q l vs (S (length ss)) Hq Hown)
    as (h' & Hfree & _ & _ & Hcells); [lia|].
  exists q, h, l. split; [|split; [done|split; [|split; [done|]]]].
  - unfold build. fold h0. erewrite bind_ok; [|exact Hrun1].
    by erewrite bind_ok; [|exact Hrun].
  - by rewrite Hvals, <- list_fmap_compose.
  - exists h'. split; [done|]. apply map_eq. intros a. rewrite Hcells.
    change (literals 256 ss) with (cells h0).
    destruct (decide (a = q)) as [->|Haq].
    { by rewrite decide_True by (by left). }
    destruct (decide (a ∈ map list_entry l ++ vs)) as [Hin|Hnin].
    + rewrite decide_True by (by right).
      apply Hfresh in Hin. rewrite Hc1 in Hin.
      by apply lookup_insert_None in Hin as [-> _].
    + rewrite decide_False by (by apply not_elem_of_cons).
      specialize (Hsame a Hnin). rewrite Hc1 in Hsame.
      rewrite lookup_insert_ne in Hsame by done.
      destruct (cells h0 !! a) as [c|] eqn:Ec.
      * destruct (literals_lookup_inv _ _ _ _ Ec) as (i & s & _ & _ & ->).
        destruct (cells h !! a) as [[]|]; simpl in Hsame; congruence.
      * by destruct (cells h !! a).
Qed.

Lemma build_then_free_witness :
  let ss := ["x"; "y"; "z"]%string in
  ∃ head h l,
    build ss = Ok head h ∧
    is_queue h head l ∧
    value_of h <$> l = (λ s, cstr (c_bytes s)) <$> ss ∧
    heap_ok h ∧
    ∃ h', q_free (S (length ss)) head h = Ok tt h' ∧
          cells h' = literals 256 ss.
Proof.
  apply (build_then_free ["x"; "y"; "z"]%string).
  apply (bool_decide_unpack _). vm_compute. exact I.
Defined.

(** ** Reordering and then freeing *)

(** Ownership does not depend on the links: it survives every operation
    that only relinks, for any order of the same nodes. *)
Lemma owns_reordered h h' head l vs r :
  relinked h h' → owns h head l vs → r ≡ₚ l →
  ∃ vs', vs' ≡ₚ vs ∧ owns h' head r vs'.
Proof.
  intros Hrel ([lh Hhead] & HF & Hnd) Hperm.
  set (ptr := λ x, default 0 (elem_at (cells h) (list_entry x))).
  assert (vs = ptr <$> l) as ->.
  { clear -HF. induction HF as [|x v l vs [Hx _] _ IH]; [done|].
    rewrite fmap_cons, <- IH. unfold ptr at 1. by rewrite Hx. }
  assert (Forall (λ x, elem_at (cells h) (list_entry x) = Some (ptr x) ∧
                       is_Some (chars_at (cells h) (ptr x))) l) as Hall.
  { clear -HF. remember (ptr <$> l) as vs eqn:E.
    revert E. induction HF as [|x v l vs [Hx Hv] _ IH]; intros E;
      [constructor|].
    rewrite fmap_cons in E. injection E as -> ->.
    constructor; [|by apply IH]. split; [|done].
    unfold ptr. by rewrite Hx. }
  exists (ptr <$> r). split; [by rewrite Hperm|]. split; [|split].
  - destruct Hrel as (_ & _ & Hc). specialize (Hc head).
    rewrite Hhead in Hc.
    destruct (cells h' !! head) as [[lh'| |]|]; simpl in Hc; try done.
    by eauto.
  - apply Forall2_fmap_r, Forall_Forall2_diag.
    rewrite <- Hperm in Hall. eapply Forall_impl; [exact Hall|].
    intros x [Hx Hv]. simpl.
    by rewrite (relinked_elem_at _ _ _ Hrel), (relinked_chars_at _ _ _ Hrel).
  - by rewrite Hperm.
Qed.

(** What [q_free] leaves when the queue it frees is a reordering, with
    only links changed, of a queue that owned its blocks. *)
Lemma q_free_reordered h h1 head l vs r fuel :
  relinked h h1 → owns h head l vs → r ≡ₚ l →
  is_queue h1 head r → (length l < fuel)%nat →
  ∃ h2, q_free fuel head h1 = Ok tt h2 ∧
        ∀ a, unlink <$> (cells h2 !! a) =
             if decide (a ∈ head :: map list_entry l ++ vs) then None
             else unlink <$> (cells h !! a).
Proof.
  intros Hrel Hown Hperm Hq1 Hfuel.
  destruct (owns_reordered h h1 head l vs r Hrel Hown Hperm)
    as (vs' & Hvs & Hown1).
  destruct (q_free_spec h1 head r vs' fuel Hq1 Hown1) as (h2 & Hrun & _ & _ & Hc).
  { by rewrite Hperm. }
  exists h2. split; [done|]. intros a. rewrite Hc.
  destruct Hrel as (_ & _ & Hrel).
  assert (a ∈ head :: map list_entry r ++ vs'
          ↔ a ∈ head :: map list_entry l ++ vs) as Hiff.
  { by rewrite Hperm, Hvs. }
  destruct (decide (a ∈ head :: map list_entry r ++ vs')) as [Hin|Hnin].
  - by rewrite decide_True by (by apply Hiff).
  - rewrite decide_False by (by rewrite <- Hiff). apply Hrel.
Qed.

(** X22: reordering never loses track of memory. After [q_reverse],
    [q_swap] or [q_sort] on a queue that owns its blocks, [q_free] still
    succeeds and releases exactly the sentinel, the elements and their
    strings; every other block has the payload it had before the
    reordering. *)
Theorem reorder_then_free h head l vs fuel :
  is_queue h head l → owns h head l vs →
  (∀ x, x ∈ l → has_string h x) →
  (length l + 2 ≤ fuel)%nat →
  let freed h2 :=
    ∀ a, unlink <$> (cells h2 !! a) =
         if decide (a ∈ head :: map list_entry l ++ vs) then None
         else unlink <$> (cells h !! a) in
  (∃ h1 h2, q_reverse fuel head h = Ok tt h1 ∧
            q_free fuel head h1 = Ok tt h2 ∧ freed h2) ∧
  (∃ h1 h2, q_swap fuel head h = Ok tt h1 ∧
            q_free fuel head h1 = Ok tt h2 ∧ freed h2) ∧
  (∃ h1 h2, q_sort fuel head h = Ok tt h1 ∧
            q_free fuel head h1 = Ok tt h2 ∧ freed h2).
Proof.
  intros Hq Hown Hstr Hfuel freed. split; [|split].
  - destruct (q_reverse_spec h head l fuel Hq) as (h1 & Hrun & Hrel & Hin & _);
      [lia|].
    pose proof (reversed_is_queue h h1 head l Hq Hin) as Hq1.
    destruct (q_free_reordered h h1 head l vs (reverse l) fuel)
      as (h2 & Hfree & Hc); try done; [apply reverse_Permutation|lia|].
    by exists h1, h2.
  - destruct (q_swap_spec h head l fuel Hq) as (h1 & Hrun & Hq1 & Hrel); [lia|].
    assert (swap_pairs l ≡ₚ l) as Hperm.
    { clear. induction l as [| |a b l IH] using pair_ind; [done..|].
      simpl. rewrite IH. apply perm_swap. }
    destruct (q_free_reordered h h1 head l vs (swap_pairs l) fuel)
      as (h2 & Hfree & Hc); try done; [lia|].
    by exists h1, h2.
  - destruct (q_sort_spec h head l fuel Hq Hstr Hfuel)
      as (h1 & r & Hrun & Hq1 & Hperm & _ & Hrel).
    destruct (q_free_reordered h h1 head l vs r fuel)
      as (h2 & Hfree & Hc); try done; [lia|].
    by exists h1, h2.
Qed.

Lemma reorder_then_free_witness :
  let ss := ["z"; "x"; "y"]%string in
  let h := built_heap ss in
  let head := built_head ss in
  let l := built_nodes ss in
  let vs := [1088; 1136; 1184] in
  let freed h2 :=
    ∀ a, unlink <$> (cells h2 !! a) =
         if decide (a ∈ head :: map list_entry l ++ vs) then None
         else unlink <$> (cells h !! a) in
  (∃ h1 h2, q_reverse 5 head h = Ok tt h1 ∧
            q_free 5 head h1 = Ok tt h2 ∧ freed h2) ∧
  (∃ h1 h2, q_swap 5 head h = Ok tt h1 ∧
            q_free 5 head h1 = Ok tt h2 ∧ freed h2) ∧
  (∃ h1 h2, q_sort 5 head h = Ok tt h1 ∧
            q_free 5 head h1 = Ok tt h2 ∧ freed h2).
Proof.
  apply (reorder_then_free (built_heap ["z"; "x"; "y"]%string)
           (built_head ["z"; "x"; "y"]%string)
           (built_nodes ["z"; "x"; "y"]%string) [1088; 1136; 1184] 5).
  - apply is_queue_b_sound. vm_compute. reflexivity.
  - split; [|split].
    + exists (LH 1064 1160). vm_compute. reflexivity.
    + apply (bool_decide_unpack _). vm_compute. exact I.
    + apply (bool_decide_unpack _). vm_compute. exact I.
  - apply has_string_b_sound. vm_compute. reflexivity.
  - vm_compute. lia.
Defined.
